(** * MapReduce coordinator and worker (package [mr])

    A shallow embedding of the coordinator ([Master]) and of the worker's
    [mapper] / [reducer] pipeline, together with the properties of the
    task lifecycle, the phase state machine and the intermediate-file
    discipline.

    Modelling conventions.
    - Go [int] values are [Z]; strings are byte strings ([string]).
    - Every coordinator operation holds the package mutex [mu] for its
      whole body, so each operation is one atomic step on the [Master]
      value.  [TaskCompleted] starts [processTaskResult] with a [go]
      statement: the started call is returned as a pending goroutine and
      runs as a later step of its own.
    - A nil-pointer dereference or an index out of range is [Panic]; a send
      on the full buffered channel while [mu] is held can never be served
      and is [Blocked]; [log.Fatal] is [Fatal].  A step that is [Blocked]
      keeps [mu] for ever, so every later call waits in [mu.Lock()]: the
      outcome of a schedule is that of its first step that is not [Ok].
    - [*Task] pointers are modelled by the [Task] value they point to: the
      coordinator never writes through them.  The slice a task holds in
      [InterMediates] is the list of its elements when the task is made:
      a later [append] to the coordinator's matrix does not change the
      length of a slice that was copied before. *)

From Stdlib Require Import ZArith Lia Ascii String.
From stdpp Require Import base option list gmap strings pretty sorting.

Local Open Scope Z_scope.

(** ** Outcomes of a call *)

Inductive outcome (A : Type) : Type :=
  | Ok (a : A)
  | Panic
  | Blocked
  | Fatal.
Arguments Ok {A} a.
Arguments Panic {A}.
Arguments Blocked {A}.
Arguments Fatal {A}.

Definition obind {A B : Type} (x : outcome A) (f : A → outcome B) : outcome B :=
  match x with
  | Ok a => f a
  | Panic => Panic
  | Blocked => Blocked
  | Fatal => Fatal
  end.

Notation "x ←o y ; z" := (obind y (λ x, z))
  (at level 20, y at level 100, z at level 200, only parsing).

Fixpoint ofold {A B : Type} (f : A → B → outcome A) (a : A) (l : list B) : outcome A :=
  match l with
  | [] => Ok a
  | b :: l' => a' ←o f a b; ofold f a' l'
  end.

(** ** Data model (master.go) *)

Inductive MasterTaskState : Set := Idle | InProgress | Completed.

Inductive State : Set := Map | Reduce | Exit | Wait.

Global Instance MasterTaskState_eq_dec : EqDecision MasterTaskState.
Proof. solve_decision. Defined.

Global Instance State_eq_dec : EqDecision State.
Proof. solve_decision. Defined.

Record Task : Type := mkTask {
  Id : Z;
  Input : string;
  Output : string;
  TaskState : State;
  NReducer : Z;
  InterMediates : list string
}.

Global Instance Task_eq_dec : EqDecision Task.
Proof. solve_decision. Defined.

Record MasterTask : Type := mkMasterTask {
  TaskStatus : MasterTaskState;
  StartTime : Z;
  TaskPtr : Task
}.

Global Instance MasterTask_eq_dec : EqDecision MasterTask.
Proof. solve_decision. Defined.

(** [TaskQueue] is the buffered channel: its content in FIFO order and its
    capacity.  The matrix field is [Master.InterMediates] in the source; it
    is renamed because [Task] has a field of that name. *)
Record Master : Type := mkMaster {
  TaskQueue : list Task;
  QueueCap : Z;
  TaskMeta : gmap Z MasterTask;
  Phase : State;
  NReduce : Z;
  InputFiles : list string;
  MasterInterMediates : list (list string)
}.

Definition set_TaskQueue (q : list Task) (m : Master) : Master :=
  mkMaster q (QueueCap m) (TaskMeta m) (Phase m) (NReduce m) (InputFiles m)
           (MasterInterMediates m).

Definition set_TaskMeta (tm : gmap Z MasterTask) (m : Master) : Master :=
  mkMaster (TaskQueue m) (QueueCap m) tm (Phase m) (NReduce m) (InputFiles m)
           (MasterInterMediates m).

Definition set_Phase (p : State) (m : Master) : Master :=
  mkMaster (TaskQueue m) (QueueCap m) (TaskMeta m) p (NReduce m) (InputFiles m)
           (MasterInterMediates m).

Definition set_InterMediates (im : list (list string)) (m : Master) : Master :=
  mkMaster (TaskQueue m) (QueueCap m) (TaskMeta m) (Phase m) (NReduce m)
           (InputFiles m) im.

Definition set_TaskStatus (s : MasterTaskState) (r : MasterTask) : MasterTask :=
  mkMasterTask s (StartTime r) (TaskPtr r).

Definition set_StartTime (t : Z) (r : MasterTask) : MasterTask :=
  mkMasterTask (TaskStatus r) t (TaskPtr r).

(** ** Channel operations *)

(** [m.TaskQueue <- t] with [mu] held: a full channel blocks for ever,
    since every receiver needs [mu]. *)
Definition send (t : Task) (m : Master) : outcome Master :=
  if bool_decide (Z.of_nat (length (TaskQueue m)) < QueueCap m)
  then Ok (set_TaskQueue (TaskQueue m ++ [t]) m)
  else Blocked.

(** Modelled from the spec: the helper [max] used by [MakeMaster] to size
    the channel is not part of the listed sources; the queue is "sized to
    max(fileCount, reducerCount)". *)
Definition max (a b : Z) : Z := if bool_decide (a < b) then b else a.

(** ** Task creation *)

(** Loop body of [createMapTask] for index [idx] and file [filename]. *)
Definition createMapTask_body (m : Master) (idx : Z) (filename : string) : outcome Master :=
  let task := mkTask idx filename "" Map (NReduce m) [] in
  m1 ←o send task m;
  Ok (set_TaskMeta (<[idx := mkMasterTask Idle 0 task]> (TaskMeta m1)) m1).

Fixpoint createMapTask_from (idx : Z) (files : list string) (m : Master) : outcome Master :=
  match files with
  | [] => Ok m
  | filename :: rest =>
      m1 ←o createMapTask_body m idx filename;
      createMapTask_from (idx + 1) rest m1
  end.

Definition createMapTask (m : Master) : outcome Master :=
  createMapTask_from 0 (InputFiles m) m.

(** Loop body of [createReduceTask] for bucket [idx] holding [files]. *)
Definition createReduceTask_body (m : Master) (idx : Z) (files : list string) : outcome Master :=
  let task := mkTask idx "" "" Reduce (NReduce m) files in
  m1 ←o send task m;
  Ok (set_TaskMeta (<[idx := mkMasterTask Idle 0 task]> (TaskMeta m1)) m1).

Fixpoint createReduceTask_from (idx : Z) (buckets : list (list string)) (m : Master) : outcome Master :=
  match buckets with
  | [] => Ok m
  | files :: rest =>
      m1 ←o createReduceTask_body m idx files;
      createReduceTask_from (idx + 1) rest m1
  end.

Definition createReduceTask (m : Master) : outcome Master :=
  createReduceTask_from 0 (MasterInterMediates m) (set_TaskMeta ∅ m).

(** [MakeMaster]: the [Master] value it builds.  [make([][]string,
    nReduce)] panics on a negative length.  Starting the RPC server
    ([m.server()], which ends the process with [log.Fatal] when the socket
    cannot be bound) and the timeout goroutine has no effect on the
    [Master] value and is outside this function: the outcome says nothing
    about whether the server came up, nor about a length beyond what
    [make] can allocate. *)
Definition MakeMaster (files : list string) (nReduce : Z) : outcome Master :=
  if bool_decide (nReduce < 0) then Panic
  else
    createMapTask
      (mkMaster [] (max nReduce (Z.of_nat (length files))) ∅ Map nReduce files
                (replicate (Z.to_nat nReduce) [])).

(** ** RPC handlers *)

Definition Done (m : Master) : bool := bool_decide (Phase m = Exit).

(** [AssignTask] at wall-clock time [now]; returns the new state and the
    reply. *)
Definition AssignTask (now : Z) (m : Master) : outcome (Master * Task) :=
  match TaskQueue m with
  | reply :: q =>
      match TaskMeta m !! Id reply with
      | Some r =>
          Ok (set_TaskMeta
                (<[Id reply := set_StartTime now (set_TaskStatus InProgress r)]> (TaskMeta m))
                (set_TaskQueue q m),
              reply)
      | None => Panic
      end
  | [] =>
      if bool_decide (Phase m = Exit)
      then Ok (m, mkTask 0 "" "" Exit 0 [])
      else Ok (m, mkTask 0 "" "" Wait 0 [])
  end.

(** [TaskCompleted]: returns the new state and, when the report is
    accepted, the argument of the started [processTaskResult] goroutine. *)
Definition TaskCompleted (task : Task) (m : Master) : outcome (Master * option Task) :=
  if bool_decide (TaskState task ≠ Phase m) then Ok (m, None)
  else
    match TaskMeta m !! Id task with
    | None => Panic
    | Some r =>
        if bool_decide (TaskStatus r = Completed) then Ok (m, None)
        else Ok (set_TaskMeta (<[Id task := set_TaskStatus Completed r]> (TaskMeta m)) m,
                 Some task)
    end.

Definition allTaskDone (m : Master) : bool :=
  bool_decide (map_Forall (λ _ r, TaskStatus r = Completed) (TaskMeta m)).

(** Loop body of the collection loop of [processTaskResult]. *)
Definition collect_body (im : list (list string)) (reduceId : nat) (filePath : string)
  : outcome (list (list string)) :=
  match im !! reduceId with
  | Some files => Ok (<[reduceId := files ++ [filePath]]> im)
  | None => Panic
  end.

Fixpoint collect_from (reduceId : nat) (paths : list string) (im : list (list string))
  : outcome (list (list string)) :=
  match paths with
  | [] => Ok im
  | filePath :: rest =>
      im1 ←o collect_body im reduceId filePath;
      collect_from (S reduceId) rest im1
  end.

Definition processTaskResult (task : Task) (m : Master) : outcome Master :=
  match TaskState task with
  | Map =>
      im ←o collect_from 0 (InterMediates task) (MasterInterMediates m);
      let m1 := set_InterMediates im m in
      if allTaskDone m1 then
        m2 ←o createReduceTask m1;
        Ok (set_Phase Reduce m2)
      else Ok m1
  | Reduce =>
      if allTaskDone m then Ok (set_Phase Exit m) else Ok m
  | _ => Ok m
  end.

(** ** Timeout sweep *)

Definition Second : Z := 1000000000.

(** Body of the [range m.TaskMeta] loop of [catchTimeOut] for the record
    stored under [id]. *)
Definition catchTimeOut_body (now : Z) (m : Master) (id : Z) : outcome Master :=
  match TaskMeta m !! id with
  | Some t =>
      if bool_decide (TaskStatus t = InProgress) && bool_decide (10 * Second < now - StartTime t)
      then
        m1 ←o send (TaskPtr t) m;
        Ok (set_TaskMeta (<[id := set_TaskStatus Idle t]> (TaskMeta m1)) m1)
      else Ok m
  | None => Ok m
  end.

(** One round of [catchTimeOut] after the sleep, at time [now] (the clock
    does not advance within a round).  Go leaves the iteration order of a
    map unspecified: [order] is the order in which this round visits the
    keys.  A round that finds the phase Exit ends the sweeping goroutine;
    here it is a round without effect. *)
Definition catchTimeOut (now : Z) (order : list Z) (m : Master) : outcome Master :=
  if bool_decide (Phase m = Exit) then Ok m
  else ofold (catchTimeOut_body now) m order.

(** [order] visits every key of the record map exactly once. *)
Definition visits_all (order : list Z) (m : Master) : Prop :=
  NoDup order ∧ list_to_set order = dom (TaskMeta m).

Global Instance visits_all_dec order m : Decision (visits_all order m).
Proof. unfold visits_all. apply _. Defined.

(** ** The coordinator as a transition system *)

(** A configuration: the [Master] value and the started, not yet run,
    [processTaskResult] goroutines. *)
Record Config : Type := mkConfig {
  master : Master;
  goroutines : list Task
}.

(** The atomic steps: an [AssignTask] call served at time [now], a
    [TaskCompleted] call, the [i]-th pending goroutine getting the mutex,
    and a round of the timeout sweep.  An event that cannot occur (no such
    goroutine, an order that is no enumeration of the keys) leaves the
    configuration as it is. *)
Inductive Event : Type :=
  | EvAssignTask (now : Z)
  | EvTaskCompleted (task : Task)
  | EvProcessTaskResult (i : nat)
  | EvCatchTimeOut (now : Z) (order : list Z).

Definition exec (c : Config) (e : Event) : outcome Config :=
  match e with
  | EvAssignTask now =>
      r ←o AssignTask now (master c);
      Ok (mkConfig r.1 (goroutines c))
  | EvTaskCompleted task =>
      r ←o TaskCompleted task (master c);
      Ok (mkConfig r.1 (goroutines c ++ option_list r.2))
  | EvProcessTaskResult i =>
      match goroutines c !! i with
      | Some task =>
          m ←o processTaskResult task (master c);
          Ok (mkConfig m (delete i (goroutines c)))
      | None => Ok c
      end
  | EvCatchTimeOut now order =>
      if bool_decide (visits_all order (master c)) then
        m ←o catchTimeOut now order (master c);
        Ok (mkConfig m (goroutines c))
      else Ok c
  end.

Definition run (c : Config) (es : list Event) : outcome Config := ofold exec c es.

Definition start (files : list string) (nReduce : Z) : outcome Config :=
  m ←o MakeMaster files nReduce;
  Ok (mkConfig m []).

(** States the coordinator can be in after some schedule of calls. *)
Definition reachable (c : Config) : Prop :=
  ∃ files nReduce es, (c0 ←o start files nReduce; run c0 es) = Ok c.

(** ** Worker: hashing (worker.go) *)

Record KeyValue : Type := mkKeyValue {
  Key : string;
  Value : string
}.

Global Instance KeyValue_eq_dec : EqDecision KeyValue.
Proof. solve_decision. Defined.

Definition byte_of (c : Ascii.ascii) : Z := Z.of_N (Ascii.N_of_ascii c).

(** [hash/fnv] 32-bit FNV-1a: for every byte, xor then multiply by the
    prime, in [uint32] arithmetic. *)
Definition offset32 : Z := 2166136261.
Definition prime32 : Z := 16777619.

Fixpoint fnv32a_Write (h : Z) (data : string) : Z :=
  match data with
  | EmptyString => h
  | String c rest => fnv32a_Write ((Z.lxor h (byte_of c) * prime32) mod 2 ^ 32) rest
  end.

Definition ihash (key : string) : Z :=
  Z.land (fnv32a_Write offset32 key) 2147483647.

(** ** Worker: local files *)

(** What the worker does to the file system, call by call. *)
Inductive FsOp : Type :=
  | OpCreate (path : string)
  | OpWrite (path : string) (data : string)
  | OpRename (oldpath newpath : string).

(** The worker's surroundings: the files (path to content), the random
    suffixes [ioutil.TempFile] will draw, and the log of the file-system
    calls made so far. *)
Record World : Type := mkWorld {
  files : gmap string string;
  suffixes : list string;
  oplog : list FsOp
}.

(** [filepath.Join] of a clean directory and a file name. *)
Definition Join (dir name : string) : string :=
  if bool_decide (dir = "/") then "/" +:+ name else dir +:+ "/" +:+ name.

Definition is_abs (p : string) : bool :=
  match p with
  | String "/"%char _ => true
  | _ => false
  end.

(** The file a path denotes for a process whose working directory is
    [dir]. *)
Definition resolve (dir p : string) : string :=
  if is_abs p then p else Join dir p.

Definition fs_create (p : string) (w : World) : World :=
  mkWorld (<[p := ""]> (files w)) (suffixes w) (oplog w ++ [OpCreate p]).

Definition fs_write (p data : string) (w : World) : World :=
  mkWorld (alter (λ old, old +:+ data) p (files w)) (suffixes w)
          (oplog w ++ [OpWrite p data]).

(** [os.Rename]; the worker ignores its error. *)
Definition fs_rename (oldpath newpath : string) (w : World) : World :=
  match files w !! oldpath with
  | Some data =>
      mkWorld (<[newpath := data]> (delete oldpath (files w))) (suffixes w)
              (oplog w ++ [OpRename oldpath newpath])
  | None => mkWorld (files w) (suffixes w) (oplog w ++ [OpRename oldpath newpath])
  end.

(** [ioutil.TempFile(dir, "mr-tmp-*")]: random names are tried until one
    does not exist yet; running out of attempts is the error case, which
    both callers turn into [log.Fatal]. *)
Fixpoint TempFile_try (dir : string) (fs : gmap string string) (cands : list string)
  : option (string * list string) :=
  match cands with
  | [] => None
  | r :: rest =>
      let name := Join dir ("mr-tmp-" +:+ r) in
      if bool_decide (is_Some (fs !! name)) then TempFile_try dir fs rest
      else Some (name, rest)
  end.

Definition TempFile (dir : string) (w : World) : outcome (string * World) :=
  match TempFile_try dir (files w) (suffixes w) with
  | Some (name, rest) =>
      Ok (name, fs_create name (mkWorld (files w) rest (oplog w)))
  | None => Fatal
  end.

(** [fmt.Sprintf("mr-%d-%d", MapId, reduceId)] and
    [fmt.Sprintf("mr-out-%d", task.Id)]. *)
Definition intermediate_name (MapId reduceId : Z) : string :=
  "mr-" +:+ pretty MapId +:+ "-" +:+ pretty reduceId.

Definition output_name (id : Z) : string := "mr-out-" +:+ pretty id.

Section Worker.

(** The user's Map and Reduce functions. *)
Variable mapf : string → string → list KeyValue.
Variable reducef : string → list string → string.

(** [encoding/json]: the bytes one [Encode] call writes for a pair, and
    the pairs a [Decoder] yields from a file before its first error. *)
Variable json_encode : KeyValue → string.
Variable json_decode : string → list KeyValue.

(** [sort.Sort(ByKey(...))]: the algorithm is the library's. *)
Variable sort_ByKey : list KeyValue → list KeyValue.

(** [os.Getwd()]. *)
Variable dir : string.

(** [ByKey.Less]. *)
Definition Less (a b : KeyValue) : bool := String.ltb (Key a) (Key b).

(** The RPC a worker sends when a task is finished. *)
Definition taskCompleted (task : Task) : Event := EvTaskCompleted task.

(** [writeToLocalFile]: a temporary file is created, the pairs are
    encoded into it one by one, and it is renamed.  The writes go to the
    file system of [World], where a write always succeeds; the exit by
    [log.Fatal] on a failed [enc.Encode] is therefore not among the
    outcomes, and [Ok] stands for the runs in which every write
    succeeded. *)
Definition writeToLocalFile (MapId reduceId : Z) (kvs : list KeyValue) (w : World)
  : outcome (string * World) :=
  r ←o TempFile dir w;
  let tempFile := r.1 in
  let w1 := foldl (λ w' kv, fs_write tempFile (json_encode kv) w') r.2 kvs in
  let outputName := intermediate_name MapId reduceId in
  Ok (Join dir outputName, fs_rename tempFile (resolve dir outputName) w1).

(** Body of the partitioning loop of [mapper]. *)
Definition partition_body (NReducer : Z) (buffer : list (list KeyValue)) (intermediate : KeyValue)
  : outcome (list (list KeyValue)) :=
  if bool_decide (NReducer = 0) then Panic
  else
    let slot := Z.rem (ihash (Key intermediate)) NReducer in
    if bool_decide (slot < 0) then Panic
    else
      match buffer !! Z.to_nat slot with
      | Some b => Ok (<[Z.to_nat slot := b ++ [intermediate]]> buffer)
      | None => Panic
      end.

(** The partitioning loop of [mapper] on a fresh buffer
    [make([][]KeyValue, NReducer)]. *)
Definition partition (NReducer : Z) (intermediates : list KeyValue)
  : outcome (list (list KeyValue)) :=
  ofold (partition_body NReducer) (replicate (Z.to_nat NReducer) []) intermediates.

(** The loop [for i := 0; i < task.NReducer; i++] of [mapper], from
    bucket [i] on. *)
Fixpoint write_buckets (MapId : Z) (i : Z) (buckets : list (list KeyValue))
         (mapOutput : list string) (w : World) : outcome (list string * World) :=
  match buckets with
  | [] => Ok (mapOutput, w)
  | b :: rest =>
      r ←o writeToLocalFile MapId i b w;
      write_buckets MapId (i + 1) rest (mapOutput ++ [r.1]) r.2
  end.

Definition set_Task_InterMediates (l : list string) (t : Task) : Task :=
  mkTask (Id t) (Input t) (Output t) (TaskState t) (NReducer t) l.

Definition set_Task_Output (o : string) (t : Task) : Task :=
  mkTask (Id t) (Input t) o (TaskState t) (NReducer t) (InterMediates t).

Definition mapper (task : Task) (w : World) : outcome (Event * World) :=
  match files w !! resolve dir (Input task) with
  | None => Fatal
  | Some content =>
      let intermediates := mapf (Input task) content in
      if bool_decide (NReducer task < 0) then Panic
      else
        buffer ←o partition (NReducer task) intermediates;
        r ←o write_buckets (Id task) 0 buffer [] w;
        Ok (taskCompleted (set_Task_InterMediates r.1 task), r.2)
  end.

Definition readFromLocalFile_body (fs : gmap string string) (kva : list KeyValue) (filepath : string)
  : outcome (list KeyValue) :=
  match fs !! resolve dir filepath with
  | Some data => Ok (kva ++ json_decode data)
  | None => Fatal
  end.

Definition readFromLocalFile (paths : list string) (w : World) : outcome (list KeyValue) :=
  ofold (readFromLocalFile_body (files w)) [] paths.

(** The inner loop of [reducer]: [j] advances while
    [intermediate[j].Key == intermediate[j-1].Key]; [prev] is the key at
    [j-1].  Returns the elements passed over and the rest. *)
Fixpoint same_key_run (prev : string) (l : list KeyValue) : list KeyValue * list KeyValue :=
  match l with
  | kv :: rest =>
      if bool_decide (Key kv = prev) then
        let r := same_key_run (Key kv) rest in (kv :: r.1, r.2)
      else ([], l)
  | [] => ([], [])
  end.

(** The outer loop of [reducer] over [intermediate[i:]]: the calls
    [reducef(key, values)] it makes, in order.  [n] bounds the number of
    rounds; [length l] rounds always suffice. *)
Fixpoint reduce_calls (n : nat) (l : list KeyValue) : list (string * list string) :=
  match n, l with
  | S n', kv :: rest =>
      let r := same_key_run (Key kv) rest in
      (Key kv, Value kv :: (Value <$> r.1)) :: reduce_calls n' r.2
  | _, _ => []
  end.

(** [fmt.Fprintf(tempFile, "%v %v\n", key, output)]. *)
Definition output_line (call : string * list string) : string :=
  call.1 +:+ " " +:+ reducef call.1 call.2 +:+ "
".

Definition reducer (task : Task) (w : World) : outcome (Event * World) :=
  kva ←o readFromLocalFile (InterMediates task) w;
  let intermediate := sort_ByKey kva in
  r ←o TempFile dir w;
  let tempFile := r.1 in
  let w1 := foldl (λ w' call, fs_write tempFile (output_line call) w') r.2
                  (reduce_calls (length intermediate) intermediate) in
  let oname := output_name (Id task) in
  Ok (taskCompleted (set_Task_Output oname task),
      fs_rename tempFile (resolve dir oname) w1).

End Worker.


(** ** Specification vocabulary *)

(** The record [createMapTask] / [createReduceTask] store for a task. *)
Definition record_of (t : Task) : MasterTask := mkMasterTask Idle 0 t.

(** The Map task of input file number [i], and the Reduce task of bucket
    number [i]. *)
Definition map_task (nReduce : Z) (i : nat) (filename : string) : Task :=
  mkTask (Z.of_nat i) filename "" Map nReduce [].

Definition reduce_task (nReduce : Z) (i : nat) (bucket : list string) : Task :=
  mkTask (Z.of_nat i) "" "" Reduce nReduce bucket.

(** [tm] holds exactly one record per task of [tasks], under the dense ids
    [0 .. length tasks - 1], each Idle and owning its task. *)
Definition task_set (tasks : list Task) (tm : gmap Z MasterTask) : Prop :=
  Id <$> tasks = seqZ 0 (Z.of_nat (length tasks)) ∧
  size tm = length tasks ∧
  ∀ id : Z,
    tm !! id =
      if bool_decide (0 ≤ id < Z.of_nat (length tasks))
      then record_of <$> tasks !! Z.to_nat id
      else None.

(** Well-formed coordinator state: the matrix has one bucket per reducer
    and the channel is not over its capacity. *)
Definition master_wf (m : Master) : Prop :=
  0 ≤ NReduce m ∧
  length (MasterInterMediates m) = Z.to_nat (NReduce m) ∧
  Z.of_nat (length (TaskQueue m)) ≤ QueueCap m.

(** The reply [Task{TaskState: s}] of [AssignTask] when there is nothing to
    hand out. *)
Definition sentinel (s : State) : Task := mkTask 0 "" "" s 0 [].

(** [AssignTask] as the specification words it, for a state [m]: a task is
    popped, marked and returned whenever the queue is non-empty. *)
Definition AssignTask_as_specified (now : Z) (m : Master) : Prop :=
  match TaskQueue m with
  | t :: q =>
      ∃ m' r, AssignTask now m = Ok (m', t) ∧ TaskQueue m' = q ∧
              TaskMeta m' !! Id t = Some r ∧
              TaskStatus r = InProgress ∧ StartTime r = now
  | [] =>
      AssignTask now m = Ok (m, sentinel (if bool_decide (Phase m = Exit) then Exit else Wait))
  end.

(** ** Scenarios *)

(** Reports of the two Map tasks of a job with input files [a] and [b]
    and one reducer, as workers running in directory [/d] send them. *)
Definition report_M0 : Task := mkTask 0 "a" "" Map 1 ["/d/mr-0-0"].
Definition report_M1 : Task := mkTask 1 "b" "" Map 1 ["/d/mr-1-0"].
Definition report_R0 (inputs : list string) : Task :=
  mkTask 0 "" "mr-out-0" Reduce 1 inputs.

(** Map task 1 is handed out, its worker is slow, the sweep puts the task
    back into the queue, and then the slow worker reports after all: the
    Map phase is complete while task 1 is still queued. *)
Definition stale_queue_schedule : list Event :=
  [ EvAssignTask 0; EvAssignTask 0;
    EvTaskCompleted report_M0; EvProcessTaskResult 0;
    EvCatchTimeOut (11 * Second) [0; 1];
    EvTaskCompleted report_M1; EvProcessTaskResult 0 ].

(** Both Map tasks are reported before either result is processed; the
    goroutine of task 0 runs first. *)
Definition early_transition_schedule : list Event :=
  [ EvAssignTask 0; EvAssignTask 0;
    EvTaskCompleted report_M0; EvTaskCompleted report_M1;
    EvProcessTaskResult 0 ].

(** The Reduce task is then run and processed, and only then the goroutine
    of Map task 1 gets the mutex. *)
Definition late_goroutine_schedule : list Event :=
  early_transition_schedule ++
  [ EvAssignTask 1; EvTaskCompleted (report_R0 ["/d/mr-0-0"]);
    EvProcessTaskResult 1 ].

(** A reclaimed Map task whose first worker reports before the task is
    handed out again. *)
Definition late_report_schedule : list Event :=
  [ EvAssignTask 0; EvCatchTimeOut (11 * Second) [0; 1] ].

(** The same, continued: the report is accepted and merged, and then the
    queue, which still holds the reclaimed task, is drained. *)
Definition reopen_schedule : list Event :=
  late_report_schedule ++
  [ EvTaskCompleted report_M0; EvProcessTaskResult 0;
    EvAssignTask (12 * Second); EvAssignTask (12 * Second) ].

(** ** Record lifecycle *)

(** The moves of a record's status as the specification lists them:
    Idle to InProgress by [AssignTask], InProgress to Completed by
    [TaskCompleted], InProgress to Idle by the timeout sweep. *)
Definition spec_lifecycle_move (e : Event) (old new : MasterTaskState) : Prop :=
  match e with
  | EvAssignTask _ => old = Idle ∧ new = InProgress
  | EvTaskCompleted _ => old = InProgress ∧ new = Completed
  | EvCatchTimeOut _ _ => old = InProgress ∧ new = Idle
  | EvProcessTaskResult _ => False
  end.


(** ** Worker vocabulary *)

(** The content of a file written record by record. *)
Definition concat_strings (records : list string) : string :=
  foldr String.append "" records.

(** The write-to-temporary-then-rename pattern: the file-system calls that
    create [tmp], write [records] to it one by one, and rename it to
    [out]. *)
Definition write_ops (tmp out : string) (records : list string) : list FsOp :=
  OpCreate tmp :: (OpWrite tmp <$> records) ++ [OpRename tmp out].

(** A suffix [ioutil.TempFile] may draw in directory [dir]: the temporary
    name is unused and differs from every intermediate-file name of Map
    task [MapId]. *)
Definition usable_suffix (dir : string) (MapId : Z) (fs : gmap string string) (r : string)
  : Prop :=
  fs !! Join dir ("mr-tmp-" +:+ r) = None ∧
  ∀ b, Join dir ("mr-tmp-" +:+ r) ≠ Join dir (intermediate_name MapId b).

(** The pairs of [kvs] that belong to bucket [b] of [R], in order. *)
Definition bucket (R : Z) (b : Z) (kvs : list KeyValue) : list KeyValue :=
  filter (λ kv, Z.rem (ihash (Key kv)) R = b) kvs.

(** [a] does not come after [b] in key order (byte-wise, as Go compares
    strings). *)
Definition key_le (a b : KeyValue) : Prop := String.le (Key a) (Key b).

Global Instance key_le_dec : RelDecision key_le.
Proof. intros a b. unfold key_le. apply _. Defined.

(** What [sort.Sort] establishes ([sort.IsSorted]): no element is [Less]
    than its predecessor. *)
Definition sorted_ByKey (l : list KeyValue) : Prop :=
  Sorted (λ a b, Less b a = false) l.

(** Keys in strictly ascending order. *)
Definition keys_ascending (ks : list string) : Prop :=
  StronglySorted (λ k1 k2, String.ltb k1 k2 = true) ks.

(** The values [kvs] holds for [key], in order. *)
Definition values_of (key : string) (kvs : list KeyValue) : list string :=
  Value <$> filter (λ kv, Key kv = key) kvs.

(** ** A word-count job, used to exercise the worker *)

Definition wc_mapf (filename contents : string) : list KeyValue :=
  (λ word, mkKeyValue word "1") <$> String.words contents.

Definition wc_reducef (key : string) (values : list string) : string :=
  pretty (length values).

(** A record encoding that is enough for the pairs [wc_mapf] emits. *)
Definition wc_encode (kv : KeyValue) : string := Key kv +:+ " ".

Definition wc_decode (data : string) : list KeyValue :=
  (λ word, mkKeyValue word "1") <$> String.words data.

Definition wc_sort (l : list KeyValue) : list KeyValue := merge_sort key_le l.

(** A worker in directory [/d] that holds the input file [in.txt]. *)
Definition wc_world : World :=
  mkWorld {[ "/d/in.txt" := "b a c a" ]} ["x1"; "x2"; "x3"; "x4"] [].

Definition wc_map_task : Task := mkTask 3 "in.txt" "" Map 2 [].

(** A worker in directory [/d] that holds the two input files of the job
    of [report_M0] and [report_M1]. *)
Definition ab_world : World :=
  mkWorld {[ "/d/a" := "x y"; "/d/b" := "y z" ]} ["x1"; "x2"; "x3"; "x4"] [].

(** ** Task sets over time *)

(** The owners of the records of [tm] are exactly [tasks], under the dense
    ids [0 .. length tasks - 1] (whatever the records' status is). *)
Definition record_tasks (tasks : list Task) (tm : gmap Z MasterTask) : Prop :=
  ∀ id : Z,
    TaskPtr <$> tm !! id =
      if bool_decide (0 ≤ id < Z.of_nat (length tasks))
      then tasks !! Z.to_nat id
      else None.

(** The task set of the phase [m] is in: the Map tasks of the input files
    while the phase is Map, afterwards Reduce tasks over some earlier
    content of the [NReduce m] buckets. *)
Definition phase_tasks (m : Master) (tasks : list Task) : Prop :=
  if bool_decide (Phase m = Map)
  then tasks = imap (map_task (NReduce m)) (InputFiles m)
  else ∃ buckets : list (list string),
         length buckets = Z.to_nat (NReduce m) ∧
         tasks = imap (reduce_task (NReduce m)) buckets.

(** The number of tasks of the phase [m] is in. *)
Definition phase_size (m : Master) : Z :=
  if bool_decide (Phase m = Map) then Z.of_nat (length (InputFiles m)) else NReduce m.

(** What holds of every configuration a job can reach: the records belong
    to the task set of the phase; and while the phase is Map, everything
    queued is a Map task of the job and every pending goroutine carries a
    Map report. *)
Definition job_invariant (c : Config) : Prop :=
  ∃ tasks,
    phase_tasks (master c) tasks ∧
    record_tasks tasks (TaskMeta (master c)) ∧
    (Phase (master c) = Map →
       (∀ t, t ∈ TaskQueue (master c) → t ∈ tasks) ∧
       (∀ g, g ∈ goroutines c → TaskState g = Map)).

(** The job of [stale_queue_schedule] with two reducers, up to the report
    that completes the Map phase: the channel (capacity 2) still holds the
    reclaimed Map task when the two Reduce tasks are to be queued. *)
Definition full_channel_schedule : list Event :=
  [ EvAssignTask 0; EvAssignTask 0;
    EvTaskCompleted (mkTask 0 "a" "" Map 2 ["/d/mr-0-0"; "/d/mr-0-1"]);
    EvProcessTaskResult 0;
    EvCatchTimeOut (11 * Second) [0; 1];
    EvTaskCompleted (mkTask 1 "b" "" Map 2 ["/d/mr-1-0"; "/d/mr-1-1"]) ].

(** The channel holds no task twice, and no task whose record is
    InProgress. *)
Definition queue_fresh (m : Master) : Prop :=
  NoDup (Id <$> TaskQueue m) ∧
  ∀ t r, t ∈ TaskQueue m → TaskMeta m !! Id t = Some r → TaskStatus r ≠ InProgress.

(** What holds of the channel as long as the phase is Map. *)
Definition map_queue_invariant (c : Config) : Prop :=
  Phase (master c) = Map → queue_fresh (master c).

(** ** A job served by one worker at a time *)








(** * The gee router (router.go, trie.go) *)

Module gee.

(** [strings.Split(s, "/")]: the substrings between the slashes; a string
    without a slash (the empty one too) gives one substring. *)
Fixpoint Split (s : string) : list string :=
  match s with
  | EmptyString => [EmptyString]
  | String c rest =>
      if bool_decide (c = "/"%char) then EmptyString :: Split rest
      else match Split rest with
           | item :: items => String c item :: items
           | [] => [String c EmptyString]
           end
  end.

(** [strings.Join(elems, "/")]. *)
Fixpoint Join (elems : list string) : string :=
  match elems with
  | [] => EmptyString
  | e :: rest =>
      match rest with
      | [] => e
      | _ => e +:+ "/" +:+ Join rest
      end
  end.

(** [s[0] == c] for a non-empty [s], and [strings.HasPrefix(s, c)]. *)
Definition starts_with (c : Ascii.ascii) (s : string) : bool :=
  match s with
  | String c' _ => bool_decide (c' = c)
  | EmptyString => false
  end.

(** The loop of [parsePattern] over the remaining items [vs]. *)
Fixpoint parsePattern_loop (vs : list string) (parts : list string) : list string :=
  match vs with
  | [] => parts
  | item :: rest =>
      if bool_decide (0 < String.length item)%nat then
        if starts_with "*" item then parts ++ [item]
        else parsePattern_loop rest (parts ++ [item])
      else parsePattern_loop rest parts
  end.

Definition parsePattern (pattern : string) : list string :=
  parsePattern_loop (Split pattern) [].

(** A trie node; the children are owned by their parent, so the tree of
    pointers is a tree of values. *)
#[warnings="-register-all"] Inductive Node : Type := mkNode {
  pattern : string;
  part : string;
  children : list Node;
  isWild : bool
}.

Definition set_pattern (p : string) (n : Node) : Node :=
  mkNode p (part n) (children n) (isWild n).

Definition set_children (cs : list Node) (n : Node) : Node :=
  mkNode (pattern n) (part n) cs (isWild n).

(** The test [child.part == part || child.isWild]. *)
Definition matches (p : string) (child : Node) : bool :=
  bool_decide (part child = p) || isWild child.

(** [matchChild]: the first matching child, with its position among the
    children (the pointer the source returns). *)
Definition matchChild (n : Node) (p : string) : option (nat * Node) :=
  list_find (λ child, matches p child = true) (children n).

Definition matchChildren (n : Node) (p : string) : list Node :=
  filter (λ child, matches p child = true) (children n).

(** [n.insert(pattern, parts, height)], where [parts] stands for
    [parts[height:]].  Indexing [part[0]] of an empty part panics. *)
Fixpoint insert (pat : string) (parts : list string) (n : Node) : outcome Node :=
  match parts with
  | [] => Ok (set_pattern pat n)
  | p :: rest =>
      match matchChild n p with
      | Some (i, child) =>
          child' ←o insert pat rest child;
          Ok (set_children (<[i := child']> (children n)) n)
      | None =>
          match p with
          | EmptyString => Panic
          | String _ _ =>
              let child := mkNode "" p [] (starts_with ":" p || starts_with "*" p) in
              child' ←o insert pat rest child;
              Ok (set_children (children n ++ [child']) n)
          end
      end
  end.

(** The result of [search] at a node where the search ends. *)
Definition found (n : Node) : option Node :=
  if bool_decide (pattern n = "") then None else Some n.

(** [n.search(parts, height)], where [parts] stands for [parts[height:]]. *)
Fixpoint search (parts : list string) (n : Node) : option Node :=
  match parts with
  | [] => found n
  | p :: rest =>
      if starts_with "*" (part n) then found n
      else
        foldr (λ child later,
                 match search rest child with
                 | Some res => Some res
                 | None => later
                 end)
              None (matchChildren n p)
  end.

Section Router.

(** [HandleFunc]: the function values a route can be registered with,
    Go's nil function among them ([addRoute] stores what it is given). *)
Context {HandleFunc : Type}.

Record router : Type := mkRouter {
  roots : gmap string Node;
  handlers : gmap string HandleFunc
}.

Definition newRouter : router := mkRouter ∅ ∅.

Definition addRoute (method pat : string) (handler : HandleFunc) (r : router)
  : outcome router :=
  let roots1 :=
    match roots r !! method with
    | Some _ => roots r
    | None => <[method := mkNode "" "" [] false]> (roots r)
    end in
  let parts := parsePattern pat in
  match roots1 !! method with
  | Some root =>
      root' ←o insert pat parts root;
      let key := method +:+ "-" +:+ pat in
      Ok (mkRouter (<[method := root']> roots1) (<[key := handler]> (handlers r)))
  | None => Panic
  end.

(** The loop of [getRoute] over [parts[index:]].  An index beyond the end
    of [searchParts] panics. *)
Fixpoint getRoute_loop (parts : list string) (index : nat) (searchParts : list string)
    (params : gmap string string) : outcome (gmap string string) :=
  match parts with
  | [] => Ok params
  | p :: rest =>
      match p with
      | EmptyString => Panic
      | String c name =>
          if bool_decide (c = ":"%char) then
            match searchParts !! index with
            | Some v => getRoute_loop rest (S index) searchParts (<[name := v]> params)
            | None => Panic
            end
          else if bool_decide (c = "*"%char) && bool_decide (1 < String.length p)%nat then
            if bool_decide (index ≤ length searchParts)%nat
            then Ok (<[name := Join (drop index searchParts)]> params)
            else Panic
          else getRoute_loop rest (S index) searchParts params
      end
  end.

(** [getRoute]: [None] is the result [nil, nil]. *)
Definition getRoute (method path : string) (r : router)
  : outcome (option (Node * gmap string string)) :=
  let searchParts := parsePattern path in
  match roots r !! method with
  | None => Ok None
  | Some root =>
      match search searchParts root with
      | None => Ok None
      | Some n =>
          params ←o getRoute_loop (parsePattern (pattern n)) 0 searchParts ∅;
          Ok (Some (n, params))
      end
  end.

(** What [handle] appends to the handlers of the context before it calls
    [c.Next()]: the result of the lookup [r.handlers[key]] for the key of
    the matched route ([None] for a missing key, where Go yields the nil
    function; [Some h] for the stored value [h], whatever function value
    was registered) together with the parameters it stores in the
    context, or the 404 handler. *)
Inductive Routed : Type :=
  | RouteHandler (params : gmap string string) (key : string) (h : option HandleFunc)
  | NotFound.

Definition handle (method path : string) (r : router) : outcome Routed :=
  res ←o getRoute method path r;
  match res with
  | Some (n, params) =>
      let key := method +:+ "-" +:+ pattern n in
      Ok (RouteHandler params key (handlers r !! key))
  | None => Ok NotFound
  end.

(** A router after the registrations [routes], in order. *)
Definition register (routes : list (string * string * HandleFunc)) (r : router)
  : outcome router :=
  ofold (λ r route, addRoute route.1.1 route.1.2 route.2 r) r routes.

End Router.

(** [x] is a node [d] levels below [n] (or [n] itself, for [d = 0]). *)
Inductive at_depth : nat → Node → Node → Prop :=
  | at_here (n : Node) : at_depth 0 n n
  | at_below (d : nat) (x c n : Node) :
      c ∈ children n → at_depth d x c → at_depth (S d) x n.

(** A part that is neither empty, nor a parameter, nor a wildcard. *)
Definition static_part (p : string) : Prop :=
  p ≠ EmptyString ∧ starts_with ":" p = false ∧ starts_with "*" p = false.

(** A trie without parameter or wildcard nodes, as registrations of
    static patterns build it: no two children of a node have the same
    part. *)
#[warnings="-register-all"] Inductive static : Node → Prop :=
  | static_node (n : Node) :
      isWild n = false →
      starts_with "*" (part n) = false →
      NoDup (part <$> children n) →
      Forall static (children n) →
      static n.

(** The first child whose part is [p]. *)
Definition child_with_part (p : string) (cs : list Node) : option Node :=
  head (filter (λ c, part c = p) cs).

(** The node reached from [n] along the parts [parts], each step going to
    the child with that part. *)
Fixpoint node_at (parts : list string) (n : Node) : option Node :=
  match parts with
  | [] => Some n
  | p :: rest => child_with_part p (children n) ≫= node_at rest
  end.

(** The pattern stored at that node; the empty string if there is no such
    node. *)
Definition pattern_at (parts : list string) (n : Node) : string :=
  from_option pattern EmptyString (node_at parts n).

Section Registrations.

Context {HandleFunc : Type}.

(** The pattern of the last registration under [method] whose pattern has
    the parts [parts]; the empty string if there is none. *)
Definition last_pattern (routes : list (string * string * HandleFunc))
    (method : string) (parts : list string) : string :=
  foldl (λ acc route,
           if decide (route.1.1 = method ∧ parsePattern route.1.2 = parts)
           then route.1.2 else acc)
        EmptyString routes.

(** The handler of the last registration whose key is [key]. *)
Definition last_handler (routes : list (string * string * HandleFunc)) (key : string)
  : option HandleFunc :=
  foldl (λ acc route,
           if decide (route.1.1 +:+ "-" +:+ route.1.2 = key) then Some route.2 else acc)
        None routes.

(** Every pattern stored in a trie of [r] has as many parts as its node
    is deep, and its handler is registered under its key. *)
Definition router_inv (r : router (HandleFunc := HandleFunc)) : Prop :=
  ∀ method root d x,
    roots r !! method = Some root →
    at_depth d x root →
    pattern x ≠ EmptyString →
    length (parsePattern (pattern x)) = d ∧
    is_Some (handlers r !! (method +:+ "-" +:+ pattern x)).

(** The tries and the handler table after registering static routes. *)
Definition static_router_inv (routes : list (string * string * HandleFunc))
    (r : router (HandleFunc := HandleFunc)) : Prop :=
  (∀ method,
     match roots r !! method with
     | Some root =>
         static root ∧
         ∀ ps, pattern_at ps root = last_pattern routes method ps
     | None => ∀ ps, last_pattern routes method ps = EmptyString
     end) ∧
  ∀ key, handlers r !! key = last_handler routes key.

End Registrations.

End gee.

(** * Properties *)

(** ** Outcome monad *)

Lemma obind_Ok {A B : Type} (x : outcome A) (f : A → outcome B) (b : B) :
  obind x f = Ok b ↔ ∃ a, x = Ok a ∧ f a = Ok b.
Proof.
  split.
  - destruct x as [a| | |]; simpl; try discriminate. eauto.
  - intros (a & -> & Hf). exact Hf.
Qed.

Lemma ofold_app {A B : Type} (f : A → B → outcome A) (a : A) (l1 l2 : list B) :
  ofold f a (l1 ++ l2) = obind (ofold f a l1) (λ a', ofold f a' l2).
Proof.
  revert a. induction l1 as [|b l1 IH]; intros a; simpl; [done|].
  destruct (f a b); simpl; auto.
Qed.

Lemma ofold_snoc {A B : Type} (f : A → B → outcome A) (a : A) (l : list B) (b : B) :
  ofold f a (l ++ [b]) = obind (ofold f a l) (λ a', f a' b).
Proof.
  rewrite ofold_app. destruct (ofold f a l); simpl; try done.
  destruct (f _ b); done.
Qed.

(** An invariant of a fold is an invariant of its result. *)
Lemma ofold_invariant {A B : Type} (P : A → Prop) (f : A → B → outcome A) :
  (∀ a b a', P a → f a b = Ok a' → P a') →
  ∀ l a a', P a → ofold f a l = Ok a' → P a'.
Proof.
  intros Hstep l. induction l as [|b l IH]; intros a a' Ha; simpl.
  - intros [= <-]. exact Ha.
  - intros (a1 & H1 & H2)%obind_Ok. eapply IH; [|exact H2]. eauto.
Qed.

Ltac inv_Ok :=
  repeat match goal with
  | H : obind _ _ = Ok _ |- _ =>
      apply obind_Ok in H; destruct H as (? & ? & H)
  | H : Ok _ = Ok _ |- _ => injection H as H; try subst
  | H : Panic = Ok _ |- _ => discriminate H
  | H : Blocked = Ok _ |- _ => discriminate H
  | H : Fatal = Ok _ |- _ => discriminate H
  end.

(** ** Reachable configurations *)

Lemma reachable_start files nReduce m :
  MakeMaster files nReduce = Ok m → reachable (mkConfig m []).
Proof.
  intros H. exists files, nReduce, []. unfold start. rewrite H. done.
Qed.

Lemma reachable_step c e c' :
  reachable c → exec c e = Ok c' → reachable c'.
Proof.
  intros (files & n & es & H) He. exists files, n, (es ++ [e]).
  apply obind_Ok in H as (c0 & H0 & Hrun). rewrite H0. simpl.
  unfold run in *. rewrite ofold_snoc, Hrun. exact He.
Qed.

(** Induction over the schedule that leads to a reachable configuration. *)
Lemma reachable_ind (P : Config → Prop) :
  (∀ files nReduce m, MakeMaster files nReduce = Ok m → P (mkConfig m [])) →
  (∀ c e c', reachable c → P c → exec c e = Ok c' → P c') →
  ∀ c, reachable c → P c.
Proof.
  intros Hinit Hstep c (files & n & es & H).
  apply obind_Ok in H as (c0 & H0 & Hrun).
  unfold start in H0. apply obind_Ok in H0 as (m & Hm & [= <-]).
  revert c Hrun. induction es as [|e es IH] using rev_ind; intros c.
  - simpl. intros [= <-]. eauto.
  - unfold run. rewrite ofold_snoc. intros (c1 & H1 & H2)%obind_Ok.
    eapply Hstep; [|apply IH; exact H1|exact H2].
    exists files, n, es. unfold start. rewrite Hm. exact H1.
Qed.


(** ** Task creation *)

Lemma send_Ok t m m' :
  send t m = Ok m' ↔
  Z.of_nat (length (TaskQueue m)) < QueueCap m ∧ m' = set_TaskQueue (TaskQueue m ++ [t]) m.
Proof.
  unfold send. case_bool_decide; split.
  - intros [= <-]. done.
  - intros [_ ->]. done.
  - discriminate.
  - intros [? _]. done.
Qed.

Section Creation.

(** Both creation loops store a fresh record and queue the task; they
    differ in the task they build. *)
Context {X : Type} (mk : Z → nat → X → Task).
Context (body : Master → Z → X → outcome Master).
Context (from : Z → list X → Master → outcome Master).
Hypothesis mk_Id : ∀ n i x, Id (mk n i x) = Z.of_nat i.
Hypothesis body_eq : ∀ m (i : nat) x,
  body m (Z.of_nat i) x =
    obind (send (mk (NReduce m) i x) m)
          (λ m1, Ok (set_TaskMeta (<[Z.of_nat i := record_of (mk (NReduce m) i x)]> (TaskMeta m1)) m1)).
Hypothesis from_nil : ∀ i m, from i [] m = Ok m.
Hypothesis from_cons : ∀ i x xs m,
  from i (x :: xs) m = obind (body m i x) (λ m1, from (i + 1) xs m1).

Lemma creation_from_spec (xs : list X) (k : nat) (m : Master) :
  if bool_decide (length xs = 0%nat ∨
                  Z.of_nat (length (TaskQueue m)) + Z.of_nat (length xs) ≤ QueueCap m)
  then
    from (Z.of_nat k) xs m =
      Ok (mkMaster (TaskQueue m ++ imap (λ i, mk (NReduce m) (k + i)%nat) xs)
                   (QueueCap m)
                   (foldl (λ tm t, <[Id t := record_of t]> tm) (TaskMeta m)
                          (imap (λ i, mk (NReduce m) (k + i)%nat) xs))
                   (Phase m) (NReduce m) (InputFiles m) (MasterInterMediates m))
  else from (Z.of_nat k) xs m = Blocked.
Proof.
  revert k m. induction xs as [|x xs IH]; intros k m.
  - rewrite from_nil. simpl. rewrite app_nil_r. destruct m; done.
  - rewrite from_cons, body_eq. unfold send.
    specialize (IH (S k)
      (set_TaskMeta (<[Z.of_nat k := record_of (mk (NReduce m) k x)]> (TaskMeta m))
         (set_TaskQueue (TaskQueue m ++ [mk (NReduce m) k x]) m))).
    simpl in IH. rewrite length_app in IH. simpl in IH.
    replace (Z.of_nat k + 1) with (Z.of_nat (S k)) by lia.
    destruct (decide (Z.of_nat (length (TaskQueue m)) < QueueCap m)) as [Hlt|Hge].
    + rewrite (bool_decide_true _ Hlt). simpl obind.
      destruct (decide (Z.of_nat (length (TaskQueue m)) + Z.of_nat (length (x :: xs))
                        ≤ QueueCap m)) as [Hroom|Hroom].
      * rewrite bool_decide_true by (right; exact Hroom).
        rewrite bool_decide_true in IH by (right; simpl in Hroom; lia).
        rewrite IH. f_equal. rewrite <- app_assoc. simpl.
        rewrite Nat.add_0_r, mk_Id.
        f_equal; [f_equal; f_equal|f_equal];
          apply imap_ext; intros; simpl; f_equal; lia.
      * rewrite bool_decide_false by (intros [H0|H1]; [simpl in H0; lia|done]).
        rewrite bool_decide_false in IH; [exact IH|].
        intros [H0|H1]; apply Hroom; simpl; [|lia].
        destruct xs; simpl in *; lia.
    + rewrite (bool_decide_false _ Hge). simpl.
      rewrite bool_decide_false; [done|].
      intros [H0|H1]; simpl in *; lia.
Qed.

(** The records stored for tasks with dense ids. *)
Lemma records_lookup (n : Z) (xs : list X) (tm : gmap Z MasterTask) (k : nat) (id : Z) :
  foldl (λ tm t, <[Id t := record_of t]> tm) tm (imap (λ i, mk n (k + i)%nat) xs) !! id =
    if bool_decide (Z.of_nat k ≤ id < Z.of_nat k + Z.of_nat (length xs))
    then record_of <$> imap (λ i, mk n (k + i)%nat) xs !! Z.to_nat (id - Z.of_nat k)
    else tm !! id.
Proof.
  revert tm k. induction xs as [|x xs IH]; intros tm k; simpl.
  - rewrite bool_decide_false by lia. done.
  - rewrite (imap_ext _ (λ i, mk n (S k + i)%nat)) by (intros; simpl; f_equal; lia).
    rewrite IH. rewrite Nat.add_0_r, mk_Id.
    case_bool_decide as H1.
    + rewrite bool_decide_true by lia.
      replace (Z.to_nat (id - Z.of_nat k)) with (S (Z.to_nat (id - Z.of_nat (S k)))) by lia.
      done.
    + case_bool_decide as H2.
      * assert (id = Z.of_nat k) as -> by lia.
        rewrite lookup_insert_eq. replace (Z.to_nat _) with 0%nat by lia. done.
      * rewrite lookup_insert_ne by lia. done.
Qed.

Lemma records_size (n : Z) (xs : list X) (tm : gmap Z MasterTask) (k : nat) :
  (∀ id, Z.of_nat k ≤ id → tm !! id = None) →
  size (foldl (λ tm t, <[Id t := record_of t]> tm) tm (imap (λ i, mk n (k + i)%nat) xs))
    = (size tm + length xs)%nat.
Proof.
  revert tm k. induction xs as [|x xs IH]; intros tm k Hfree; simpl; [lia|].
  rewrite (imap_ext _ (λ i, mk n (S k + i)%nat)) by (intros; simpl; f_equal; lia).
  rewrite IH.
  - rewrite Nat.add_0_r, mk_Id, map_size_insert_None by (apply Hfree; lia). lia.
  - intros id Hid. rewrite Nat.add_0_r, mk_Id, lookup_insert_ne by lia.
    apply Hfree. lia.
Qed.

Lemma tasks_dense (n : Z) (xs : list X) (k : nat) :
  Id <$> imap (λ i, mk n (k + i)%nat) xs = seqZ (Z.of_nat k) (Z.of_nat (length xs)).
Proof.
  revert k. induction xs as [|x xs IH]; intros k; [done|].
  rewrite imap_cons, fmap_cons.
  rewrite (imap_ext _ (λ i, mk n (S k + i)%nat)) by (intros; simpl; f_equal; lia).
  rewrite IH, Nat.add_0_r, mk_Id. simpl length. rewrite Nat2Z.inj_succ.
  rewrite (seqZ_cons (Z.of_nat k)) by lia. f_equal. f_equal; lia.
Qed.

Lemma created_task_set (n : Z) (xs : list X) :
  task_set (imap (mk n) xs)
           (foldl (λ tm t, <[Id t := record_of t]> tm) ∅ (imap (mk n) xs)).
Proof.
  unfold task_set. rewrite length_imap.
  pose proof (tasks_dense n xs 0) as Hd.
  pose proof (records_size n xs ∅ 0) as Hs.
  pose proof (records_lookup n xs ∅ 0) as Hl.
  simpl in Hd, Hs, Hl.
  change (λ i : nat, mk n i) with (mk n) in Hd, Hs, Hl.
  split; [exact Hd|]. split.
  - rewrite Hs; [rewrite map_size_empty; lia|]. intros. apply lookup_empty.
  - intros id. rewrite Hl. change (Z.of_nat 0) with 0. rewrite Z.sub_0_r, Z.add_0_l.
    case_bool_decide; [done|]. apply lookup_empty.
Qed.

End Creation.


Lemma createMapTask_from_spec (files : list string) (m : Master) :
  createMapTask_from 0 files m =
    if bool_decide (length files = 0%nat ∨
                    Z.of_nat (length (TaskQueue m)) + Z.of_nat (length files) ≤ QueueCap m)
    then Ok (mkMaster (TaskQueue m ++ imap (map_task (NReduce m)) files)
                      (QueueCap m)
                      (foldl (λ tm t, <[Id t := record_of t]> tm) (TaskMeta m)
                             (imap (map_task (NReduce m)) files))
                      (Phase m) (NReduce m) (InputFiles m) (MasterInterMediates m))
    else Blocked.
Proof.
  pose proof (creation_from_spec map_task createMapTask_body createMapTask_from
           (λ _ _ _, eq_refl) (λ _ _ _, eq_refl) (λ _ _, eq_refl) (λ _ _ _ _, eq_refl)
           files 0 m) as H.
  simpl in H. destruct (bool_decide _); exact H.
Qed.

Lemma createReduceTask_from_spec (buckets : list (list string)) (m : Master) :
  createReduceTask_from 0 buckets m =
    if bool_decide (length buckets = 0%nat ∨
                    Z.of_nat (length (TaskQueue m)) + Z.of_nat (length buckets) ≤ QueueCap m)
    then Ok (mkMaster (TaskQueue m ++ imap (reduce_task (NReduce m)) buckets)
                      (QueueCap m)
                      (foldl (λ tm t, <[Id t := record_of t]> tm) (TaskMeta m)
                             (imap (reduce_task (NReduce m)) buckets))
                      (Phase m) (NReduce m) (InputFiles m) (MasterInterMediates m))
    else Blocked.
Proof.
  pose proof (creation_from_spec reduce_task createReduceTask_body createReduceTask_from
           (λ _ _ _, eq_refl) (λ _ _ _, eq_refl) (λ _ _, eq_refl) (λ _ _ _ _, eq_refl)
           buckets 0 m) as H.
  simpl in H. destruct (bool_decide _); exact H.
Qed.

(** [createReduceTask] either blocks on the full channel or replaces the
    record map by the records of one Reduce task per bucket, queued behind
    whatever the channel still holds. *)
Lemma createReduceTask_spec (m : Master) :
  createReduceTask m =
    if bool_decide (length (MasterInterMediates m) = 0%nat ∨
                    Z.of_nat (length (TaskQueue m)) + Z.of_nat (length (MasterInterMediates m))
                    ≤ QueueCap m)
    then Ok (mkMaster (TaskQueue m ++ imap (reduce_task (NReduce m)) (MasterInterMediates m))
                      (QueueCap m)
                      (foldl (λ tm t, <[Id t := record_of t]> tm) ∅
                             (imap (reduce_task (NReduce m)) (MasterInterMediates m)))
                      (Phase m) (NReduce m) (InputFiles m) (MasterInterMediates m))
    else Blocked.
Proof. unfold createReduceTask. rewrite createReduceTask_from_spec. done. Qed.

Lemma max_ge_r (a b : Z) : b ≤ max a b.
Proof. unfold max. case_bool_decide; lia. Qed.

Lemma MakeMaster_spec (files : list string) (nReduce : Z) :
  MakeMaster files nReduce =
    if bool_decide (nReduce < 0) then Panic
    else Ok (mkMaster (imap (map_task nReduce) files)
                      (max nReduce (Z.of_nat (length files)))
                      (foldl (λ tm t, <[Id t := record_of t]> tm) ∅
                             (imap (map_task nReduce) files))
                      Map nReduce files (replicate (Z.to_nat nReduce) [])).
Proof.
  unfold MakeMaster. case_bool_decide; [done|].
  unfold createMapTask. rewrite createMapTask_from_spec. simpl.
  rewrite bool_decide_true; [done|].
  right. pose proof (max_ge_r nReduce (Z.of_nat (length files))). lia.
Qed.

(** ** Invariants of reachable configurations *)

Lemma collect_from_length paths k im im' :
  collect_from k paths im = Ok im' → length im' = length im.
Proof.
  revert k im. induction paths as [|p paths IH]; intros k im; simpl.
  - intros [= <-]. done.
  - intros (im1 & H1 & H2)%obind_Ok. apply IH in H2. rewrite H2.
    unfold collect_body in H1. destruct (im !! k); inv_Ok.
    apply length_insert.
Qed.

Lemma AssignTask_frame now m m' t :
  AssignTask now m = Ok (m', t) →
  QueueCap m' = QueueCap m ∧ Phase m' = Phase m ∧ NReduce m' = NReduce m ∧
  InputFiles m' = InputFiles m ∧ MasterInterMediates m' = MasterInterMediates m ∧
  (length (TaskQueue m') ≤ length (TaskQueue m))%nat.
Proof.
  unfold AssignTask. destruct (TaskQueue m) as [|t0 q] eqn:Hq.
  - case_bool_decide; intros [= <- <-]; rewrite Hq; done.
  - destruct (TaskMeta m !! Id t0); [|done]. intros [= <- <-]. simpl. repeat split; lia.
Qed.

Lemma TaskCompleted_frame task m m' g :
  TaskCompleted task m = Ok (m', g) →
  TaskQueue m' = TaskQueue m ∧ QueueCap m' = QueueCap m ∧ Phase m' = Phase m ∧
  NReduce m' = NReduce m ∧ InputFiles m' = InputFiles m ∧
  MasterInterMediates m' = MasterInterMediates m.
Proof.
  unfold TaskCompleted. case_bool_decide; [intros [= <- <-]; done|].
  destruct (TaskMeta m !! Id task); [|done].
  case_bool_decide; intros [= <- <-]; done.
Qed.

Lemma catchTimeOut_body_frame now m id m' :
  catchTimeOut_body now m id = Ok m' →
  QueueCap m' = QueueCap m ∧ Phase m' = Phase m ∧ NReduce m' = NReduce m ∧
  InputFiles m' = InputFiles m ∧ MasterInterMediates m' = MasterInterMediates m ∧
  (Z.of_nat (length (TaskQueue m)) ≤ QueueCap m →
   Z.of_nat (length (TaskQueue m')) ≤ QueueCap m').
Proof.
  unfold catchTimeOut_body. destruct (TaskMeta m !! id) as [t|]; [|intros [= <-]; done].
  destruct (_ && _); [|intros [= <-]; done].
  intros (m1 & [Hlt ->]%send_Ok & [= <-])%obind_Ok. simpl.
  repeat split. rewrite length_app. simpl. lia.
Qed.

Lemma catchTimeOut_wf now order m m' :
  master_wf m → catchTimeOut now order m = Ok m' → master_wf m'.
Proof.
  unfold catchTimeOut. case_bool_decide; [intros ? [= <-]; done|].
  apply ofold_invariant. clear. intros m id m' (H0 & H1 & H2) Hb.
  apply catchTimeOut_body_frame in Hb as (Hc & _ & Hn & _ & Him & Hq).
  unfold master_wf. rewrite Hn, Him. auto.
Qed.

Lemma processTaskResult_wf task m m' :
  master_wf m → processTaskResult task m = Ok m' → master_wf m'.
Proof.
  intros (H0 & H1 & H2). unfold processTaskResult.
  destruct (TaskState task).
  - intros (im & Him%collect_from_length & Hrest)%obind_Ok.
    destruct (allTaskDone _).
    + apply obind_Ok in Hrest as (m2 & Hm2 & [= <-]).
      rewrite createReduceTask_spec in Hm2. simpl in Hm2.
      case_bool_decide as Hroom; [|done]. injection Hm2 as <-.
      unfold master_wf. simpl. rewrite length_app, length_imap.
      repeat split; [done|congruence|].
      destruct Hroom as [Hz|Hroom]; lia.
    + injection Hrest as <-. unfold master_wf. simpl. repeat split; [done|congruence|done].
  - destruct (allTaskDone m); intros [= <-]; done.
  - intros [= <-]. done.
  - intros [= <-]. done.
Qed.

Lemma MakeMaster_wf files nReduce m :
  MakeMaster files nReduce = Ok m → master_wf m.
Proof.
  rewrite MakeMaster_spec. case_bool_decide; [done|]. intros [= <-].
  unfold master_wf. simpl. rewrite length_replicate, length_imap.
  split; [lia|]. split; [done|]. apply max_ge_r.
Qed.

Lemma exec_wf c e c' :
  master_wf (master c) → exec c e = Ok c' → master_wf (master c').
Proof.
  intros Hwf. destruct e as [now|task|i|now order]; simpl.
  - intros ([m' t] & Ha & [= <-])%obind_Ok. simpl.
    apply AssignTask_frame in Ha as (Hc & _ & Hn & _ & Him & Hq).
    destruct Hwf as (H0 & H1 & H2). unfold master_wf. rewrite Hc, Hn, Him.
    repeat split; [done|done|lia].
  - intros ([m' g] & Ht & [= <-])%obind_Ok. simpl.
    apply TaskCompleted_frame in Ht as (Hq & Hc & _ & Hn & _ & Him).
    unfold master_wf. rewrite Hq, Hc, Hn, Him. exact Hwf.
  - destruct (goroutines c !! i); [|intros [= <-]; done].
    intros (m' & Hp & [= <-])%obind_Ok. simpl. eapply processTaskResult_wf; eauto.
  - case_bool_decide; [|intros [= <-]; done].
    intros (m' & Hp & [= <-])%obind_Ok. simpl. eapply catchTimeOut_wf; eauto.
Qed.

Lemma reachable_wf c : reachable c → master_wf (master c).
Proof.
  induction 1 as [files n m Hm|c e c' _ IH He] using reachable_ind.
  - simpl. eapply MakeMaster_wf; eauto.
  - eapply exec_wf; eauto.
Qed.


(** ** Task sets (C7) *)

Lemma exec_NReduce c e c' :
  exec c e = Ok c' → NReduce (master c') = NReduce (master c).
Proof.
  destruct e as [now|task|i|now order]; simpl.
  - intros ([m' t] & Ha & [= <-])%obind_Ok.
    apply AssignTask_frame in Ha. simpl. tauto.
  - intros ([m' g] & Ht & [= <-])%obind_Ok.
    apply TaskCompleted_frame in Ht. simpl. tauto.
  - destruct (goroutines c !! i) as [task|]; [|intros [= <-]; done].
    intros (m' & Hp & [= <-])%obind_Ok. simpl.
    unfold processTaskResult in Hp. destruct (TaskState task).
    + apply obind_Ok in Hp as (im & _ & Hrest).
      destruct (allTaskDone _).
      * apply obind_Ok in Hrest as (m2 & Hm2 & [= <-]).
        rewrite createReduceTask_spec in Hm2.
        destruct (bool_decide _); [|done]. injection Hm2 as <-. done.
      * injection Hrest as <-. done.
    + destruct (allTaskDone _); injection Hp as <-; done.
    + injection Hp as <-; done.
    + injection Hp as <-; done.
  - case_bool_decide; [|intros [= <-]; done].
    intros (m' & Hp & [= <-])%obind_Ok. simpl.
    unfold catchTimeOut in Hp. case_bool_decide; [injection Hp as <-; done|].
    revert Hp. apply (ofold_invariant (λ m1, NReduce m1 = NReduce (master c))); [|done].
    intros m1 id m2 Hm1 Hb. apply catchTimeOut_body_frame in Hb.
    destruct Hb as (_ & _ & -> & _). exact Hm1.
Qed.

Lemma run_invariant (P : Config → Prop) :
  (∀ c e c', P c → exec c e = Ok c' → P c') →
  ∀ es c c', P c → run c es = Ok c' → P c'.
Proof. intros Hstep es c c'. apply ofold_invariant. exact Hstep. Qed.

(** C7: construction with N input files and reducer count R yields exactly
    the N Map tasks with ids 0..N-1, queued in order, with exactly one
    record per id; and when a Map result completes the Map phase, the
    record map holds exactly one record for each of R Reduce tasks with
    ids 0..R-1, which are queued. *)
Theorem task_sets_dense (files : list string) (nReduce : Z) :
  0 ≤ nReduce →
  ∃ m, MakeMaster files nReduce = Ok m ∧
       Phase m = Map ∧
       TaskQueue m = imap (map_task nReduce) files ∧
       length (TaskQueue m) = length files ∧
       task_set (TaskQueue m) (TaskMeta m) ∧
       ∀ es c task m',
         run (mkConfig m []) es = Ok c →
         processTaskResult task (master c) = Ok m' →
         Phase (master c) = Map → Phase m' = Reduce →
         ∃ tasks,
           tasks = imap (reduce_task nReduce) (MasterInterMediates m') ∧
           length tasks = Z.to_nat nReduce ∧
           TaskQueue m' = TaskQueue (master c) ++ tasks ∧
           task_set tasks (TaskMeta m').
Proof.
  intros HR. pose proof (MakeMaster_spec files nReduce) as Hm.
  rewrite bool_decide_false in Hm by lia.
  eexists. split; [exact Hm|]. simpl.
  split; [done|]. split; [done|]. split; [apply length_imap|].
  split; [apply (created_task_set map_task); done|].
  intros es c task m' Hrun Hp Hmap Hred.
  assert (master_wf (master c) ∧ NReduce (master c) = nReduce) as [Hwf Hn].
  { revert Hrun. apply (run_invariant (λ c, master_wf (master c) ∧ NReduce (master c) = nReduce)).
    - intros c1 e c2 [Hwf1 Hn1] He. split; [eapply exec_wf; eauto|].
      rewrite (exec_NReduce _ _ _ He). exact Hn1.
    - simpl. split; [|done]. eapply MakeMaster_wf. exact Hm. }
  pose proof (processTaskResult_wf _ _ _ Hwf Hp) as (_ & Hlen & _).
  unfold processTaskResult in Hp. destruct (TaskState task).
  - apply obind_Ok in Hp as (im & Him & Hrest).
    destruct (allTaskDone _).
    + apply obind_Ok in Hrest as (m2 & Hm2 & [= <-]).
      rewrite createReduceTask_spec in Hm2.
      destruct (bool_decide _); [|done]. injection Hm2 as <-.
      simpl in *. rewrite Hn in *.
      eexists. split; [done|]. rewrite length_imap. split; [done|].
      split; [done|]. apply (created_task_set reduce_task). done.
    + injection Hrest as <-. simpl in Hred. congruence.
  - destruct (allTaskDone _); injection Hp as <-; simpl in Hred; congruence.
  - injection Hp as <-. congruence.
  - injection Hp as <-. congruence.
Qed.

(** Two input files and one reducer: the job of [stale_queue_schedule], up
    to the goroutine that completes the Map phase. *)
Lemma task_sets_dense_witness :
  ∃ m, MakeMaster ["a"; "b"] 1 = Ok m ∧
       Id <$> TaskQueue m = [0; 1] ∧
       task_set (TaskQueue m) (TaskMeta m) ∧
       ∃ c m' tasks,
         run (mkConfig m []) (take 6 stale_queue_schedule) = Ok c ∧
         processTaskResult report_M1 (master c) = Ok m' ∧
         Id <$> tasks = [0] ∧
         task_set tasks (TaskMeta m').
Proof.
  destruct (task_sets_dense ["a"; "b"] 1 ltac:(lia))
    as (m & Hm & Hphase & Hq & Hlen & Hset & Htrans).
  exists m. split; [exact Hm|]. split; [rewrite Hq; reflexivity|].
  split; [exact Hset|].
  rewrite MakeMaster_spec in Hm. injection Hm as <-.
  destruct (run _ (take 6 stale_queue_schedule)) as [c| | |] eqn:Hrun;
    [|vm_compute in Hrun; discriminate Hrun ..].
  pose proof Hrun as Hc. vm_compute in Hc. injection Hc as Hc.
  destruct (processTaskResult report_M1 (master c)) as [m'| | |] eqn:Hp;
    [|rewrite <- Hc in Hp; vm_compute in Hp; discriminate Hp ..].
  pose proof Hp as Hm'. rewrite <- Hc in Hm'. vm_compute in Hm'. injection Hm' as Hm'.
  destruct (Htrans _ _ _ _ Hrun Hp) as (tasks & Htasks & Hl & Hqueue & Hts).
  { rewrite <- Hc. reflexivity. }
  { rewrite <- Hm'. reflexivity. }
  exists c, m', tasks. split; [reflexivity|]. split; [exact Hp|].
  split; [rewrite Htasks, <- Hm'; reflexivity|exact Hts].
Defined.


(** ** Stale and duplicate reports (C1) *)

(** C1: a [TaskCompleted] call whose phase tag differs from the current
    phase, or whose record is already Completed, changes nothing: the
    records, the queue, the phase and the intermediate matrix stay as they
    are, and no [processTaskResult] goroutine is started, so the reported
    file paths are never appended. *)
Theorem TaskCompleted_stale_or_duplicate_noop (m : Master) (task : Task) :
  (TaskState task ≠ Phase m ∨
   ∃ r, TaskMeta m !! Id task = Some r ∧ TaskStatus r = Completed) →
  TaskCompleted task m = Ok (m, None) ∧
  ∀ gs, exec (mkConfig m gs) (EvTaskCompleted task) = Ok (mkConfig m gs).
Proof.
  intros Hguard.
  assert (TaskCompleted task m = Ok (m, None)) as Heq.
  { unfold TaskCompleted. case_bool_decide as Hphase; [done|].
    destruct Hguard as [Hne|(r & Hr & Hdone)]; [done|].
    rewrite Hr. rewrite bool_decide_true by done. done. }
  split; [exact Heq|].
  intros gs. simpl. rewrite Heq. simpl. rewrite app_nil_r. done.
Qed.

(** After [stale_queue_schedule] the job is in the Reduce phase; the late
    report of Map task 0 is stale, and so changes nothing. *)
Lemma TaskCompleted_stale_or_duplicate_noop_witness :
  ∃ c, (c0 ←o start ["a"; "b"] 1; run c0 stale_queue_schedule) = Ok c ∧
       exec c (EvTaskCompleted report_M0) = Ok c.
Proof.
  destruct (c0 ←o start ["a"; "b"] 1; run c0 stale_queue_schedule)
    as [c| | |] eqn:Hrun; [|vm_compute in Hrun; discriminate Hrun ..].
  exists c. split; [reflexivity|].
  pose proof Hrun as Hc. vm_compute in Hc. injection Hc as Hc.
  destruct c as [m gs].
  apply (TaskCompleted_stale_or_duplicate_noop m report_M0).
  left. injection Hc as Hm _. rewrite <- Hm. discriminate.
Defined.

(** ** Handing out tasks (C3, C9) *)

(** C9 (violated by the code): after the Map-to-Reduce transition has
    replaced the record map, a reclaimed Map task can still sit in the
    queue; its id has no record, and [AssignTask] dereferences nil. *)
Theorem AssignTask_stale_task_panics :
  ∃ c t q,
    reachable c ∧
    Phase (master c) = Reduce ∧
    TaskQueue (master c) = t :: q ∧
    TaskState t = Map ∧
    TaskMeta (master c) !! Id t = None ∧
    AssignTask (12 * Second) (master c) = Panic.
Proof.
  destruct (c0 ←o start ["a"; "b"] 1; run c0 stale_queue_schedule)
    as [c| | |] eqn:Hrun; [|vm_compute in Hrun; discriminate Hrun ..].
  pose proof Hrun as Hc. vm_compute in Hc. injection Hc as Hc.
  exists c, (map_task 1 1 "b"), [reduce_task 1 0 ["/d/mr-0-0"; "/d/mr-1-0"]].
  split; [exists ["a"; "b"], 1, stale_queue_schedule; exact Hrun|].
  rewrite <- Hc. vm_compute. repeat (split; [reflexivity|]). reflexivity.
Qed.

(** The body of [AssignTask], run by a call that has got the mutex: it has
    no channel send and no [log.Fatal], and it is a three-way case split.
    With an empty queue it returns the Exit sentinel in phase Exit and the
    Wait sentinel otherwise, and leaves the state as it is.  With a
    non-empty queue whose head task has a record under its id, that task
    is popped and returned, the record becomes InProgress with the present
    time as start time, and nothing else changes.  A head task without a
    record, and a call that waits for a mutex which is never released,
    are the subject of [AssignTask_not_three_way]. *)
Lemma AssignTask_three_way (now : Z) (m : Master) :
  AssignTask now m ≠ Blocked ∧
  AssignTask now m ≠ Fatal ∧
  match TaskQueue m with
  | t :: q =>
      ∀ r, TaskMeta m !! Id t = Some r →
        ∃ m',
          AssignTask now m = Ok (m', t) ∧
          TaskQueue m' = q ∧
          TaskMeta m' !! Id t = Some (mkMasterTask InProgress now (TaskPtr r)) ∧
          (∀ id, id ≠ Id t → TaskMeta m' !! id = TaskMeta m !! id) ∧
          QueueCap m' = QueueCap m ∧
          Phase m' = Phase m ∧
          MasterInterMediates m' = MasterInterMediates m
  | [] =>
      (Phase m = Exit → AssignTask now m = Ok (m, sentinel Exit)) ∧
      (Phase m ≠ Exit → AssignTask now m = Ok (m, sentinel Wait))
  end.
Proof.
  unfold AssignTask. destruct (TaskQueue m) as [|t q] eqn:Hq.
  - split; [case_bool_decide; done|]. split; [case_bool_decide; done|].
    split; intros Hp.
    + rewrite bool_decide_true by done. done.
    + rewrite bool_decide_false by done. done.
  - split; [destruct (TaskMeta m !! Id t); done|].
    split; [destruct (TaskMeta m !! Id t); done|].
    intros r Hr. rewrite Hr.
    eexists. split; [reflexivity|]. simpl.
    split; [done|]. split; [apply lookup_insert_eq|].
    split; [|done]. intros id Hid. apply lookup_insert_ne. done.
Qed.

(** A fresh job with two input files: the first Map task is handed out. *)
Lemma AssignTask_three_way_witness :
  ∃ m m', MakeMaster ["a"; "b"] 1 = Ok m ∧
          AssignTask 5 m = Ok (m', map_task 1 0 "a") ∧
          TaskMeta m' !! 0 = Some (mkMasterTask InProgress 5 (map_task 1 0 "a")) ∧
          TaskQueue m' = [map_task 1 1 "b"].
Proof.
  eexists. pose proof (AssignTask_three_way 5
    (mkMaster (imap (map_task 1) ["a"; "b"]) 2
       (<[1 := record_of (map_task 1 1 "b")]> (<[0 := record_of (map_task 1 0 "a")]> ∅))
       Map 1 ["a"; "b"] [[]])) as (_ & _ & H).
  simpl in H. destruct (H (record_of (map_task 1 0 "a"))) as (m' & Ha & Hq & Hrec & _).
  { rewrite lookup_insert_ne by done. apply lookup_insert_eq. }
  exists m'. split; [vm_compute; reflexivity|]. split; [exact Ha|].
  split; [exact Hrec|exact Hq].
Defined.

(** C3 (violated by the code): [AssignTask] does not, for every
    coordinator state, return with one of the three results.  First, a
    job with two input files reaches a state whose queue is non-empty
    while the head task has no record: at whatever time the call is
    served, it pops the task and dereferences nil, so it neither marks a
    record nor returns the task.  Second, the same job with two reducers
    reaches a state in which the pending [processTaskResult] goroutine,
    holding the mutex, blocks on the full channel; the mutex is never
    released, so an [AssignTask] call served after it never returns. *)
Theorem AssignTask_not_three_way :
  (∃ c t q,
     reachable c ∧
     TaskQueue (master c) = t :: q ∧
     ∀ now, AssignTask now (master c) = Panic ∧
            ¬ AssignTask_as_specified now (master c)) ∧
  (∃ c g,
     reachable c ∧
     goroutines c = [g] ∧
     processTaskResult g (master c) = Blocked ∧
     ∀ now, run c [EvProcessTaskResult 0; EvAssignTask now] = Blocked).
Proof.
  split.
  - destruct (c0 ←o start ["a"; "b"] 1; run c0 stale_queue_schedule)
      as [c| | |] eqn:Hrun; [|vm_compute in Hrun; discriminate Hrun ..].
    pose proof Hrun as Hc. vm_compute in Hc. injection Hc as Hc.
    exists c, (map_task 1 1 "b"), [reduce_task 1 0 ["/d/mr-0-0"; "/d/mr-1-0"]].
    split; [exists ["a"; "b"], 1, stale_queue_schedule; exact Hrun|].
    split; [rewrite <- Hc; vm_compute; reflexivity|].
    intros now.
    assert (AssignTask now (master c) = Panic) as Hpanic.
    { rewrite <- Hc. unfold AssignTask. simpl TaskQueue. cbv iota.
      simpl TaskMeta. simpl Id. vm_compute. reflexivity. }
    split; [exact Hpanic|].
    unfold AssignTask_as_specified. rewrite Hpanic.
    rewrite <- Hc. simpl TaskQueue. cbv iota.
    intros (m' & r & Ha & _). discriminate Ha.
  - destruct (c0 ←o start ["a"; "b"] 2; run c0 full_channel_schedule)
      as [c| | |] eqn:Hrun; [|vm_compute in Hrun; discriminate Hrun ..].
    pose proof Hrun as Hc. vm_compute in Hc. injection Hc as Hc.
    exists c, (mkTask 1 "b" "" Map 2 ["/d/mr-1-0"; "/d/mr-1-1"]).
    split; [exists ["a"; "b"], 2, full_channel_schedule; exact Hrun|].
    split; [rewrite <- Hc; vm_compute; reflexivity|].
    assert (processTaskResult (mkTask 1 "b" "" Map 2 ["/d/mr-1-0"; "/d/mr-1-1"]) (master c)
            = Blocked) as Hblocked by (rewrite <- Hc; vm_compute; reflexivity).
    split; [exact Hblocked|].
    intros now. unfold run. simpl ofold.
    assert (goroutines c !! 0%nat = Some (mkTask 1 "b" "" Map 2 ["/d/mr-1-0"; "/d/mr-1-1"]))
      as -> by (rewrite <- Hc; vm_compute; reflexivity).
    rewrite Hblocked. reflexivity.
Qed.


(** ** Phase transitions (C2) *)

(** The phase changes only in a [processTaskResult] goroutine, and only
    when every record of the record map is Completed. *)
Lemma phase_change_all_completed c e c' :
  exec c e = Ok c' →
  Phase (master c') ≠ Phase (master c) →
  ∃ i task, e = EvProcessTaskResult i ∧ goroutines c !! i = Some task ∧
            map_Forall (λ _ r, TaskStatus r = Completed) (TaskMeta (master c)) ∧
            ((TaskState task = Map ∧ Phase (master c') = Reduce) ∨
             (TaskState task = Reduce ∧ Phase (master c') = Exit)).
Proof.
  destruct e as [now|task|i|now order]; simpl.
  - intros ([m' t] & Ha & [= <-])%obind_Ok. simpl.
    apply AssignTask_frame in Ha. intros []. tauto.
  - intros ([m' g] & Ht & [= <-])%obind_Ok. simpl.
    apply TaskCompleted_frame in Ht. intros []. tauto.
  - destruct (goroutines c !! i) as [task|] eqn:Hg; [|intros [= <-] []; done].
    intros (m' & Hp & [= <-])%obind_Ok. simpl. intros Hne.
    exists i, task. split; [done|]. split; [done|].
    unfold processTaskResult in Hp. destruct (TaskState task).
    + apply obind_Ok in Hp as (im & _ & Hrest).
      destruct (allTaskDone _) eqn:Hall.
      * apply obind_Ok in Hrest as (m2 & Hm2 & [= <-]).
        split; [|left; done].
        unfold allTaskDone in Hall. apply bool_decide_eq_true in Hall. exact Hall.
      * injection Hrest as <-. done.
    + destruct (allTaskDone _) eqn:Hall; injection Hp as <-; [|done].
      split; [|right; done].
      unfold allTaskDone in Hall. apply bool_decide_eq_true in Hall. exact Hall.
    + injection Hp as <-. done.
    + injection Hp as <-. done.
  - case_bool_decide; [|intros [= <-] []; done].
    intros (m' & Hp & [= <-])%obind_Ok. simpl. intros Hne. exfalso. apply Hne.
    unfold catchTimeOut in Hp. case_bool_decide; [injection Hp as <-; done|].
    revert Hp. apply (ofold_invariant (λ m1, Phase m1 = Phase (master c))); [|done].
    intros m1 id m2 Hm1 Hb. apply catchTimeOut_body_frame in Hb.
    destruct Hb as (_ & -> & _). exact Hm1.
Qed.

(** C2 (violated by the code): with both Map tasks reported before
    either result is processed, the goroutine of task 0 sees every record
    Completed and moves to Reduce with a Reduce task that lacks the file of
    Map task 1; the job then reaches Exit, and the goroutine of task 1,
    run last, creates the Reduce tasks a second time and moves the phase
    from Exit back to Reduce. *)
Theorem phase_transition_not_once :
  ∃ c1 c2 c3,
    (c0 ←o start ["a"; "b"] 1; run c0 early_transition_schedule) = Ok c1 ∧
    Phase (master c1) = Reduce ∧
    TaskQueue (master c1) = [reduce_task 1 0 ["/d/mr-0-0"]] ∧
    goroutines c1 = [report_M1] ∧
    (c0 ←o start ["a"; "b"] 1; run c0 late_goroutine_schedule) = Ok c2 ∧
    Phase (master c2) = Exit ∧
    Done (master c2) = true ∧
    exec c2 (EvProcessTaskResult 0) = Ok c3 ∧
    Phase (master c3) = Reduce ∧
    Done (master c3) = false ∧
    TaskQueue (master c3) = [reduce_task 1 0 ["/d/mr-0-0"; "/d/mr-1-0"]].
Proof.
  destruct (c0 ←o start ["a"; "b"] 1; run c0 early_transition_schedule)
    as [c1| | |] eqn:H1; [|vm_compute in H1; discriminate H1 ..].
  destruct (c0 ←o start ["a"; "b"] 1; run c0 late_goroutine_schedule)
    as [c2| | |] eqn:H2; [|vm_compute in H2; discriminate H2 ..].
  vm_compute in H1. injection H1 as H1.
  vm_compute in H2. injection H2 as H2.
  destruct (exec c2 (EvProcessTaskResult 0)) as [c3| | |] eqn:H3;
    [|rewrite <- H2 in H3; vm_compute in H3; discriminate H3 ..].
  rewrite <- H2 in H3. vm_compute in H3. injection H3 as H3.
  exists c1, c2, c3. rewrite <- H1, <- H2, <- H3.
  vm_compute. repeat (split; [reflexivity|]). reflexivity.
Qed.


(** ** Record lifecycle (C4) *)

(** What one round of the sweep does to the queue and to each record. *)
Lemma sweep_records now order m m' :
  ofold (catchTimeOut_body now) m order = Ok m' →
  ∃ pushed,
    TaskQueue m' = TaskQueue m ++ pushed ∧
    ∀ id,
      match TaskMeta m !! id with
      | None => TaskMeta m' !! id = None
      | Some r =>
          TaskMeta m' !! id = Some r ∨
          (TaskStatus r = InProgress ∧ 10 * Second < now - StartTime r ∧
           TaskMeta m' !! id = Some (set_TaskStatus Idle r) ∧
           TaskPtr r ∈ pushed)
      end.
Proof.
  revert m. induction order as [|id0 order IH]; intros m; simpl.
  - intros [= <-]. exists []. rewrite app_nil_r. split; [done|].
    intros id. destruct (TaskMeta m !! id); auto.
  - intros (m1 & Hb & Hrest)%obind_Ok.
    destruct (IH _ Hrest) as (pushed & Hq & Hrec). clear IH Hrest.
    unfold catchTimeOut_body in Hb.
    destruct (TaskMeta m !! id0) as [t|] eqn:Ht; [|injection Hb as <-; eauto].
    destruct (bool_decide (TaskStatus t = InProgress)) eqn:Hs;
      [|injection Hb as <-; eauto].
    destruct (bool_decide (10 * Second < now - StartTime t)) eqn:Hage;
      [|injection Hb as <-; eauto].
    simpl in Hb. apply obind_Ok in Hb as (m2 & [_ ->]%send_Ok & [= <-]).
    apply bool_decide_eq_true in Hs, Hage.
    simpl in Hq, Hrec. exists (TaskPtr t :: pushed).
    split; [rewrite Hq, <- app_assoc; done|].
    intros id. specialize (Hrec id).
    destruct (decide (id = id0)) as [->|Hne].
    + rewrite lookup_insert_eq in Hrec. rewrite Ht. right.
      destruct Hrec as [Hrec|(Hbad & _)]; [|discriminate Hbad].
      repeat split; [done|done|done|]. apply list_elem_of_here.
    + rewrite lookup_insert_ne in Hrec by done.
      destruct (TaskMeta m !! id) as [r|]; [|done].
      destruct Hrec as [Hrec|(? & ? & ? & ?)]; [left; done|right].
      repeat split; [done|done|done|]. apply list_elem_of_further. done.
Qed.

(** A round of the sweep that visits [id] reclaims its record if it is
    InProgress and older than ten seconds. *)
Lemma sweep_reclaims now order m m' id r :
  catchTimeOut now order m = Ok m' →
  Phase m ≠ Exit →
  id ∈ order →
  TaskMeta m !! id = Some r →
  TaskStatus r = InProgress →
  10 * Second < now - StartTime r →
  TaskMeta m' !! id = Some (set_TaskStatus Idle r) ∧ TaskPtr r ∈ TaskQueue m'.
Proof.
  unfold catchTimeOut. intros Hs Hphase Hin Hr Hst Hage.
  rewrite bool_decide_false in Hs by done.
  apply list_elem_of_split in Hin as (l1 & l2 & ->).
  rewrite ofold_app in Hs. apply obind_Ok in Hs as (m1 & H1 & Hs).
  simpl in Hs. apply obind_Ok in Hs as (m2 & Hb & H2).
  apply sweep_records in H1 as (pushed1 & Hq1 & Hrec1).
  apply sweep_records in H2 as (pushed2 & Hq2 & Hrec2).
  specialize (Hrec1 id). rewrite Hr in Hrec1. specialize (Hrec2 id).
  assert (TaskMeta m2 !! id = Some (set_TaskStatus Idle r) ∧ TaskPtr r ∈ TaskQueue m2)
    as [Hm2 Hin2].
  { unfold catchTimeOut_body in Hb.
    destruct Hrec1 as [Hsame|(_ & _ & Hnew & Hin1)].
    - rewrite Hsame in Hb.
      rewrite !bool_decide_true in Hb by done. simpl in Hb.
      apply obind_Ok in Hb as (m1' & [_ ->]%send_Ok & [= <-]). simpl.
      split; [apply lookup_insert_eq|]. apply elem_of_app. right. apply list_elem_of_here.
    - rewrite Hnew in Hb. simpl in Hb. injection Hb as <-. split; [exact Hnew|].
      rewrite Hq1. apply elem_of_app. right. exact Hin1. }
  rewrite Hm2 in Hrec2. split.
  - destruct Hrec2 as [Hsame|(Hbad & _)]; [exact Hsame|discriminate Hbad].
  - rewrite Hq2. apply elem_of_app. left. exact Hin2.
Qed.

(** A reclaimed record (Idle, its task back in the queue) is moved
    straight to Completed by the report of its first worker. *)
Lemma lifecycle_as_specified_fails :
  ∃ c c' r r',
    reachable c ∧
    exec c (EvTaskCompleted report_M0) = Ok c' ∧
    TaskMeta (master c) !! 0 = Some r ∧
    TaskMeta (master c') !! 0 = Some r' ∧
    TaskStatus r = Idle ∧ TaskStatus r' = Completed ∧
    ¬ spec_lifecycle_move (EvTaskCompleted report_M0) (TaskStatus r) (TaskStatus r').
Proof.
  destruct (c0 ←o start ["a"; "b"] 1; run c0 late_report_schedule)
    as [c| | |] eqn:Hrun; [|vm_compute in Hrun; discriminate Hrun ..].
  pose proof Hrun as Hc. vm_compute in Hc. injection Hc as Hc.
  destruct (exec c (EvTaskCompleted report_M0)) as [c'| | |] eqn:He;
    [|rewrite <- Hc in He; vm_compute in He; discriminate He ..].
  pose proof He as Hc'. rewrite <- Hc in Hc'. vm_compute in Hc'. injection Hc' as Hc'.
  exists c, c', (record_of (map_task 1 0 "a")),
    (mkMasterTask Completed 0 (map_task 1 0 "a")).
  split; [exists ["a"; "b"], 1, late_report_schedule; exact Hrun|].
  split; [exact He|].
  split; [rewrite <- Hc; vm_compute; reflexivity|].
  split; [rewrite <- Hc'; vm_compute; reflexivity|].
  split; [reflexivity|]. split; [reflexivity|].
  simpl. intros [Hbad _]. discriminate Hbad.
Qed.



(** C4 (violated by the code): Completed is not terminal.  The task of a
    reclaimed record stays in the queue when the record is completed by
    the late report of its first worker; in the state reached, the record
    of Map task 0 is Completed and the queue still holds the task.  The
    next [AssignTask] pops it and sets the Completed record back to
    InProgress; the report of the second worker is then accepted as if it
    were the first, the record is completed a second time, and the file
    path is merged into the bucket twice. *)
Theorem completed_record_reopened :
  ∃ c c' c'' r r' r'',
    reachable c ∧
    (c0 ←o start ["a"; "b"] 1; run c0 (take 4 reopen_schedule)) = Ok c ∧
    TaskMeta (master c) !! 0 = Some r ∧ TaskStatus r = Completed ∧
    TaskQueue (master c) = [map_task 1 1 "b"; map_task 1 0 "a"] ∧
    run c [EvAssignTask (12 * Second); EvAssignTask (12 * Second)] = Ok c' ∧
    TaskMeta (master c') !! 0 = Some r' ∧ TaskStatus r' = InProgress ∧
    run c' [EvTaskCompleted report_M0; EvProcessTaskResult 0] = Ok c'' ∧
    TaskMeta (master c'') !! 0 = Some r'' ∧ TaskStatus r'' = Completed ∧
    MasterInterMediates (master c'') = [["/d/mr-0-0"; "/d/mr-0-0"]].
Proof.
  destruct (c0 ←o start ["a"; "b"] 1; run c0 (take 4 reopen_schedule))
    as [c| | |] eqn:Hrun; [|vm_compute in Hrun; discriminate Hrun ..].
  pose proof Hrun as Hc. vm_compute in Hc. injection Hc as Hc.
  destruct (run c [EvAssignTask (12 * Second); EvAssignTask (12 * Second)])
    as [c'| | |] eqn:He;
    [|rewrite <- Hc in He; vm_compute in He; discriminate He ..].
  pose proof He as Hc'. rewrite <- Hc in Hc'. vm_compute in Hc'. injection Hc' as Hc'.
  destruct (run c' [EvTaskCompleted report_M0; EvProcessTaskResult 0])
    as [c''| | |] eqn:He';
    [|rewrite <- Hc' in He'; vm_compute in He'; discriminate He' ..].
  pose proof He' as Hc''. rewrite <- Hc' in Hc''. vm_compute in Hc''.
  injection Hc'' as Hc''.
  exists c, c', c'', (mkMasterTask Completed 0 (map_task 1 0 "a")),
    (mkMasterTask InProgress (12 * Second) (map_task 1 0 "a")),
    (mkMasterTask Completed (12 * Second) (map_task 1 0 "a")).
  split; [exists ["a"; "b"], 1, (take 4 reopen_schedule); exact Hrun|].
  split; [reflexivity|].
  split; [rewrite <- Hc; vm_compute; reflexivity|]. split; [reflexivity|].
  split; [rewrite <- Hc; vm_compute; reflexivity|].
  split; [exact He|].
  split; [rewrite <- Hc'; vm_compute; reflexivity|]. split; [reflexivity|].
  split; [exact He'|].
  split; [rewrite <- Hc''; vm_compute; reflexivity|]. split; [reflexivity|].
  rewrite <- Hc''. vm_compute. reflexivity.
Qed.


(** ** Hashing and partitioning (C8) *)

(** Reference values of 32-bit FNV-1a: the empty string hashes to the
    offset basis, and ["a"] to [0xe40c292c]. *)
Example fnv32a_empty : fnv32a_Write offset32 "" = 2166136261.
Proof. reflexivity. Qed.

Example fnv32a_a : fnv32a_Write offset32 "a" = 3826002220.
Proof. reflexivity. Qed.

Example ihash_a : ihash "a" = 1678518572.
Proof. reflexivity. Qed.

Lemma ihash_range (key : string) : 0 ≤ ihash key < 2 ^ 31.
Proof.
  unfold ihash. change 2147483647 with (Z.ones 31).
  rewrite Z.land_ones by lia. apply Z.mod_pos_bound. lia.
Qed.

Lemma partition_body_Ok R buffer kv buffer' :
  partition_body R buffer kv = Ok buffer' ↔
  R ≠ 0 ∧ 0 ≤ Z.rem (ihash (Key kv)) R ∧
  ∃ old, buffer !! Z.to_nat (Z.rem (ihash (Key kv)) R) = Some old ∧
         buffer' = <[Z.to_nat (Z.rem (ihash (Key kv)) R) := old ++ [kv]]> buffer.
Proof.
  unfold partition_body. case_bool_decide as HR.
  { split; [done|]. intros [? _]. done. }
  case_bool_decide as Hneg.
  { split; [done|]. intros (_ & ? & _). lia. }
  destruct (buffer !! _) as [old|] eqn:Hold.
  - split.
    + intros [= <-]. eauto 10 with lia.
    + intros (_ & _ & old' & [= <-] & ->). done.
  - split; [done|]. intros (_ & _ & old' & [=] & _).
Qed.

(** The partitioning loop appends every pair to the bucket selected by
    [ihash(key) % NReducer] and to no other. *)
Lemma partition_loop_spec R kvs buffer buffer' :
  ofold (partition_body R) buffer kvs = Ok buffer' →
  length buffer' = length buffer ∧
  ∀ b : nat, buffer' !! b = (λ old, old ++ bucket R (Z.of_nat b) kvs) <$> buffer !! b.
Proof.
  revert buffer. induction kvs as [|kv kvs IH]; intros buffer; simpl.
  - intros [= <-]. split; [done|]. intros b. unfold bucket. simpl.
    destruct (buffer !! b); simpl; [rewrite app_nil_r|]; done.
  - intros (buffer1 & (HR & Hpos & old & Hold & ->)%partition_body_Ok & Hrest)%obind_Ok.
    apply IH in Hrest as [Hlen Hrest]. rewrite length_insert in Hlen.
    split; [done|]. intros b. rewrite Hrest. unfold bucket.
    rewrite filter_cons.
    destruct (decide (Z.to_nat (Z.rem (ihash (Key kv)) R) = b)) as [<-|Hne].
    + rewrite list_lookup_insert_eq by (eapply lookup_lt_Some; eauto).
      rewrite Hold. simpl. rewrite decide_True by lia. rewrite <- app_assoc. done.
    + rewrite list_lookup_insert_ne by done.
      rewrite decide_False by lia. done.
Qed.

Lemma partition_spec R kvs buffer :
  partition R kvs = Ok buffer →
  length buffer = Z.to_nat R ∧
  ∀ b : nat, (b < Z.to_nat R)%nat → buffer !! b = Some (bucket R (Z.of_nat b) kvs).
Proof.
  unfold partition. intros [Hlen Hb]%partition_loop_spec.
  rewrite length_replicate in Hlen. split; [done|].
  intros b Hlt. rewrite Hb, lookup_replicate_2 by done. done.
Qed.

(** C8: the bucket a pair is put into is [ihash(key) % R], a function of
    the key and of R alone: in any two runs of the partitioning loop with
    the same R, whatever the other pairs are, pairs with equal keys land in
    the same bucket. *)
Theorem partition_deterministic (R : Z) (kvs1 kvs2 : list KeyValue)
    (buffer1 buffer2 : list (list KeyValue)) (b1 b2 : nat)
    (l1 l2 : list KeyValue) (kv1 kv2 : KeyValue) :
  partition R kvs1 = Ok buffer1 →
  partition R kvs2 = Ok buffer2 →
  buffer1 !! b1 = Some l1 → kv1 ∈ l1 →
  buffer2 !! b2 = Some l2 → kv2 ∈ l2 →
  Key kv1 = Key kv2 →
  b1 = b2 ∧ Z.of_nat b1 = Z.rem (ihash (Key kv1)) R.
Proof.
  intros [Hlen1 H1]%partition_spec [Hlen2 H2]%partition_spec Hb1 Hin1 Hb2 Hin2 Hkey.
  rewrite H1 in Hb1 by (rewrite <- Hlen1; eapply lookup_lt_Some; eauto).
  rewrite H2 in Hb2 by (rewrite <- Hlen2; eapply lookup_lt_Some; eauto).
  injection Hb1 as <-. injection Hb2 as <-.
  unfold bucket in Hin1, Hin2.
  apply list_elem_of_filter in Hin1 as [Hs1 _], Hin2 as [Hs2 _].
  rewrite Hkey in Hs1. split; [lia|]. rewrite Hkey. lia.
Qed.

(** Two Map outputs that share the key [a]: with three reducers it is
    bucket 2 in both. *)
Lemma partition_deterministic_witness :
  ∃ buffer1 buffer2,
    partition 3 [mkKeyValue "a" "1"; mkKeyValue "b" "1"] = Ok buffer1 ∧
    partition 3 [mkKeyValue "c" "7"; mkKeyValue "a" "2"; mkKeyValue "a" "3"] = Ok buffer2 ∧
    mkKeyValue "a" "1" ∈ buffer1 !!! 2%nat ∧
    mkKeyValue "a" "3" ∈ buffer2 !!! 2%nat ∧
    Z.rem (ihash "a") 3 = 2.
Proof.
  destruct (partition 3 [mkKeyValue "a" "1"; mkKeyValue "b" "1"])
    as [buffer1| | |] eqn:H1; [|vm_compute in H1; discriminate H1 ..].
  destruct (partition 3 [mkKeyValue "c" "7"; mkKeyValue "a" "2"; mkKeyValue "a" "3"])
    as [buffer2| | |] eqn:H2; [|vm_compute in H2; discriminate H2 ..].
  pose proof H1 as Hv1. vm_compute in Hv1. injection Hv1 as Hv1.
  pose proof H2 as Hv2. vm_compute in Hv2. injection Hv2 as Hv2.
  assert (buffer1 !! 2%nat = Some [mkKeyValue "a" "1"; mkKeyValue "b" "1"]) as Hb1
    by (rewrite <- Hv1; reflexivity).
  assert (buffer2 !! 2%nat = Some [mkKeyValue "a" "2"; mkKeyValue "a" "3"]) as Hb2
    by (rewrite <- Hv2; reflexivity).
  assert (mkKeyValue "a" "1" ∈ [mkKeyValue "a" "1"; mkKeyValue "b" "1"]) as Hin1
    by apply list_elem_of_here.
  assert (mkKeyValue "a" "3" ∈ [mkKeyValue "a" "2"; mkKeyValue "a" "3"]) as Hin2
    by (apply list_elem_of_further, list_elem_of_here).
  destruct (partition_deterministic 3 _ _ _ _ 2 2 _ _ _ _ H1 H2 Hb1 Hin1 Hb2 Hin2 eq_refl)
    as [_ Hslot].
  exists buffer1, buffer2. split; [reflexivity|]. split; [reflexivity|].
  rewrite (list_lookup_total_correct _ _ _ Hb1), (list_lookup_total_correct _ _ _ Hb2).
  split; [exact Hin1|]. split; [exact Hin2|]. simpl in Hslot. symmetry. exact Hslot.
Defined.


(** ** Local files *)

Lemma append_nil_r (s : string) : s +:+ "" = s.
Proof.
  induction s as [|a s IH]; [done|].
  change (String a (s +:+ "") = String a s). f_equal. exact IH.
Qed.

Lemma append_assoc (s1 s2 s3 : string) : (s1 +:+ s2) +:+ s3 = s1 +:+ (s2 +:+ s3).
Proof.
  induction s1 as [|a s1 IH]; [done|].
  change (String a ((s1 +:+ s2) +:+ s3) = String a (s1 +:+ (s2 +:+ s3))).
  f_equal. exact IH.
Qed.

Lemma Join_inj (dir : string) : Inj (=) (=) (Join dir).
Proof.
  intros n1 n2. unfold Join. case_bool_decide.
  - intros H1%(inj (String.app "/")). done.
  - intros H1%(inj (String.app dir))%(inj (String.app "/")). done.
Qed.

Lemma intermediate_name_inj (MapId : Z) : Inj (=) (=) (intermediate_name MapId).
Proof.
  intros b1 b2. unfold intermediate_name.
  intros H%(inj (String.app "mr-"))%(inj (String.app (pretty MapId)))%(inj (String.app "-")).
  apply (inj pretty) in H. exact H.
Qed.

Lemma resolve_intermediate_name dir MapId b :
  resolve dir (intermediate_name MapId b) = Join dir (intermediate_name MapId b).
Proof. reflexivity. Qed.

Lemma resolve_output_name dir id :
  resolve dir (output_name id) = Join dir (output_name id).
Proof. reflexivity. Qed.

Lemma is_abs_Join dir name : is_abs dir = true → is_abs (Join dir name) = true.
Proof.
  unfold Join. case_bool_decide; [done|].
  destruct dir as [|a dir]; [done|]. intros Habs. exact Habs.
Qed.

Lemma resolve_abs dir p : is_abs p = true → resolve dir p = p.
Proof. unfold resolve. intros ->. done. Qed.

(** Writing records one after another to an existing file appends them in
    order and touches nothing else. *)
Lemma fs_write_fold {X : Type} (f : X → string) (tmp : string) (xs : list X) (w : World)
    (old : string) :
  files w !! tmp = Some old →
  foldl (λ w' x, fs_write tmp (f x) w') w xs =
    mkWorld (<[tmp := old +:+ concat_strings (f <$> xs)]> (files w)) (suffixes w)
            (oplog w ++ (OpWrite tmp <$> (f <$> xs))).
Proof.
  revert w old. induction xs as [|x xs IH]; intros w old Hold; simpl.
  - rewrite append_nil_r, insert_id, app_nil_r by done. destruct w; done.
  - erewrite IH; [|simpl; rewrite lookup_alter_eq, Hold; done].
    simpl. rewrite insert_alter_eq, append_assoc, <- app_assoc. done.
Qed.

Lemma TempFile_try_Some dir fs cands tmp rest :
  TempFile_try dir fs cands = Some (tmp, rest) →
  fs !! tmp = None ∧ ∃ r, tmp = Join dir ("mr-tmp-" +:+ r).
Proof.
  induction cands as [|r cands IH]; simpl; [done|].
  case_bool_decide as Hex; [exact IH|].
  intros [= <- <-]. split; [|eauto].
  destruct (fs !! _) eqn:E; [|done]. exfalso. apply Hex. eauto.
Qed.

Lemma TempFile_Ok dir w tmp w1 :
  TempFile dir w = Ok (tmp, w1) →
  files w !! tmp = None ∧
  files w1 = <[tmp := ""]> (files w) ∧
  oplog w1 = oplog w ++ [OpCreate tmp] ∧
  ∃ r, tmp = Join dir ("mr-tmp-" +:+ r).
Proof.
  unfold TempFile. destruct (TempFile_try _ _ _) as [[name rest]|] eqn:Htry; [|done].
  intros [= <- <-]. apply TempFile_try_Some in Htry as [Hfresh Hname]. done.
Qed.

(** Writing [records] through a temporary file: the file-system calls are
    exactly create, the writes, rename; afterwards [out] holds the records
    and every other file is as before. *)
Lemma write_rename_spec {X : Type} (f : X → string) dir (out : string) (xs : list X)
    (w : World) (tmp : string) (w1 : World) :
  TempFile dir w = Ok (tmp, w1) →
  let w' := fs_rename tmp out (foldl (λ w' x, fs_write tmp (f x) w') w1 xs) in
  files w !! tmp = None ∧
  files w' = <[out := concat_strings (f <$> xs)]> (files w) ∧
  oplog w' = oplog w ++ write_ops tmp out (f <$> xs).
Proof.
  intros (Hfresh & Hfiles & Hlog & _)%TempFile_Ok. simpl.
  rewrite (fs_write_fold f tmp xs w1 "") by (rewrite Hfiles, lookup_insert_eq; done).
  unfold fs_rename. simpl. rewrite lookup_insert_eq. simpl.
  split; [done|]. split.
  - rewrite Hfiles, insert_insert_eq, delete_insert_eq, delete_id by done. done.
  - rewrite Hlog. unfold write_ops. rewrite <- !app_assoc. done.
Qed.

Section WorkerFiles.

Context (json_encode : KeyValue → string) (dir : string).

Lemma writeToLocalFile_Ok MapId reduceId kvs w p w' :
  writeToLocalFile json_encode dir MapId reduceId kvs w = Ok (p, w') →
  p = Join dir (intermediate_name MapId reduceId) ∧
  files w' = <[p := concat_strings (json_encode <$> kvs)]> (files w) ∧
  ∃ tmp, files w !! tmp = None ∧
         oplog w' = oplog w ++ write_ops tmp p (json_encode <$> kvs).
Proof.
  unfold writeToLocalFile. intros ([tmp w1] & Ht & [= <- <-])%obind_Ok.
  rewrite resolve_intermediate_name.
  destruct (write_rename_spec json_encode dir
              (Join dir (intermediate_name MapId reduceId)) kvs w tmp w1 Ht)
    as (Hfresh & Hfiles & Hlog).
  split; [done|]. split; [exact Hfiles|]. eauto.
Qed.

(** The file-writing loop of [mapper] from bucket [i] on. *)
Lemma write_buckets_Ok MapId (i : Z) buckets acc w paths w' :
  write_buckets json_encode dir MapId i buckets acc w = Ok (paths, w') →
  paths = acc ++ imap (λ k _, Join dir (intermediate_name MapId (i + Z.of_nat k))) buckets ∧
  (∃ tmps, length tmps = length buckets ∧
           oplog w' = oplog w ++
             mjoin (imap (λ k tb, write_ops tb.1
                                    (Join dir (intermediate_name MapId (i + Z.of_nat k)))
                                    (json_encode <$> tb.2))
                         (zip tmps buckets))) ∧
  (∀ (k : nat) b, buckets !! k = Some b →
     files w' !! Join dir (intermediate_name MapId (i + Z.of_nat k)) =
       Some (concat_strings (json_encode <$> b))) ∧
  (∀ p, (∀ k : nat, (k < length buckets)%nat →
                    p ≠ Join dir (intermediate_name MapId (i + Z.of_nat k))) →
        files w' !! p = files w !! p).
Proof.
  revert i acc w. induction buckets as [|b buckets IH]; intros i acc w; simpl.
  - intros [= <- <-]. rewrite app_nil_r. split; [done|]. split.
    + exists []. simpl. rewrite app_nil_r. done.
    + split; [intros k b'; rewrite lookup_nil; done|done].
  - intros ([p w1] & Hw & Hrest)%obind_Ok. simpl in Hrest.
    apply writeToLocalFile_Ok in Hw as (-> & Hfiles & tmp & Hfresh & Hlog).
    apply IH in Hrest as (-> & (tmps & Hlen & Hlog') & Hout & Hframe). clear IH.
    assert (∀ k : nat, i + 1 + Z.of_nat k = i + Z.of_nat (S k)) as Hidx by (intros; lia).
    split; [|split; [|split]].
    + rewrite <- app_assoc. simpl. rewrite Z.add_0_r. do 2 f_equal.
      apply imap_ext. intros k ? _. simpl. rewrite Hidx. done.
    + exists (tmp :: tmps). split; [simpl; lia|].
      rewrite Hlog', Hlog, <- app_assoc. simpl. rewrite Z.add_0_r. do 4 f_equal.
      apply imap_ext. intros k ? _. simpl. rewrite Hidx. done.
    + intros [|k] b' Hb'; simpl in Hb'.
      * injection Hb' as <-. rewrite Z.add_0_r.
        rewrite Hframe, Hfiles, lookup_insert_eq; [done|].
        intros k _ Heq. apply Join_inj, intermediate_name_inj in Heq. lia.
      * rewrite <- Hidx. apply Hout. exact Hb'.
    + intros p Hp. rewrite Hframe.
      * rewrite Hfiles, lookup_insert_ne; [done|].
        intros <-. apply (Hp 0%nat); [lia|]. rewrite Z.add_0_r. done.
      * intros k Hk. rewrite Hidx. apply Hp. lia.
Qed.

End WorkerFiles.

(** ** Temporary names and final names *)

(** The first character of a decimal numeral is a digit or a sign. *)
Lemma pretty_N_go_head (x : N) (s : string) (r : string) :
  (∀ r', s ≠ String "t" r') → pretty_N_go x s ≠ String "t" r.
Proof.
  revert s r. induction (N.lt_wf_0 x) as [x _ IH]; intros s r Hs.
  assert (x = 0 ∨ 0 < x)%N as [->|Hpos] by lia.
  - rewrite pretty_N_go_0. apply Hs.
  - rewrite pretty_N_go_step by done. apply IH.
    + apply N.div_lt; [done|lia].
    + intros r'. unfold pretty_N_char. repeat case_match; discriminate.
Qed.

Lemma pretty_Z_head (z : Z) (rest r : string) :
  pretty z +:+ String "-" rest ≠ String "t" r.
Proof.
  assert (∀ s : string, (∀ r', s ≠ String "t" r') → s +:+ String "-" rest ≠ String "t" r)
    as Happ.
  { intros [|c s] Hs; [discriminate|].
    change (String c (s +:+ String "-" rest) ≠ String "t" r).
    intros [= -> _]. apply (Hs s). reflexivity. }
  apply Happ. intros r'. destruct z as [|p|p].
  - discriminate.
  - change (pretty (Zpos p)) with (pretty (Npos p)).
    unfold pretty, pretty_N. rewrite decide_False by done.
    apply pretty_N_go_head. discriminate.
  - discriminate.
Qed.

(** No name [ioutil.TempFile] can draw is the name of a bucket file. *)
Lemma tmp_name_ne_intermediate_name (dir r : string) (MapId b : Z) :
  Join dir ("mr-tmp-" +:+ r) ≠ Join dir (intermediate_name MapId b).
Proof.
  intros Heq%Join_inj. unfold intermediate_name in Heq.
  change ("mr-tmp-" +:+ r) with ("mr-" +:+ String "t" ("mp-" +:+ r)) in Heq.
  apply (inj (String.app "mr-")) in Heq. symmetry in Heq.
  change (pretty MapId +:+ "-" +:+ pretty b)
    with (pretty MapId +:+ String "-" (pretty b)) in Heq.
  exact (pretty_Z_head _ _ _ Heq).
Qed.

Section WorkerTemporaries.

Context (json_encode : KeyValue → string) (dir : string).

Lemma writeToLocalFile_tmp MapId reduceId kvs w p w' :
  writeToLocalFile json_encode dir MapId reduceId kvs w = Ok (p, w') →
  ∃ tmp r, tmp = Join dir ("mr-tmp-" +:+ r) ∧
           files w !! tmp = None ∧
           oplog w' = oplog w ++ write_ops tmp p (json_encode <$> kvs).
Proof.
  intros Hw. pose proof Hw as (Hp & _)%writeToLocalFile_Ok.
  unfold writeToLocalFile in Hw. apply obind_Ok in Hw as ([tmp w1] & Ht & [= _ <-]).
  rewrite resolve_intermediate_name.
  destruct (write_rename_spec json_encode dir
              (Join dir (intermediate_name MapId reduceId)) kvs w tmp w1 Ht)
    as (Hfresh & _ & Hlog).
  apply TempFile_Ok in Ht as (_ & _ & _ & r & Hr).
  exists tmp, r. split; [exact Hr|]. split; [exact Hfresh|]. rewrite Hp. exact Hlog.
Qed.

(** The temporary files of the file-writing loop of [mapper]: each has a
    name drawn by [ioutil.TempFile], exists neither before the loop nor
    after it, and is the file that is written and then renamed. *)
Lemma write_buckets_tmps MapId (i : Z) buckets acc w paths w' :
  write_buckets json_encode dir MapId i buckets acc w = Ok (paths, w') →
  ∃ tmps,
    length tmps = length buckets ∧
    Forall (λ tmp, (∃ r, tmp = Join dir ("mr-tmp-" +:+ r)) ∧
                   files w !! tmp = None ∧ files w' !! tmp = None) tmps ∧
    oplog w' = oplog w ++
      mjoin (imap (λ k tb, write_ops tb.1
                             (Join dir (intermediate_name MapId (i + Z.of_nat k)))
                             (json_encode <$> tb.2))
                  (zip tmps buckets)).
Proof.
  revert i acc w. induction buckets as [|b buckets IH]; intros i acc w; simpl.
  - intros [= <- <-]. exists []. simpl. rewrite app_nil_r. done.
  - intros ([p w1] & Hw & Hrest)%obind_Ok. simpl in Hrest.
    pose proof (writeToLocalFile_Ok _ _ _ _ _ _ _ _ Hw) as (-> & Hfiles & _).
    apply writeToLocalFile_tmp in Hw as (tmp & r & Htmp & Hfresh & Hlog).
    pose proof (write_buckets_Ok _ _ _ _ _ _ _ _ _ Hrest) as (_ & _ & _ & Hframe).
    apply IH in Hrest as (tmps & Hlen & Hall & Hlog'). clear IH.
    assert (∀ k : nat, i + 1 + Z.of_nat k = i + Z.of_nat (S k)) as Hidx by (intros; lia).
    assert (∀ t rt, t = Join dir ("mr-tmp-" +:+ rt) →
                    files w1 !! t = files w !! t) as Hback.
    { intros t rt ->. rewrite Hfiles. apply lookup_insert_ne.
      intros Heq. symmetry in Heq. exact (tmp_name_ne_intermediate_name _ _ _ _ Heq). }
    exists (tmp :: tmps). split; [simpl; lia|]. split.
    + constructor.
      * split; [eauto|]. split; [exact Hfresh|].
        rewrite Hframe, (Hback tmp r Htmp); [exact Hfresh|].
        intros k _. rewrite Htmp. apply tmp_name_ne_intermediate_name.
      * eapply Forall_impl; [exact Hall|]. intros t ((rt & Ht) & H1 & H2).
        split; [eauto|]. split; [|exact H2]. rewrite <- (Hback t rt Ht). exact H1.
    + rewrite Hlog', Hlog, <- app_assoc. simpl. rewrite Z.add_0_r. do 4 f_equal.
      apply imap_ext. intros k ? _. simpl. rewrite Hidx. done.
Qed.

End WorkerTemporaries.


(** ** The Map worker (C5, C10) *)

Lemma imap_index_seqZ {A B : Type} (f : Z → B) (l : list A) :
  imap (λ (k : nat) (_ : A), f (Z.of_nat k)) l = f <$> seqZ 0 (Z.of_nat (length l)).
Proof.
  apply list_eq. intros k. rewrite list_lookup_imap, list_lookup_fmap.
  destruct (l !! k) as [x|] eqn:Hk; simpl.
  - apply lookup_lt_Some in Hk. rewrite lookup_seqZ_lt by lia. done.
  - apply lookup_ge_None in Hk. rewrite lookup_seqZ_ge by lia. done.
Qed.

Lemma partition_nonzero R kvs buffer :
  partition R kvs = Ok buffer → kvs ≠ [] → R ≠ 0.
Proof.
  unfold partition. destruct kvs as [|kv kvs]; [done|]. simpl.
  intros (b1 & (HR & _)%partition_body_Ok & _)%obind_Ok _. exact HR.
Qed.

(** What the coordinator's collection loop does with a report of at most
    as many paths as there are buckets. *)
Lemma collect_from_lookup paths (k : nat) im :
  (k + length paths ≤ length im)%nat →
  ∃ im', collect_from k paths im = Ok im' ∧
         ∀ j : nat,
           im' !! j =
             match paths !! (j - k)%nat with
             | Some p => if decide (k ≤ j)%nat then (λ old, old ++ [p]) <$> im !! j
                         else im !! j
             | None => im !! j
             end.
Proof.
  revert k im. induction paths as [|p paths IH]; intros k im Hlen; simpl in *.
  - exists im. split; [done|]. intros j. done.
  - destruct (lookup_lt_is_Some_2 im k ltac:(lia)) as [old Hold].
    unfold collect_body. rewrite Hold. simpl.
    destruct (IH (S k) (<[k := old ++ [p]]> im)) as (im' & -> & Him').
    { rewrite length_insert. lia. }
    exists im'. split; [done|]. intros j. rewrite Him'. clear Him' IH.
    destruct (decide (j < k)%nat) as [Hlt|Hge].
    + replace (j - S k)%nat with 0%nat by lia. replace (j - k)%nat with 0%nat by lia.
      simpl. rewrite decide_False by lia.
      rewrite list_lookup_insert_ne by lia.
      destruct (paths !! 0%nat); [rewrite decide_False by lia|]; done.
    + destruct (decide (j = k)) as [->|Hne].
      * replace (k - S k)%nat with 0%nat by lia. rewrite Nat.sub_diag. simpl.
        rewrite decide_True by lia.
        rewrite list_lookup_insert_eq by (eapply lookup_lt_Some; eauto).
        rewrite Hold. simpl.
        destruct (paths !! 0%nat); [rewrite decide_False by lia|]; done.
      * replace (j - k)%nat with (S (j - S k)) by lia. simpl.
        rewrite list_lookup_insert_ne by lia.
        destruct (paths !! (j - S k)%nat); [|done].
        rewrite !decide_True by lia. done.
Qed.

Lemma collect_from_report paths im :
  length paths = length im →
  collect_from 0 paths im = Ok (zip_with (λ old p, old ++ [p]) im paths).
Proof.
  intros Hlen. destruct (collect_from_lookup paths 0 im) as (im' & -> & Him'); [lia|].
  f_equal. apply list_eq. intros j. rewrite Him', lookup_zip_with, Nat.sub_0_r.
  destruct (paths !! j) as [p|] eqn:Hp.
  - rewrite decide_True by lia. destruct (im !! j); done.
  - destruct (im !! j) eqn:Hj; [|done].
    apply lookup_lt_Some in Hj. apply lookup_ge_None in Hp. lia.
Qed.

Section MapWorker.

Context (mapf : string → string → list KeyValue).
Context (json_encode : KeyValue → string) (dir : string).

Lemma mapper_Ok task w ev w' :
  mapper mapf json_encode dir task w = Ok (ev, w') →
  ∃ content buffer paths,
    files w !! resolve dir (Input task) = Some content ∧
    0 ≤ NReducer task ∧
    partition (NReducer task) (mapf (Input task) content) = Ok buffer ∧
    write_buckets json_encode dir (Id task) 0 buffer [] w = Ok (paths, w') ∧
    ev = taskCompleted (set_Task_InterMediates paths task).
Proof.
  unfold mapper. destruct (files w !! _) as [content|]; [|done].
  case_bool_decide as HR; [done|].
  intros (buffer & Hpart & ([paths w1] & Hwrite & [= <- <-])%obind_Ok)%obind_Ok.
  exists content, buffer, paths. repeat split; [lia|done|done].
Qed.

(** The report and the bucket files of a Map task that ran to completion. *)
Lemma mapper_files task w ev w' :
  mapper mapf json_encode dir task w = Ok (ev, w') →
  ∃ content buffer,
    files w !! resolve dir (Input task) = Some content ∧
    0 ≤ NReducer task ∧
    partition (NReducer task) (mapf (Input task) content) = Ok buffer ∧
    write_buckets json_encode dir (Id task) 0 buffer [] w
      = Ok ((λ b, Join dir (intermediate_name (Id task) b)) <$> seqZ 0 (NReducer task), w') ∧
    ev = taskCompleted
           (set_Task_InterMediates
              ((λ b, Join dir (intermediate_name (Id task) b)) <$> seqZ 0 (NReducer task))
              task) ∧
    ∀ b, 0 ≤ b < NReducer task →
      files w' !! Join dir (intermediate_name (Id task) b) =
        Some (concat_strings
                (json_encode <$> bucket (NReducer task) b (mapf (Input task) content))).
Proof.
  intros (content & buffer & paths & Hin & HR & Hpart & Hwrite & ->)%mapper_Ok.
  pose proof (partition_spec _ _ _ Hpart) as [Hlen Hbuf].
  pose proof (write_buckets_Ok _ _ _ _ _ _ _ _ _ Hwrite) as (Hpaths & _ & Hout & _).
  assert (paths = (λ b, Join dir (intermediate_name (Id task) b)) <$>
                    seqZ 0 (NReducer task)) as ->.
  { rewrite Hpaths. simpl.
    transitivity ((λ b, Join dir (intermediate_name (Id task) b)) <$>
                    seqZ 0 (Z.of_nat (length buffer)));
      [|rewrite Hlen, Z2Nat.id by lia; done].
    rewrite <- imap_index_seqZ.
    apply imap_ext. intros k ? _. simpl. rewrite Z.add_0_l. done. }
  exists content, buffer. repeat (split; [done|]).
  intros b Hb.
  specialize (Hout (Z.to_nat b) (bucket (NReducer task) b (mapf (Input task) content))).
  rewrite Z.add_0_l, Z2Nat.id in Hout by lia. apply Hout.
  rewrite Hbuf by lia. rewrite Z2Nat.id by lia. done.
Qed.

(** C5: a Map task that runs to completion puts every pair of the user
    function's output into bucket [ihash(key) % R]; for every bucket b
    the pairs of that bucket, encoded in order, are the content of the
    file [mr-<Id>-<b>] in the working directory; each such file is made
    by creating a temporary file [mr-tmp-*], a name that is not a
    bucket-file name and exists neither before nor after the run,
    writing the records to it and renaming it to the final name; and
    the call the worker sends is [TaskCompleted] with the task it was
    given, its [InterMediates] set to the R file paths in bucket
    order. *)
Theorem mapper_writes_buckets (task : Task) (w w' : World) (ev : Event) :
  mapper mapf json_encode dir task w = Ok (ev, w') →
  ∃ content tmps,
    files w !! resolve dir (Input task) = Some content ∧
    let kvs := mapf (Input task) content in
    let R := NReducer task in
    let out := λ b : Z, Join dir (intermediate_name (Id task) b) in
    (∀ kv, kv ∈ kvs →
       0 ≤ Z.rem (ihash (Key kv)) R < R ∧
       kv ∈ bucket R (Z.rem (ihash (Key kv)) R) kvs) ∧
    (∀ b, 0 ≤ b < R →
       files w' !! out b = Some (concat_strings (json_encode <$> bucket R b kvs))) ∧
    length tmps = Z.to_nat R ∧
    Forall (λ tmp, (∃ r, tmp = Join dir ("mr-tmp-" +:+ r)) ∧
                   (∀ b, tmp ≠ out b) ∧
                   files w !! tmp = None ∧ files w' !! tmp = None) tmps ∧
    oplog w' = oplog w ++
      mjoin (imap (λ (b : nat) tmp,
                     write_ops tmp (out (Z.of_nat b))
                               (json_encode <$> bucket R (Z.of_nat b) kvs))
                  tmps) ∧
    ev = EvTaskCompleted
           (mkTask (Id task) (Input task) (Output task) (TaskState task) (NReducer task)
                   (out <$> seqZ 0 R)).
Proof.
  intros (content & buffer & Hin & HR & Hpart & Hwrite & -> & Hfiles)%mapper_files.
  pose proof (partition_spec _ _ _ Hpart) as [Hlen Hbuf].
  apply write_buckets_tmps in Hwrite as (tmps & Htmps & Hall & Hlog).
  exists content, tmps. split; [exact Hin|]. simpl.
  split; [|split; [|split; [|split; [|split]]]].
  - intros kv Hkv.
    assert (NReducer task ≠ 0) as Hnz.
    { eapply partition_nonzero; [exact Hpart|]. intros E. rewrite E in Hkv.
      apply elem_of_nil in Hkv. done. }
    split.
    + apply Z.rem_bound_pos; [apply ihash_range|lia].
    + unfold bucket. apply list_elem_of_filter. done.
  - exact Hfiles.
  - lia.
  - eapply Forall_impl; [exact Hall|]. intros tmp ((r & ->) & H1 & H2).
    split; [eauto|]. split; [|done]. intros b. apply tmp_name_ne_intermediate_name.
  - rewrite Hlog. f_equal. f_equal. apply list_eq. intros k.
    rewrite !list_lookup_imap, lookup_zip_with.
    destruct (tmps !! k) as [tmp|] eqn:Hk; [|done]. simpl.
    rewrite Hbuf by (apply lookup_lt_Some in Hk; lia). simpl.
    rewrite Z.add_0_l. done.
  - done.
Qed.

End MapWorker.


(** The word-count Map task 3 with two reducers. *)
Lemma mapper_writes_buckets_witness :
  ∃ w',
    mapper wc_mapf wc_encode "/d" wc_map_task wc_world
      = Ok (EvTaskCompleted (mkTask 3 "in.txt" "" Map 2 ["/d/mr-3-0"; "/d/mr-3-1"]), w') ∧
    files w' !! "/d/mr-3-0" = Some "a c a " ∧
    files w' !! "/d/mr-3-1" = Some "b " ∧
    files w' !! "/d/mr-tmp-x1" = None ∧
    files w' !! "/d/mr-tmp-x2" = None ∧
    oplog w' = write_ops "/d/mr-tmp-x1" "/d/mr-3-0" ["a "; "c "; "a "] ++
               write_ops "/d/mr-tmp-x2" "/d/mr-3-1" ["b "].
Proof.
  destruct (mapper wc_mapf wc_encode "/d" wc_map_task wc_world)
    as [[ev w']| | |] eqn:Hrun; [|vm_compute in Hrun; discriminate Hrun ..].
  destruct (mapper_writes_buckets _ _ _ _ _ _ _ Hrun)
    as (content & tmps & Hin & Hrange & Hfiles & Hlen & Htmps & Hlog & Hev).
  injection Hin as <-.
  destruct tmps as [|t0 [|t1 [|? ?]]]; try discriminate Hlen.
  pose proof Hrun as Hv. vm_compute in Hv. injection Hv as _ Hw.
  assert (oplog w' = write_ops "/d/mr-tmp-x1" "/d/mr-3-0" ["a "; "c "; "a "] ++
                     write_ops "/d/mr-tmp-x2" "/d/mr-3-1" ["b "]) as Hconcrete
    by (rewrite <- Hw; reflexivity).
  assert (t0 = "/d/mr-tmp-x1" ∧ t1 = "/d/mr-tmp-x2") as [-> ->].
  { rewrite Hlog in Hconcrete. simpl in Hconcrete. rewrite app_nil_r in Hconcrete.
    vm_compute in Hconcrete. inversion Hconcrete. done. }
  apply Forall_cons in Htmps as [(_ & _ & _ & Hgone0) Htmps].
  apply Forall_cons in Htmps as [(_ & _ & _ & Hgone1) _].
  exists w'. split; [rewrite Hev; reflexivity|].
  split; [exact (Hfiles 0 ltac:(simpl; lia))|].
  split; [exact (Hfiles 1 ltac:(simpl; lia))|].
  split; [exact Hgone0|]. split; [exact Hgone1|]. exact Hconcrete.
Defined.

Section MapReport.

Context (mapf : string → string → list KeyValue).
Context (json_encode : KeyValue → string) (dir : string).

(** X32: the worker's side of the report.  A Map task that runs to
    completion in an absolute working directory calls [TaskCompleted]
    with its own task and exactly R file paths, the path of
    [mr-<Id>-<b>] for b = 0, 1, ..., R-1 in this order; each reported
    path names a file that exists afterwards, the file of a bucket
    without pairs being empty; and when the coordinator merges the
    report, every one of its R buckets receives exactly the path of its
    own number.  Whether the merged path reaches the Reduce task is the
    subject of [reduce_input_misses_completed_map_task]. *)
Theorem mapper_reports_every_bucket (task : Task) (w w' : World) (ev : Event) :
  is_abs dir = true →
  mapper mapf json_encode dir task w = Ok (ev, w') →
  ∃ content paths,
    files w !! resolve dir (Input task) = Some content ∧
    ev = EvTaskCompleted
           (mkTask (Id task) (Input task) (Output task) (TaskState task) (NReducer task)
                   paths) ∧
    let R := NReducer task in
    let kvs := mapf (Input task) content in
    length paths = Z.to_nat R ∧
    paths = (λ b, Join dir (intermediate_name (Id task) b)) <$> seqZ 0 R ∧
    (∀ p, p ∈ paths → is_Some (files w' !! resolve dir p)) ∧
    (∀ b, 0 ≤ b < R → bucket R b kvs = [] →
          files w' !! resolve dir (Join dir (intermediate_name (Id task) b)) = Some "") ∧
    (∀ im, length im = Z.to_nat R →
           collect_from 0 paths im = Ok (zip_with (λ old p, old ++ [p]) im paths)).
Proof.
  intros Habs Hrun.
  destruct (mapper_files _ _ _ _ _ _ _ Hrun)
    as (content & buffer & Hin & HR & _ & _ & -> & Hfiles).
  simpl in *. eexists content, _. split; [exact Hin|]. split; [reflexivity|].
  assert (length ((λ b, Join dir (intermediate_name (Id task) b)) <$>
                    seqZ 0 (NReducer task)) = Z.to_nat (NReducer task)) as Hpaths.
  { rewrite length_fmap, length_seqZ. done. }
  split; [exact Hpaths|]. split; [reflexivity|]. split; [|split].
  - intros p (b & -> & Hb)%list_elem_of_fmap.
    apply elem_of_seqZ in Hb.
    rewrite resolve_abs by (apply is_abs_Join; exact Habs).
    rewrite Hfiles by lia. eauto.
  - intros b Hb Hempty.
    rewrite resolve_abs by (apply is_abs_Join; exact Habs).
    rewrite Hfiles, Hempty by lia. done.
  - intros im Him. apply collect_from_report. congruence.
Qed.

End MapReport.

(** The word-count Map task run with three reducers: no word falls into
    bucket 1, and its file is written all the same. *)
Lemma mapper_reports_every_bucket_witness :
  ∃ w',
    mapper wc_mapf wc_encode "/d" (mkTask 3 "in.txt" "" Map 3 []) wc_world
      = Ok (EvTaskCompleted
              (mkTask 3 "in.txt" "" Map 3 ["/d/mr-3-0"; "/d/mr-3-1"; "/d/mr-3-2"]),
            w') ∧
    files w' !! "/d/mr-3-1" = Some "" ∧
    collect_from 0 ["/d/mr-3-0"; "/d/mr-3-1"; "/d/mr-3-2"] [["/d/mr-0-0"]; []; []]
      = Ok [["/d/mr-0-0"; "/d/mr-3-0"]; ["/d/mr-3-1"]; ["/d/mr-3-2"]].
Proof.
  destruct (mapper wc_mapf wc_encode "/d" (mkTask 3 "in.txt" "" Map 3 []) wc_world)
    as [[ev w']| | |] eqn:Hrun; [|vm_compute in Hrun; discriminate Hrun ..].
  destruct (mapper_reports_every_bucket wc_mapf wc_encode "/d" _ _ _ _ eq_refl Hrun)
    as (content & paths & Hin & Hev & Hlen & Hpaths & Hread & Hempty & Hmerge).
  injection Hin as <-. simpl in Hpaths. subst paths.
  exists w'. split; [rewrite Hev; reflexivity|].
  split; [apply (Hempty 1); [simpl; lia|reflexivity]|].
  apply (Hmerge [["/d/mr-0-0"]; []; []]). reflexivity.
Defined.

(** C10 (violated by the code): a Reduce task's input list does not hold
    a file of every completed Map task.  A worker runs the two Map tasks
    of a job with one reducer to completion: each writes its one bucket
    file and reports exactly that path.  The coordinator accepts both
    reports, so both records are Completed, before either
    [processTaskResult] goroutine has run.  The goroutine of task 0 then
    finds every record Completed and creates the Reduce task from a
    bucket that holds only [/d/mr-0-0]; the goroutine of task 1 merges
    [/d/mr-1-0] into the matrix afterwards, which the task already
    queued does not see.  Whenever [AssignTask] is served next, it hands
    out the only Reduce task with the input list [/d/mr-0-0]: the file
    of the completed Map task 1 exists and is missing from it. *)
Theorem reduce_input_misses_completed_map_task :
  ∃ w1 w2 c1 c2 r0 r1,
    mapper wc_mapf wc_encode "/d" (map_task 1 0 "a") ab_world
      = Ok (EvTaskCompleted report_M0, w1) ∧
    mapper wc_mapf wc_encode "/d" (map_task 1 1 "b") w1
      = Ok (EvTaskCompleted report_M1, w2) ∧
    files w2 !! "/d/mr-0-0" = Some "x y " ∧
    files w2 !! "/d/mr-1-0" = Some "y z " ∧
    (c0 ←o start ["a"; "b"] 1;
     run c0 [EvAssignTask 0; EvAssignTask 0;
             EvTaskCompleted report_M0; EvTaskCompleted report_M1]) = Ok c1 ∧
    Phase (master c1) = Map ∧
    TaskMeta (master c1) !! 0 = Some r0 ∧ TaskStatus r0 = Completed ∧
    TaskMeta (master c1) !! 1 = Some r1 ∧ TaskStatus r1 = Completed ∧
    goroutines c1 = [report_M0; report_M1] ∧
    run c1 [EvProcessTaskResult 0; EvProcessTaskResult 0] = Ok c2 ∧
    goroutines c2 = [] ∧
    Phase (master c2) = Reduce ∧
    MasterInterMediates (master c2) = [["/d/mr-0-0"; "/d/mr-1-0"]] ∧
    TaskQueue (master c2) = [reduce_task 1 0 ["/d/mr-0-0"]] ∧
    ∀ now, ∃ m3,
      AssignTask now (master c2) = Ok (m3, reduce_task 1 0 ["/d/mr-0-0"]) ∧
      TaskQueue m3 = [] ∧
      "/d/mr-1-0" ∉ InterMediates (reduce_task 1 0 ["/d/mr-0-0"]).
Proof.
  destruct (mapper wc_mapf wc_encode "/d" (map_task 1 0 "a") ab_world)
    as [[ev1 w1]| | |] eqn:Hm1; [|vm_compute in Hm1; discriminate Hm1 ..].
  pose proof Hm1 as Hv1. vm_compute in Hv1. injection Hv1 as Hev1 Hw1.
  destruct (mapper wc_mapf wc_encode "/d" (map_task 1 1 "b") w1)
    as [[ev2 w2]| | |] eqn:Hm2;
    [|rewrite <- Hw1 in Hm2; vm_compute in Hm2; discriminate Hm2 ..].
  pose proof Hm2 as Hv2. rewrite <- Hw1 in Hv2. vm_compute in Hv2.
  injection Hv2 as Hev2 Hw2.
  destruct (c0 ←o start ["a"; "b"] 1;
            run c0 [EvAssignTask 0; EvAssignTask 0;
                    EvTaskCompleted report_M0; EvTaskCompleted report_M1])
    as [c1| | |] eqn:Hrun1; [|vm_compute in Hrun1; discriminate Hrun1 ..].
  pose proof Hrun1 as Hc1. vm_compute in Hc1. injection Hc1 as Hc1.
  destruct (run c1 [EvProcessTaskResult 0; EvProcessTaskResult 0])
    as [c2| | |] eqn:Hrun2;
    [|rewrite <- Hc1 in Hrun2; vm_compute in Hrun2; discriminate Hrun2 ..].
  pose proof Hrun2 as Hc2. rewrite <- Hc1 in Hc2. vm_compute in Hc2. injection Hc2 as Hc2.
  exists w1, w2, c1, c2, (mkMasterTask Completed 0 (map_task 1 0 "a")),
    (mkMasterTask Completed 0 (map_task 1 1 "b")).
  split; [rewrite <- Hev1; reflexivity|].
  split; [rewrite Hm2, <- Hev2; reflexivity|].
  split; [rewrite <- Hw2; vm_compute; reflexivity|].
  split; [rewrite <- Hw2; vm_compute; reflexivity|].
  split; [reflexivity|].
  split; [rewrite <- Hc1; reflexivity|].
  split; [rewrite <- Hc1; vm_compute; reflexivity|]. split; [reflexivity|].
  split; [rewrite <- Hc1; vm_compute; reflexivity|]. split; [reflexivity|].
  split; [rewrite <- Hc1; vm_compute; reflexivity|].
  split; [exact Hrun2|].
  split; [rewrite <- Hc2; reflexivity|].
  split; [rewrite <- Hc2; reflexivity|].
  split; [rewrite <- Hc2; vm_compute; reflexivity|].
  split; [rewrite <- Hc2; vm_compute; reflexivity|].
  intros now. eexists. split; [rewrite <- Hc2; vm_compute; reflexivity|].
  split; [reflexivity|].
  simpl. intros Hin. apply list_elem_of_singleton in Hin. discriminate Hin.
Qed.


(** ** Key order *)

Lemma ltb_false_le (x y : string) : String.ltb y x = false ↔ String.le x y.
Proof.
  unfold String.le, String.ltb, String.leb. rewrite (String.compare_antisym x y).
  destruct (String.compare y x); simpl; split; done.
Qed.

Lemma ltb_true_iff (x y : string) : String.ltb x y = true ↔ String.le x y ∧ x ≠ y.
Proof.
  unfold String.le, String.ltb, String.leb.
  destruct (String.compare x y) eqn:Hcmp; simpl.
  - apply String.compare_eq_iff in Hcmp. split; [done|]. intros [_ Hne]. done.
  - split; [|done]. intros _. split; [done|]. intros ->.
    assert (String.le y y) as Hrefl by reflexivity.
    unfold String.le, String.leb in Hrefl.
    pose proof (String.compare_antisym y y) as Ha. rewrite Hcmp in Ha. simpl in Ha.
    rewrite Ha in Hcmp. discriminate.
  - split; [done|]. intros [[] _].
Qed.

Global Instance key_le_trans : Transitive key_le.
Proof. intros a b c. unfold key_le. apply transitivity. Qed.

Global Instance key_le_total : Total key_le.
Proof. intros a b. unfold key_le. apply String.le_total. Qed.

Lemma Sorted_mono {A : Type} (R1 R2 : relation A) (l : list A) :
  (∀ a b, R1 a b → R2 a b) → Sorted R1 l → Sorted R2 l.
Proof.
  intros Himpl. induction 1 as [|a l Hs IH Hhd]; constructor; [exact IH|].
  destruct Hhd; constructor. auto.
Qed.

Lemma sorted_ByKey_key_le (l : list KeyValue) :
  sorted_ByKey l ↔ StronglySorted key_le l.
Proof.
  unfold sorted_ByKey. split.
  - intros Hs. apply Sorted_StronglySorted; [apply _|].
    revert Hs. apply Sorted_mono. intros a b. unfold Less. apply ltb_false_le.
  - intros Hs. apply StronglySorted_Sorted in Hs.
    revert Hs. apply Sorted_mono. intros a b. unfold Less. apply ltb_false_le.
Qed.

(** ** The grouping loops of the Reduce worker *)

Lemma same_key_run_spec (prev : string) (l : list KeyValue) :
  (same_key_run prev l).1 ++ (same_key_run prev l).2 = l ∧
  Forall (λ kv, Key kv = prev) (same_key_run prev l).1 ∧
  match (same_key_run prev l).2 with
  | [] => True
  | kv :: _ => Key kv ≠ prev
  end.
Proof.
  revert prev. induction l as [|kv l IH]; intros prev; simpl; [done|].
  case_bool_decide as Hk; simpl; [|done].
  destruct (IH (Key kv)) as (Happ & Hall & Hnext). rewrite Hk in *.
  split; [f_equal; exact Happ|]. split; [constructor; done|exact Hnext].
Qed.

(** On a list sorted by key, the grouping loop makes one call per distinct
    key, in strictly ascending key order, each with all the values of its
    key in list order. *)
Lemma reduce_calls_sorted (n : nat) (l : list KeyValue) :
  (length l ≤ n)%nat →
  StronglySorted key_le l →
  keys_ascending (reduce_calls n l).*1 ∧
  (∀ k, k ∈ (reduce_calls n l).*1 ↔ ∃ kv, kv ∈ l ∧ Key kv = k) ∧
  (∀ k vs, (k, vs) ∈ reduce_calls n l → vs = values_of k l).
Proof.
  revert l. induction n as [|n IH]; intros l Hlen Hsorted.
  { destruct l; [|simpl in Hlen; lia]. simpl.
    split; [constructor|]. split.
    - intros k. split; [intros []%elem_of_nil|intros (kv & []%elem_of_nil & _)].
    - intros k vs []%elem_of_nil. }
  destruct l as [|kv rest].
  { simpl. split; [constructor|]. split.
    - intros k. split; [intros []%elem_of_nil|intros (kv & []%elem_of_nil & _)].
    - intros k vs []%elem_of_nil. }
  simpl reduce_calls.
  destruct (same_key_run_spec (Key kv) rest) as (Happ & Hrun & Hnext).
  destruct (same_key_run (Key kv) rest) as [run rest'] eqn:Hsplit. simpl in *.
  subst rest.
  apply StronglySorted_cons in Hsorted as [Hhd Hsorted].
  apply StronglySorted_app in Hsorted as (Hcross & Hrun_sorted & Hrest_sorted).
  (* every key in the remainder is strictly greater *)
  assert (Forall (λ kv', String.ltb (Key kv) (Key kv') = true) rest') as Hgt.
  { destruct rest' as [|kv' rest'']; [constructor|].
    apply StronglySorted_cons in Hrest_sorted as [Hhd' _].
    apply Forall_app in Hhd as [_ Hhd]. apply Forall_cons in Hhd as [Hle _].
    assert (String.ltb (Key kv) (Key kv') = true) as Hlt
      by (apply ltb_true_iff; split; [exact Hle|congruence]).
    constructor; [exact Hlt|].
    eapply Forall_impl; [exact Hhd'|]. intros kv'' Hle'. simpl in Hle'.
    apply ltb_true_iff in Hlt as [Hle1 Hne1]. apply ltb_true_iff. split.
    - unfold key_le in *. etransitivity; eauto.
    - intros Heq. apply Hne1. unfold key_le in *. rewrite <- Heq in Hle'.
      apply (anti_symm String.le); done. }
  destruct (IH rest') as (IHasc & IHkeys & IHvals); [|exact Hrest_sorted|].
  { rewrite length_app in Hlen. lia. }
  split; [|split].
  - simpl. apply StronglySorted_cons. split; [|exact IHasc].
    apply Forall_forall. intros k (kv' & Hkv' & <-)%IHkeys.
    rewrite Forall_forall in Hgt. apply Hgt. exact Hkv'.
  - intros k. simpl. rewrite elem_of_cons, IHkeys. split.
    + intros [->|(kv' & Hin & Hk)].
      * exists kv. split; [apply list_elem_of_here|done].
      * exists kv'. split; [|done].
        apply list_elem_of_further, elem_of_app. right. exact Hin.
    + intros (kv' & Hin & Hk). apply elem_of_cons in Hin as [->|Hin]; [left; done|].
      apply elem_of_app in Hin as [Hin|Hin].
      * left. rewrite Forall_forall in Hrun. rewrite <- Hk. apply Hrun. exact Hin.
      * right. eauto.
  - intros k vs Hin. apply elem_of_cons in Hin as [[= -> ->]|Hin].
    + unfold values_of. rewrite filter_cons_True by done.
      rewrite filter_app. simpl.
      assert (filter (λ kv0, Key kv0 = Key kv) run = run) as ->.
      { clear -Hrun. induction Hrun as [|x run Hx _ IHr]; [done|].
        rewrite filter_cons_True by done. f_equal. exact IHr. }
      assert (filter (λ kv0, Key kv0 = Key kv) rest' = []) as ->.
      { clear -Hgt. induction Hgt as [|x rest' Hx _ IHr]; [done|].
        rewrite filter_cons_False; [exact IHr|].
        apply ltb_true_iff in Hx as [_ Hne]. congruence. }
      rewrite app_nil_r. done.
    + pose proof (IHvals k vs Hin) as ->.
      assert (k ∈ (reduce_calls n rest').*1) as Hk.
      { apply list_elem_of_fmap. exists (k, values_of k rest'). done. }
      apply IHkeys in Hk as (kv' & Hkv' & <-).
      rewrite Forall_forall in Hgt. specialize (Hgt kv' Hkv').
      apply ltb_true_iff in Hgt as [_ Hne].
      unfold values_of. rewrite filter_cons_False by congruence.
      rewrite filter_app.
      assert (filter (λ kv0, Key kv0 = Key kv') run = []) as ->.
      { clear -Hrun Hne. induction Hrun as [|x run Hx _ IHr]; [done|].
        rewrite filter_cons_False; [exact IHr|]. congruence. }
      done.
Qed.


(** ** The Reduce worker (C6) *)

Lemma keys_ascending_NoDup (ks : list string) : keys_ascending ks → NoDup ks.
Proof.
  unfold keys_ascending. induction 1 as [|k ks Hs IH Hall]; constructor; [|exact IH].
  intros Hin. rewrite Forall_forall in Hall. specialize (Hall k Hin).
  apply ltb_true_iff in Hall as [_ Hne]. done.
Qed.

Section ReduceWorker.

Context (reducef : string → list string → string).
Context (json_decode : string → list KeyValue).
Context (sort_ByKey : list KeyValue → list KeyValue).
Context (dir : string).

(** The contract of [sort.Sort]: the result is a rearrangement of the
    input that is sorted with respect to [Less]. *)
Hypothesis sort_Permutation : ∀ l, sort_ByKey l ≡ₚ l.
Hypothesis sort_sorted : ∀ l, sorted_ByKey (sort_ByKey l).

Lemma readFromLocalFile_loop fs paths acc kva :
  ofold (readFromLocalFile_body json_decode dir fs) acc paths = Ok kva →
  ∃ datas,
    Forall2 (λ p data, fs !! resolve dir p = Some data) paths datas ∧
    kva = acc ++ mjoin (json_decode <$> datas).
Proof.
  revert acc. induction paths as [|p paths IH]; intros acc; simpl.
  - intros [= <-]. exists []. split; [constructor|]. simpl. rewrite app_nil_r. done.
  - intros (acc1 & Hbody & Hrest)%obind_Ok.
    unfold readFromLocalFile_body in Hbody.
    destruct (fs !! resolve dir p) as [data|] eqn:Hp; [|done]. injection Hbody as <-.
    apply IH in Hrest as (datas & Hall & ->).
    exists (data :: datas). split; [constructor; done|].
    simpl. rewrite <- app_assoc. done.
Qed.

(** C6: a Reduce task that runs to completion reads the pairs of all its
    intermediate files, in the order of its file list, and sorts them by
    key; it then calls the user function once for every distinct key, in
    strictly ascending key order, with all the values of that key; and
    the file [mr-out-<Id>], written through a temporary file and renamed,
    consists of one line [<key> <value>\n] per call, in call order. *)
Theorem reducer_output (task : Task) (w w' : World) (ev : Event) :
  reducer reducef json_decode sort_ByKey dir task w = Ok (ev, w') →
  ∃ datas kva calls tmp,
    Forall2 (λ p data, files w !! resolve dir p = Some data) (InterMediates task) datas ∧
    kva = mjoin (json_decode <$> datas) ∧
    calls = reduce_calls (length (sort_ByKey kva)) (sort_ByKey kva) ∧
    keys_ascending calls.*1 ∧
    NoDup calls.*1 ∧
    (∀ k, k ∈ calls.*1 ↔ ∃ kv, kv ∈ kva ∧ Key kv = k) ∧
    (∀ k vs, (k, vs) ∈ calls →
       vs = values_of k (sort_ByKey kva) ∧ vs ≡ₚ values_of k kva) ∧
    files w' !! Join dir (output_name (Id task)) =
      Some (concat_strings (output_line reducef <$> calls)) ∧
    oplog w' = oplog w ++
      write_ops tmp (Join dir (output_name (Id task))) (output_line reducef <$> calls) ∧
    ev = taskCompleted (set_Task_Output (output_name (Id task)) task).
Proof.
  unfold reducer, readFromLocalFile.
  intros (kva & Hread & ([tmp w1] & Htmp & [= <- <-])%obind_Ok)%obind_Ok.
  apply readFromLocalFile_loop in Hread as (datas & Hdatas & Hkva). simpl in Hkva.
  rewrite resolve_output_name.
  destruct (write_rename_spec (output_line reducef) dir
              (Join dir (output_name (Id task)))
              (reduce_calls (length (sort_ByKey kva)) (sort_ByKey kva)) w tmp w1 Htmp)
    as (Hfresh & Hfiles & Hlog).
  destruct (reduce_calls_sorted (length (sort_ByKey kva)) (sort_ByKey kva))
    as (Hasc & Hkeys & Hvals); [done|apply sorted_ByKey_key_le, sort_sorted|].
  eexists datas, kva, _, tmp. subst kva.
  split; [exact Hdatas|]. split; [done|]. split; [reflexivity|].
  split; [exact Hasc|]. split; [|split; [|split; [|split; [|split]]]].
  - apply keys_ascending_NoDup. exact Hasc.
  - intros k. rewrite Hkeys. split; intros (kv & Hin & Hk); exists kv; split; try done.
    + rewrite <- sort_Permutation. exact Hin.
    + rewrite sort_Permutation. exact Hin.
  - intros k vs Hin. apply Hvals in Hin as ->. split; [done|].
    unfold values_of. rewrite sort_Permutation. done.
  - rewrite Hfiles, lookup_insert_eq. done.
  - exact Hlog.
  - done.
Qed.

End ReduceWorker.

Lemma wc_sort_Permutation (l : list KeyValue) : wc_sort l ≡ₚ l.
Proof. apply merge_sort_Permutation. Qed.

Lemma wc_sort_sorted (l : list KeyValue) : sorted_ByKey (wc_sort l).
Proof.
  apply sorted_ByKey_key_le. unfold wc_sort.
  apply StronglySorted_merge_sort; apply _.
Qed.

(** The word-count Reduce task 1 over the two files of Map task 3. *)
Lemma reducer_output_witness :
  ∃ w1 w',
    mapper wc_mapf wc_encode "/d" wc_map_task wc_world
      = Ok (taskCompleted (set_Task_InterMediates ["/d/mr-3-0"; "/d/mr-3-1"] wc_map_task), w1) ∧
    reducer wc_reducef wc_decode wc_sort "/d"
            (mkTask 1 "" "" Reduce 2 ["/d/mr-3-1"; "/d/mr-3-0"]) w1
      = Ok (taskCompleted (mkTask 1 "" "mr-out-1" Reduce 2 ["/d/mr-3-1"; "/d/mr-3-0"]), w') ∧
    files w' !! "/d/mr-out-1" = Some "a 2
b 1
c 1
".
Proof.
  destruct (mapper wc_mapf wc_encode "/d" wc_map_task wc_world)
    as [[ev1 w1]| | |] eqn:Hmap; [|vm_compute in Hmap; discriminate Hmap ..].
  pose proof Hmap as Hv. vm_compute in Hv. injection Hv as Hev1 Hw1.
  destruct (reducer wc_reducef wc_decode wc_sort "/d"
              (mkTask 1 "" "" Reduce 2 ["/d/mr-3-1"; "/d/mr-3-0"]) w1)
    as [[ev w']| | |] eqn:Hred;
    [|rewrite <- Hw1 in Hred; vm_compute in Hred; discriminate Hred ..].
  destruct (reducer_output wc_reducef wc_decode wc_sort "/d"
              wc_sort_Permutation wc_sort_sorted _ _ _ _ Hred)
    as (datas & kva & calls & tmp & Hdatas & Hkva & Hcalls & _ & _ & _ & _ & Hout & _ & Hev).
  exists w1, w'. split; [rewrite <- Hev1; reflexivity|].
  split; [rewrite Hred, Hev; reflexivity|].
  refine (eq_trans Hout _). f_equal.
  assert (datas = ["b "; "a c a "]) as ->.
  { simpl in Hdatas. rewrite <- Hw1 in Hdatas.
    apply Forall2_cons_inv_l in Hdatas as (d1 & ds & Hd1 & Hds & ->).
    apply Forall2_cons_inv_l in Hds as (d2 & ds' & Hd2 & Hds' & ->).
    apply Forall2_nil_inv_l in Hds' as ->.
    vm_compute in Hd1, Hd2. congruence. }
  subst kva calls. vm_compute. reflexivity.
Defined.


(** ** Runs that complete *)

(** The outcomes above are not vacuous: with a readable input, a positive
    reducer count and enough unused temporary names, the Map worker runs
    to completion; with readable intermediate files and one unused
    temporary name, so does the Reduce worker. *)


Section Completion.

Context (mapf : string → string → list KeyValue).
Context (reducef : string → list string → string).
Context (json_encode : KeyValue → string) (json_decode : string → list KeyValue).
Context (sort_ByKey : list KeyValue → list KeyValue).
Context (dir : string).

Lemma write_buckets_total MapId i buckets acc w :
  (length buckets ≤ length (suffixes w))%nat →
  Forall (usable_suffix dir MapId (files w)) (suffixes w) →
  ∃ paths w', write_buckets json_encode dir MapId i buckets acc w = Ok (paths, w').
Proof.
  revert i acc w. induction buckets as [|b buckets IH]; intros i acc w Hlen Hfresh; simpl.
  { eauto. }
  destruct w as [fs cands log]. simpl in *.
  destruct cands as [|r cands]; [simpl in Hlen; lia|].
  apply Forall_cons in Hfresh as [[Hr Hne] Hfresh].
  unfold writeToLocalFile, TempFile. simpl.
  rewrite bool_decide_false by (rewrite Hr; intros [? ?]; done). simpl.
  rewrite resolve_intermediate_name.
  rewrite (fs_write_fold json_encode _ b _ "") by (simpl; apply lookup_insert_eq).
  unfold fs_rename. simpl. rewrite lookup_insert_eq. simpl.
  apply IH; simpl.
  - simpl in Hlen. lia.
  - rewrite insert_insert_eq, delete_insert_eq, delete_id by done.
    eapply Forall_impl; [exact Hfresh|]. intros r' [Hr' Hne']. split; [|exact Hne'].
    rewrite lookup_insert_ne; [exact Hr'|]. intros Heq. apply (Hne' i). done.
Qed.



End Completion.


(** * Further properties of the coordinator *)

(** ** What a step keeps *)

Lemma exec_frame c e c' :
  exec c e = Ok c' →
  QueueCap (master c') = QueueCap (master c) ∧
  NReduce (master c') = NReduce (master c) ∧
  InputFiles (master c') = InputFiles (master c).
Proof.
  destruct e as [now|task|i|now order]; simpl.
  - intros ([m' t] & Ha & [= <-])%obind_Ok.
    apply AssignTask_frame in Ha. simpl. tauto.
  - intros ([m' g] & Ht & [= <-])%obind_Ok.
    apply TaskCompleted_frame in Ht. simpl. tauto.
  - destruct (goroutines c !! i) as [task|]; [|intros [= <-]; done].
    intros (m' & Hp & [= <-])%obind_Ok. simpl.
    unfold processTaskResult in Hp. destruct (TaskState task).
    + apply obind_Ok in Hp as (im & _ & Hrest).
      destruct (allTaskDone _).
      * apply obind_Ok in Hrest as (m2 & Hm2 & [= <-]).
        rewrite createReduceTask_spec in Hm2.
        destruct (bool_decide _); [|done]. injection Hm2 as <-. done.
      * injection Hrest as <-. done.
    + destruct (allTaskDone _); injection Hp as <-; done.
    + injection Hp as <-; done.
    + injection Hp as <-; done.
  - case_bool_decide; [|intros [= <-]; done].
    intros (m' & Hp & [= <-])%obind_Ok. simpl.
    unfold catchTimeOut in Hp. case_bool_decide; [injection Hp as <-; done|].
    revert Hp.
    apply (ofold_invariant (λ m1, QueueCap m1 = QueueCap (master c) ∧
                                  NReduce m1 = NReduce (master c) ∧
                                  InputFiles m1 = InputFiles (master c))); [|done].
    intros m1 id m2 (Hc & Hn & Hf) Hb. apply catchTimeOut_body_frame in Hb.
    destruct Hb as (-> & _ & -> & -> & _). done.
Qed.

(** The phase never becomes Map again. *)
Lemma exec_phase_Map c e c' :
  exec c e = Ok c' → Phase (master c') = Map → Phase (master c) = Map.
Proof.
  intros He Hmap. destruct (decide (Phase (master c') = Phase (master c))) as [Heq|Hne].
  - congruence.
  - destruct (phase_change_all_completed _ _ _ He Hne)
      as (i & task & _ & _ & _ & [[_ H]|[_ H]]); congruence.
Qed.

(** ** The records over time *)

Lemma record_tasks_insert tasks (tm : gmap Z MasterTask) k r r' :
  tm !! k = Some r → TaskPtr r' = TaskPtr r →
  record_tasks tasks tm → record_tasks tasks (<[k := r']> tm).
Proof.
  intros Hk Hptr Hrec id. rewrite <- Hrec.
  destruct (decide (k = id)) as [->|Hne].
  - rewrite lookup_insert_eq, Hk. simpl. congruence.
  - rewrite lookup_insert_ne by done. done.
Qed.

Lemma record_tasks_elem tasks (tm : gmap Z MasterTask) id r :
  record_tasks tasks tm → tm !! id = Some r →
  0 ≤ id < Z.of_nat (length tasks) ∧ tasks !! Z.to_nat id = Some (TaskPtr r).
Proof.
  intros Hrec Hid. specialize (Hrec id). rewrite Hid in Hrec. simpl in Hrec.
  case_bool_decide; [split; done|discriminate].
Qed.

Lemma record_tasks_created {X : Type} (mk : Z → nat → X → Task) (n : Z) (xs : list X) :
  (∀ n i x, Id (mk n i x) = Z.of_nat i) →
  record_tasks (imap (mk n) xs)
               (foldl (λ tm t, <[Id t := record_of t]> tm) ∅ (imap (mk n) xs)).
Proof.
  intros HId id.
  destruct (created_task_set mk HId n xs) as (_ & _ & Hl). rewrite Hl.
  case_bool_decide; [|done].
  destruct (imap (mk n) xs !! Z.to_nat id); done.
Qed.

Lemma job_invariant_start files nReduce m :
  MakeMaster files nReduce = Ok m → job_invariant (mkConfig m []).
Proof.
  rewrite MakeMaster_spec. case_bool_decide; [done|]. intros [= <-].
  exists (imap (map_task nReduce) files). simpl. split; [|split].
  - unfold phase_tasks. simpl. done.
  - apply (record_tasks_created map_task). done.
  - intros _. split; [done|]. intros g []%elem_of_nil.
Qed.

Lemma phase_tasks_frame m m' tasks :
  Phase m' = Phase m → NReduce m' = NReduce m → InputFiles m' = InputFiles m →
  phase_tasks m tasks → phase_tasks m' tasks.
Proof. unfold phase_tasks. intros -> -> ->. done. Qed.

Lemma catchTimeOut_job_invariant now order m m' tasks :
  ofold (catchTimeOut_body now) m order = Ok m' →
  record_tasks tasks (TaskMeta m) →
  (∀ t, t ∈ TaskQueue m → t ∈ tasks) →
  record_tasks tasks (TaskMeta m') ∧ (∀ t, t ∈ TaskQueue m' → t ∈ tasks).
Proof.
  intros Hs Hrec Hq. revert Hs.
  apply (ofold_invariant
           (λ m1, record_tasks tasks (TaskMeta m1) ∧ (∀ t, t ∈ TaskQueue m1 → t ∈ tasks)));
    [|done].
  clear. intros m id m' [Hrec Hq] Hb. unfold catchTimeOut_body in Hb.
  destruct (TaskMeta m !! id) as [r|] eqn:Hr; [|injection Hb as <-; done].
  destruct (_ && _); [|injection Hb as <-; done].
  apply obind_Ok in Hb as (m1 & [_ ->]%send_Ok & [= <-]). simpl. split.
  - eapply record_tasks_insert; [exact Hr|done|exact Hrec].
  - intros t [Ht|Ht%list_elem_of_singleton]%elem_of_app; [auto|]. subst t.
    destruct (record_tasks_elem _ _ _ _ Hrec Hr) as [_ Hin].
    eapply list_elem_of_lookup_2. exact Hin.
Qed.

Lemma exec_job_invariant c e c' :
  master_wf (master c) → job_invariant c → exec c e = Ok c' → job_invariant c'.
Proof.
  intros Hwf (tasks & Hphase & Hrec & Hmap) He.
  pose proof (exec_phase_Map _ _ _ He) as Hback.
  pose proof (exec_frame _ _ _ He) as (_ & HN & HF).
  destruct e as [now|task|i|now order]; simpl in He.
  - (* AssignTask *)
    apply obind_Ok in He as ([m' t] & Ha & [= <-]). simpl in *.
    pose proof (AssignTask_frame _ _ _ _ Ha) as (_ & HP & _).
    exists tasks. split; [eapply phase_tasks_frame; eauto|].
    unfold AssignTask in Ha. destruct (TaskQueue (master c)) as [|t0 q] eqn:Hq.
    { assert (m' = master c) as -> by (case_bool_decide; injection Ha as <- _; done).
      simpl. rewrite Hq. auto. }
    destruct (TaskMeta (master c) !! Id t0) as [r|] eqn:Hr; [|done].
    injection Ha as <- <-. simpl. split.
    + eapply record_tasks_insert; [exact Hr|done|exact Hrec].
    + intros Hm. destruct (Hmap Hm) as [Hqueue Hgo]. split; [|exact Hgo].
      intros t Ht. apply Hqueue. apply list_elem_of_further. exact Ht.
  - (* TaskCompleted *)
    apply obind_Ok in He as ([m' g] & Ht & [= <-]). simpl in *.
    pose proof (TaskCompleted_frame _ _ _ _ Ht) as (HQ & _ & HP & _).
    exists tasks. split; [eapply phase_tasks_frame; eauto|].
    unfold TaskCompleted in Ht. case_bool_decide as Htag.
    { injection Ht as <- <-. simpl. rewrite app_nil_r. auto. }
    destruct (TaskMeta (master c) !! Id task) as [r|] eqn:Hr; [|done].
    case_bool_decide; injection Ht as <- <-; simpl.
    { rewrite app_nil_r. auto. }
    split; [eapply record_tasks_insert; [exact Hr|done|exact Hrec]|].
    intros Hm. destruct (Hmap Hm) as [Hqueue Hgo]. split; [exact Hqueue|].
    intros g [Hg|Hg%list_elem_of_singleton]%elem_of_app; [auto|]. subst g.
    destruct (decide (TaskState task = Phase (master c))) as [->|]; [done|]. done.
  - (* processTaskResult *)
    destruct (goroutines c !! i) as [task|] eqn:Hg.
    2:{ injection He as <-. exists tasks. auto. }
    apply obind_Ok in He as (m' & Hp & [= <-]). simpl in *.
    assert (∀ g, g ∈ delete i (goroutines c) → g ∈ goroutines c) as Hsub.
    { intros g Hin. eapply (sublist_subseteq _ _ (sublist_delete _ _)). exact Hin. }
    unfold processTaskResult in Hp. destruct (TaskState task) eqn:Htag.
    + apply obind_Ok in Hp as (im & Him & Hrest).
      destruct (allTaskDone _).
      * apply obind_Ok in Hrest as (m2 & Hm2 & [= <-]).
        rewrite createReduceTask_spec in Hm2.
        destruct (bool_decide _); [|done]. injection Hm2 as <-. simpl in *.
        exists (imap (reduce_task (NReduce (master c))) im). split; [|split].
        -- unfold phase_tasks. simpl. exists im. split; [|done].
           apply collect_from_length in Him. destruct Hwf as (_ & Hl & _). congruence.
        -- apply (record_tasks_created reduce_task). done.
        -- intros Hbad. discriminate Hbad.
      * injection Hrest as <-. simpl in *. exists tasks. split; [exact Hphase|].
        split; [exact Hrec|]. intros Hm. destruct (Hmap Hm) as [Hqueue Hgo]. auto.
    + assert (Phase (master c) ≠ Map) as Hnot.
      { intros Hm. destruct (Hmap Hm) as [_ Hgo].
        specialize (Hgo task (list_elem_of_lookup_2 _ _ _ Hg)). congruence. }
      assert (phase_tasks m' tasks ∧ TaskMeta m' = TaskMeta (master c) ∧ Phase m' ≠ Map)
        as (H1 & H2 & H3).
      { unfold phase_tasks in *. rewrite bool_decide_false in Hphase by done.
        destruct (allTaskDone _); injection Hp as <-; simpl;
          try rewrite bool_decide_false by done; done. }
      exists tasks. simpl. rewrite H2. split; [done|]. split; [done|]. intros Hm. done.
    + injection Hp as <-. exists tasks. split; [exact Hphase|]. split; [exact Hrec|].
      intros Hm. destruct (Hmap Hm) as [Hqueue Hgo]. auto.
    + injection Hp as <-. exists tasks. split; [exact Hphase|]. split; [exact Hrec|].
      intros Hm. destruct (Hmap Hm) as [Hqueue Hgo]. auto.
  - (* sweep *)
    case_bool_decide; [|injection He as <-; exists tasks; auto].
    apply obind_Ok in He as (m' & Hs & [= <-]). simpl in *.
    unfold catchTimeOut in Hs. case_bool_decide as Hexit.
    { injection Hs as <-. exists tasks. auto. }
    assert (Phase m' = Phase (master c)) as HP.
    { revert Hs. apply (ofold_invariant (λ m1, Phase m1 = Phase (master c))); [|done].
      intros m1 id m2 Hm1 Hb. apply catchTimeOut_body_frame in Hb.
      destruct Hb as (_ & -> & _). exact Hm1. }
    exists tasks. split; [eapply phase_tasks_frame; eauto|].
    destruct (decide (Phase (master c) = Map)) as [Hm|Hm].
    + destruct (Hmap Hm) as [Hqueue Hgo].
      destruct (catchTimeOut_job_invariant _ _ _ _ _ Hs Hrec Hqueue) as [Hrec' Hq'].
      split; [exact Hrec'|]. intros _. split; [exact Hq'|exact Hgo].
    + split; [|intros Hm'; simpl in Hm'; congruence].
      revert Hs. apply (ofold_invariant (λ m1, record_tasks tasks (TaskMeta m1))); [|done].
      clear. intros m id m' Hrec Hb. unfold catchTimeOut_body in Hb.
      destruct (TaskMeta m !! id) as [r|] eqn:Hr; [|injection Hb as <-; done].
      destruct (_ && _); [|injection Hb as <-; done].
      apply obind_Ok in Hb as (m1 & [_ ->]%send_Ok & [= <-]). simpl.
      eapply record_tasks_insert; [exact Hr|done|exact Hrec].
Qed.

Lemma reachable_job_invariant c : reachable c → job_invariant c.
Proof.
  induction 1 as [files n m Hm|c e c' Hreach IH He] using reachable_ind.
  - eapply job_invariant_start; eauto.
  - eapply exec_job_invariant; [apply reachable_wf; exact Hreach|exact IH|exact He].
Qed.


(** ** Facts about every reachable configuration *)

Lemma run_reachable files nReduce es c :
  (c0 ←o start files nReduce; run c0 es) = Ok c → reachable c.
Proof. intros H. exists files, nReduce, es. exact H. Qed.

(** X1: the parameters of a job never change: whatever calls are served,
    the reducer count and the input files are those given to
    [MakeMaster], the channel capacity is their maximum, the intermediate
    matrix has exactly one bucket per reducer, and the channel holds no
    more tasks than its capacity. *)
Theorem job_parameters_constant (files : list string) (nReduce : Z)
    (es : list Event) (c : Config) :
  (c0 ←o start files nReduce; run c0 es) = Ok c →
  0 ≤ nReduce ∧
  NReduce (master c) = nReduce ∧
  InputFiles (master c) = files ∧
  QueueCap (master c) = max nReduce (Z.of_nat (length files)) ∧
  length (MasterInterMediates (master c)) = Z.to_nat nReduce ∧
  Z.of_nat (length (TaskQueue (master c))) ≤ QueueCap (master c).
Proof.
  intros Hrun. pose proof (reachable_wf c (run_reachable _ _ _ _ Hrun)) as (H0 & Hl & Hq).
  apply obind_Ok in Hrun as (c0 & Hstart & Hrun).
  unfold start in Hstart. apply obind_Ok in Hstart as (m & Hm & [= <-]).
  rewrite MakeMaster_spec in Hm. case_bool_decide; [done|]. injection Hm as <-.
  assert (QueueCap (master c) = max nReduce (Z.of_nat (length files)) ∧
          NReduce (master c) = nReduce ∧ InputFiles (master c) = files) as (Hc & Hn & Hf).
  { revert Hrun.
    apply (run_invariant
             (λ c, QueueCap (master c) = max nReduce (Z.of_nat (length files)) ∧
                   NReduce (master c) = nReduce ∧ InputFiles (master c) = files));
      [|done].
    intros c1 e c2 (H1 & H2 & H3) He.
    apply exec_frame in He as (-> & -> & ->). done. }
  rewrite Hn in *. repeat (split; [done|]). exact Hq.
Qed.

Lemma job_parameters_constant_witness :
  ∃ c, (c0 ←o start ["a"; "b"] 1; run c0 late_goroutine_schedule) = Ok c ∧
       NReduce (master c) = 1 ∧ InputFiles (master c) = ["a"; "b"] ∧
       QueueCap (master c) = 2 ∧ length (MasterInterMediates (master c)) = 1%nat.
Proof.
  destruct (c0 ←o start ["a"; "b"] 1; run c0 late_goroutine_schedule)
    as [c| | |] eqn:Hrun; [|vm_compute in Hrun; discriminate Hrun ..].
  destruct (job_parameters_constant _ _ _ _ Hrun) as (_ & Hn & Hf & Hc & Hl & _).
  exists c. split; [reflexivity|]. repeat (split; [done|]). exact Hl.
Defined.

(** The records of a reachable state, id by id. *)
Lemma reachable_records (c : Config) (id : Z) :
  reachable c →
  (is_Some (TaskMeta (master c) !! id) ↔ 0 ≤ id < phase_size (master c)) ∧
  ∀ r, TaskMeta (master c) !! id = Some r →
       Id (TaskPtr r) = id ∧
       NReducer (TaskPtr r) = NReduce (master c) ∧
       TaskState (TaskPtr r) = (if bool_decide (Phase (master c) = Map) then Map else Reduce).
Proof.
  intros Hreach. destruct (reachable_job_invariant c Hreach) as (tasks & Hphase & Hrec & _).
  unfold phase_tasks, phase_size in *.
  assert (Z.of_nat (length tasks) =
            (if bool_decide (Phase (master c) = Map)
             then Z.of_nat (length (InputFiles (master c)))
             else NReduce (master c))) as Hlen.
  { case_bool_decide.
    - subst tasks. rewrite length_imap. done.
    - destruct Hphase as (buckets & Hb & ->). rewrite length_imap, Hb.
      pose proof (reachable_wf c Hreach) as (H0 & _). lia. }
  rewrite <- Hlen. split.
  - specialize (Hrec id).
    destruct (decide (0 ≤ id < Z.of_nat (length tasks))) as [Hin|Hout].
    + rewrite bool_decide_true in Hrec by done. split; [done|]. intros _.
      destruct (lookup_lt_is_Some_2 tasks (Z.to_nat id) ltac:(lia)) as [t Ht].
      rewrite Ht in Hrec. destruct (TaskMeta (master c) !! id); [eauto|discriminate].
    + rewrite bool_decide_false in Hrec by done. split; [|done].
      intros [r Hr]. rewrite Hr in Hrec. discriminate.
  - intros r Hr. destruct (record_tasks_elem _ _ _ _ Hrec Hr) as [Hid Ht].
    case_bool_decide.
    + subst tasks. rewrite list_lookup_imap in Ht.
      destruct (InputFiles (master c) !! Z.to_nat id); [|discriminate].
      injection Ht as <-. simpl. split; [lia|done].
    + destruct Hphase as (buckets & _ & ->). rewrite list_lookup_imap in Ht.
      destruct (buckets !! Z.to_nat id); [|discriminate].
      injection Ht as <-. simpl. split; [lia|done].
Qed.

(** X2: whatever calls are served and however the goroutines are
    scheduled, every record belongs to a task of the current phase: a
    record exists under [id] exactly for the ids [0 .. k-1], where [k] is
    the number of input files while the phase is Map and the reducer count
    afterwards, and the task it owns has that id, the job's reducer count
    and the phase's kind (Map while the phase is Map, Reduce afterwards). *)
Theorem records_dense (c : Config) :
  reachable c →
  dom (TaskMeta (master c)) = list_to_set (seqZ 0 (phase_size (master c))) ∧
  size (TaskMeta (master c)) = Z.to_nat (phase_size (master c)) ∧
  ∀ id r, TaskMeta (master c) !! id = Some r →
          Id (TaskPtr r) = id ∧
          NReducer (TaskPtr r) = NReduce (master c) ∧
          TaskState (TaskPtr r) =
            (if bool_decide (Phase (master c) = Map) then Map else Reduce).
Proof.
  intros Hreach.
  assert (dom (TaskMeta (master c)) =@{gset Z} list_to_set (seqZ 0 (phase_size (master c))))
    as Hdom.
  { apply set_eq. intros id.
    rewrite elem_of_dom, elem_of_list_to_set, elem_of_seqZ.
    rewrite (proj1 (reachable_records c id Hreach)). lia. }
  split; [exact Hdom|]. split.
  - rewrite <- size_dom, Hdom, size_list_to_set by apply NoDup_seqZ.
    apply length_seqZ.
  - intros id r Hr. exact (proj2 (reachable_records c id Hreach) r Hr).
Qed.

Lemma records_dense_witness :
  ∃ c, (c0 ←o start ["a"; "b"] 1; run c0 stale_queue_schedule) = Ok c ∧
       Phase (master c) = Reduce ∧
       dom (TaskMeta (master c)) = {[ 0 ]} ∧ size (TaskMeta (master c)) = 1%nat.
Proof.
  destruct (c0 ←o start ["a"; "b"] 1; run c0 stale_queue_schedule)
    as [c| | |] eqn:Hrun; [|vm_compute in Hrun; discriminate Hrun ..].
  pose proof Hrun as Hc. vm_compute in Hc. injection Hc as Hc.
  assert (Phase (master c) = Reduce) as Hp by (rewrite <- Hc; reflexivity).
  assert (NReduce (master c) = 1) as Hn by (rewrite <- Hc; reflexivity).
  exists c. split; [reflexivity|]. split; [exact Hp|].
  destruct (records_dense c (run_reachable _ _ _ _ Hrun)) as (Hdom & Hsize & _).
  unfold phase_size in Hdom, Hsize. rewrite Hp, Hn in Hdom, Hsize. simpl in Hdom, Hsize.
  split; [|exact Hsize]. rewrite Hdom. vm_compute seqZ. set_solver.
Defined.

(** X3: while the phase is Map, [AssignTask] cannot fail: every queued
    task is a Map task of the job and has its record, so the call returns
    either the Wait sentinel or the Map task of one of the input files. *)
Theorem AssignTask_safe_in_Map_phase (c : Config) (now : Z) :
  reachable c → Phase (master c) = Map →
  ∃ m' t,
    AssignTask now (master c) = Ok (m', t) ∧
    (t = sentinel Wait ∨
     ∃ (i : nat) file, InputFiles (master c) !! i = Some file ∧
                       t = map_task (NReduce (master c)) i file).
Proof.
  intros Hreach Hmap.
  destruct (reachable_job_invariant c Hreach) as (tasks & Hphase & Hrec & Hq).
  destruct (Hq Hmap) as [Hqueue _]. clear Hq.
  unfold phase_tasks in Hphase. rewrite bool_decide_true in Hphase by done.
  unfold AssignTask. destruct (TaskQueue (master c)) as [|t q] eqn:Hqe.
  - rewrite bool_decide_false by congruence. eexists _, _. split; [done|]. left. done.
  - assert (t ∈ tasks) as Hin by (apply Hqueue, list_elem_of_here).
    apply list_elem_of_lookup in Hin as [i Hi].
    pose proof Hi as Hi'. rewrite Hphase, list_lookup_imap in Hi'.
    destruct (InputFiles (master c) !! i) as [file|] eqn:Hfile; [|discriminate].
    injection Hi' as Ht. subst t. simpl Id.
    pose proof (Hrec (Z.of_nat i)) as Hid.
    rewrite bool_decide_true in Hid by (apply lookup_lt_Some in Hi; lia).
    rewrite Nat2Z.id, Hi in Hid.
    destruct (TaskMeta (master c) !! Z.of_nat i) as [r|]; [|discriminate].
    eexists _, _. split; [done|]. right. eauto.
Qed.

Lemma AssignTask_safe_in_Map_phase_witness :
  ∃ c m', (c0 ←o start ["a"; "b"] 1; run c0 late_report_schedule) = Ok c ∧
          AssignTask (12 * Second) (master c) = Ok (m', map_task 1 1 "b").
Proof.
  destruct (c0 ←o start ["a"; "b"] 1; run c0 late_report_schedule)
    as [c| | |] eqn:Hrun; [|vm_compute in Hrun; discriminate Hrun ..].
  pose proof Hrun as Hc. vm_compute in Hc. injection Hc as Hc.
  assert (Phase (master c) = Map) as Hp by (rewrite <- Hc; reflexivity).
  destruct (AssignTask_safe_in_Map_phase c (12 * Second) (run_reachable _ _ _ _ Hrun) Hp)
    as (m' & t & Ha & _).
  exists c, m'. split; [reflexivity|]. rewrite Ha. f_equal. f_equal.
  rewrite <- Hc in Ha. vm_compute in Ha. injection Ha as _ <-. reflexivity.
Defined.

(** X4: a report that carries the tag of the current phase crashes the
    coordinator exactly when its id is not one of the ids [0 .. k-1] of
    the phase's tasks; a report with any other tag never does. *)
Theorem TaskCompleted_panics_iff (c : Config) (task : Task) :
  reachable c →
  (TaskCompleted task (master c) = Panic ↔
   TaskState task = Phase (master c) ∧ ¬ (0 ≤ Id task < phase_size (master c))).
Proof.
  intros Hreach. pose proof (reachable_records c (Id task) Hreach) as [Hdom _].
  unfold TaskCompleted. case_bool_decide as Htag.
  - split; [done|]. intros [? _]. done.
  - assert (TaskState task = Phase (master c)) as Heq.
    { destruct (decide (TaskState task = Phase (master c))); [done|]. done. }
    destruct (TaskMeta (master c) !! Id task) as [r|] eqn:Hr.
    + split.
      * case_bool_decide; discriminate.
      * intros [_ Hout]. exfalso. apply Hout, Hdom. eauto.
    + split; [|done]. intros _. split; [done|].
      intros Hin. apply Hdom in Hin as [? ?]. discriminate.
Qed.

Lemma TaskCompleted_panics_iff_witness :
  ∃ m, MakeMaster ["a"; "b"] 1 = Ok m ∧
       TaskCompleted (mkTask 2 "" "" Map 1 []) m = Panic.
Proof.
  destruct (MakeMaster ["a"; "b"] 1) as [m| | |] eqn:Hm;
    [|vm_compute in Hm; discriminate Hm ..].
  exists m. split; [reflexivity|].
  pose proof Hm as Hv. vm_compute in Hv. injection Hv as Hv.
  apply (TaskCompleted_panics_iff (mkConfig m []) (mkTask 2 "" "" Map 1 [])).
  - apply (reachable_start _ _ _ Hm).
  - simpl. rewrite <- Hv. unfold phase_size. simpl. split; [reflexivity|lia].
Defined.


Lemma reachable_phase c :
  reachable c →
  Phase (master c) = Map ∨ Phase (master c) = Reduce ∨ Phase (master c) = Exit.
Proof.
  induction 1 as [files n m Hm|c e c' _ IH He] using reachable_ind.
  - rewrite MakeMaster_spec in Hm. case_bool_decide; [done|]. injection Hm as <-. auto.
  - destruct (decide (Phase (master c') = Phase (master c))) as [Heq|Hne].
    + rewrite Heq. exact IH.
    + destruct (phase_change_all_completed _ _ _ He Hne)
        as (i & task & _ & _ & _ & [[_ H]|[_ H]]); auto.
Qed.

(** X5: [Done] turns true only in a step in which a goroutine processes
    the result of a Reduce task while the phase is Reduce and every one of
    the R Reduce records is Completed; no RPC handler and no sweep ever
    makes the job done. *)
Theorem Done_only_when_all_reduce_completed (c c' : Config) (e : Event) :
  reachable c →
  exec c e = Ok c' →
  Done (master c) = false → Done (master c') = true →
  ∃ i task,
    e = EvProcessTaskResult i ∧ goroutines c !! i = Some task ∧
    TaskState task = Reduce ∧
    Phase (master c) = Reduce ∧
    ∀ id, 0 ≤ id < NReduce (master c) →
      ∃ r, TaskMeta (master c) !! id = Some r ∧ TaskStatus r = Completed ∧
           TaskState (TaskPtr r) = Reduce.
Proof.
  intros Hreach He Hd Hd'. unfold Done in *.
  apply bool_decide_eq_false in Hd. apply bool_decide_eq_true in Hd'.
  destruct (phase_change_all_completed c e c' He ltac:(congruence))
    as (i & task & -> & Hg & Hall & [[_ Hbad]|[Htag _]]); [congruence|].
  exists i, task. split; [done|]. split; [done|]. split; [done|].
  assert (Phase (master c) = Reduce) as Hp.
  { destruct (reachable_phase c Hreach) as [Hm|[Hr|Hx]]; [|done|done].
    destruct (reachable_job_invariant c Hreach) as (tasks & _ & _ & Hq).
    destruct (Hq Hm) as [_ Hgo].
    specialize (Hgo task (list_elem_of_lookup_2 _ _ _ Hg)). congruence. }
  split; [exact Hp|]. intros id Hid.
  pose proof (reachable_records c id Hreach) as [Hdom Hown].
  unfold phase_size in Hdom. rewrite Hp in Hdom, Hown. simpl in Hdom, Hown.
  destruct (proj2 Hdom Hid) as [r Hr]. exists r. split; [done|].
  split; [exact (Hall id r Hr)|]. apply Hown. exact Hr.
Qed.

Lemma Done_only_when_all_reduce_completed_witness :
  ∃ c c',
    (c0 ←o start ["a"; "b"] 1; run c0 (take 7 late_goroutine_schedule)) = Ok c ∧
    exec c (EvProcessTaskResult 1) = Ok c' ∧
    Done (master c) = false ∧ Done (master c') = true ∧
    ∃ r, TaskMeta (master c) !! 0 = Some r ∧ TaskStatus r = Completed.
Proof.
  destruct (c0 ←o start ["a"; "b"] 1; run c0 (take 7 late_goroutine_schedule))
    as [c| | |] eqn:Hrun; [|vm_compute in Hrun; discriminate Hrun ..].
  pose proof Hrun as Hc. vm_compute in Hc. injection Hc as Hc.
  destruct (exec c (EvProcessTaskResult 1)) as [c'| | |] eqn:He;
    [|rewrite <- Hc in He; vm_compute in He; discriminate He ..].
  pose proof He as Hc'. rewrite <- Hc in Hc'. vm_compute in Hc'. injection Hc' as Hc'.
  assert (Done (master c) = false) as Hd by (rewrite <- Hc; reflexivity).
  assert (Done (master c') = true) as Hd' by (rewrite <- Hc'; reflexivity).
  assert (NReduce (master c) = 1) as Hn by (rewrite <- Hc; reflexivity).
  destruct (Done_only_when_all_reduce_completed c c' _ (run_reachable _ _ _ _ Hrun) He Hd Hd')
    as (i & task & _ & _ & _ & _ & Hall).
  destruct (Hall 0 ltac:(lia)) as (r & Hr & Hs & _).
  exists c, c'. split; [reflexivity|]. split; [exact He|]. eauto.
Defined.

(** X6: a job created without input files never finishes.  It stays in
    phase Map with nothing queued and no record, [Done] stays false, and
    every [AssignTask] call answers Wait; a call that could change this
    (a report tagged Map) has no record to refer to and crashes the
    coordinator instead. *)
Theorem no_input_files_never_done (nReduce : Z) (es : list Event) (c : Config) :
  (c0 ←o start [] nReduce; run c0 es) = Ok c →
  Phase (master c) = Map ∧ Done (master c) = false ∧
  TaskQueue (master c) = [] ∧ TaskMeta (master c) = ∅ ∧ goroutines c = [] ∧
  (∀ now, AssignTask now (master c) = Ok (master c, sentinel Wait)) ∧
  (∀ task, TaskState task = Map → TaskCompleted task (master c) = Panic).
Proof.
  intros (c0 & Hstart & Hrun)%obind_Ok.
  unfold start in Hstart. apply obind_Ok in Hstart as (m & Hm & [= <-]).
  rewrite MakeMaster_spec in Hm. case_bool_decide; [done|]. injection Hm as <-.
  simpl in Hrun.
  assert (Phase (master c) = Map ∧ TaskQueue (master c) = [] ∧
          TaskMeta (master c) = ∅ ∧ goroutines c = []) as (Hp & Hq & Htm & Hg).
  { revert Hrun.
    apply (run_invariant (λ c, Phase (master c) = Map ∧ TaskQueue (master c) = [] ∧
                               TaskMeta (master c) = ∅ ∧ goroutines c = [])); [|done].
    clear. intros c e c' (Hp & Hq & Htm & Hg) He.
    destruct e as [now|task|i|now order]; simpl in He.
    - unfold AssignTask in He. rewrite Hq in He.
      rewrite bool_decide_false in He by congruence. injection He as <-. done.
    - unfold TaskCompleted in He. rewrite Htm, lookup_empty in He.
      case_bool_decide; [|done]. simpl in He. rewrite app_nil_r in He.
      injection He as <-. done.
    - rewrite Hg in He. simpl in He. injection He as <-. done.
    - case_bool_decide; [|injection He as <-; done].
      apply obind_Ok in He as (m' & Hs & [= <-]). simpl.
      unfold catchTimeOut in Hs. rewrite bool_decide_false in Hs by congruence.
      assert (m' = master c) as ->; [|done].
      revert Hs. generalize order. intros l. induction l as [|id l IH]; simpl.
      + intros [= <-]. done.
      + unfold catchTimeOut_body at 1. rewrite Htm, lookup_empty. simpl. exact IH. }
  split; [exact Hp|]. split; [unfold Done; rewrite Hp; done|].
  split; [exact Hq|]. split; [exact Htm|]. split; [exact Hg|]. split.
  - intros now. unfold AssignTask. rewrite Hq, Hp. done.
  - intros task Htag. unfold TaskCompleted.
    rewrite bool_decide_false by (rewrite Hp; auto). rewrite Htm, lookup_empty. done.
Qed.

Lemma no_input_files_never_done_witness :
  ∃ c, (c0 ←o start [] 3;
        run c0 [EvAssignTask 0; EvCatchTimeOut (20 * Second) [];
                EvTaskCompleted (mkTask 0 "" "" Reduce 3 []); EvProcessTaskResult 0])
       = Ok c ∧
       Done (master c) = false.
Proof.
  destruct (c0 ←o start [] 3;
            run c0 [EvAssignTask 0; EvCatchTimeOut (20 * Second) [];
                    EvTaskCompleted (mkTask 0 "" "" Reduce 3 []); EvProcessTaskResult 0])
    as [c| | |] eqn:Hrun; [|vm_compute in Hrun; discriminate Hrun ..].
  exists c. split; [reflexivity|].
  apply (no_input_files_never_done _ _ _ Hrun).
Defined.

(** X7: the intermediate matrix is append-only.  Over any sequence of
    steps the number of buckets stays the same and every bucket's earlier
    content is a prefix of its later content: no path is ever removed,
    replaced or reordered. *)
Theorem matrix_append_only (c c' : Config) (es : list Event) :
  run c es = Ok c' →
  Forall2 prefix (MasterInterMediates (master c)) (MasterInterMediates (master c')).
Proof.
  assert (∀ l : list (list string), Forall2 prefix l l) as Hrefl.
  { intros l. apply Forall2_same_length_lookup. split; [done|].
    intros i x y Hx Hy. assert (x = y) as -> by congruence. done. }
  assert (∀ paths k (im im' : list (list string)),
            collect_from k paths im = Ok im' → Forall2 prefix im im') as Hcollect.
  { induction paths as [|p paths IH]; intros k im im'; simpl.
    - intros [= <-]. apply Hrefl.
    - intros (im1 & Hb & Hrest)%obind_Ok. unfold collect_body in Hb.
      destruct (im !! k) as [old|] eqn:Hold; [|done]. injection Hb as <-.
      apply IH in Hrest.
      etransitivity; [|exact Hrest].
      apply Forall2_same_length_lookup. split; [rewrite length_insert; done|].
      intros i x y Hx Hy. destruct (decide (i = k)) as [->|Hne].
      + rewrite list_lookup_insert_eq in Hy by (eapply lookup_lt_Some; eauto).
        assert (x = old) as -> by congruence. injection Hy as <-.
        apply prefix_app_r. done.
      + rewrite list_lookup_insert_ne in Hy by done.
        assert (x = y) as -> by congruence. done. }
  apply (run_invariant
           (λ c1, Forall2 prefix (MasterInterMediates (master c)) (MasterInterMediates (master c1))));
    [|apply Hrefl].
  intros c1 e c2 Hpre He.
  etransitivity; [exact Hpre|].
  clear Hpre. destruct e as [now|task|i|now order]; simpl in He.
  - apply obind_Ok in He as ([m' t] & Ha & [= <-]). simpl.
    apply AssignTask_frame in Ha as (_ & _ & _ & _ & -> & _). apply Hrefl.
  - apply obind_Ok in He as ([m' g] & Ht & [= <-]). simpl.
    apply TaskCompleted_frame in Ht as (_ & _ & _ & _ & _ & ->). apply Hrefl.
  - destruct (goroutines c1 !! i) as [task|]; [|injection He as <-; apply Hrefl].
    apply obind_Ok in He as (m' & Hp & [= <-]). simpl.
    unfold processTaskResult in Hp. destruct (TaskState task).
    + apply obind_Ok in Hp as (im & Him & Hrest). apply Hcollect in Him.
      destruct (allTaskDone _).
      * apply obind_Ok in Hrest as (m2 & Hm2 & [= <-]).
        rewrite createReduceTask_spec in Hm2.
        destruct (bool_decide _); [|done]. injection Hm2 as <-. exact Him.
      * injection Hrest as <-. exact Him.
    + destruct (allTaskDone _); injection Hp as <-; apply Hrefl.
    + injection Hp as <-. apply Hrefl.
    + injection Hp as <-. apply Hrefl.
  - case_bool_decide; [|injection He as <-; apply Hrefl].
    apply obind_Ok in He as (m' & Hs & [= <-]). simpl.
    unfold catchTimeOut in Hs. case_bool_decide; [injection Hs as <-; apply Hrefl|].
    assert (MasterInterMediates m' = MasterInterMediates (master c1)) as ->; [|apply Hrefl].
    revert Hs.
    apply (ofold_invariant (λ m1, MasterInterMediates m1 = MasterInterMediates (master c1)));
      [|done].
    intros m1 id m2 Hm1 Hb. apply catchTimeOut_body_frame in Hb.
    destruct Hb as (_ & _ & _ & _ & -> & _). exact Hm1.
Qed.

Lemma matrix_append_only_witness :
  ∃ c c',
    (c0 ←o start ["a"; "b"] 1; run c0 (take 4 stale_queue_schedule)) = Ok c ∧
    run c (drop 4 stale_queue_schedule) = Ok c' ∧
    MasterInterMediates (master c) = [["/d/mr-0-0"]] ∧
    Forall2 prefix [["/d/mr-0-0"]] (MasterInterMediates (master c')).
Proof.
  destruct (c0 ←o start ["a"; "b"] 1; run c0 (take 4 stale_queue_schedule))
    as [c| | |] eqn:Hrun; [|vm_compute in Hrun; discriminate Hrun ..].
  pose proof Hrun as Hc. vm_compute in Hc. injection Hc as Hc.
  destruct (run c (drop 4 stale_queue_schedule)) as [c'| | |] eqn:Hrun';
    [|rewrite <- Hc in Hrun'; vm_compute in Hrun'; discriminate Hrun' ..].
  assert (MasterInterMediates (master c) = [["/d/mr-0-0"]]) as Hm
    by (rewrite <- Hc; reflexivity).
  exists c, c'. split; [reflexivity|]. split; [exact Hrun'|]. split; [exact Hm|].
  rewrite <- Hm. exact (matrix_append_only _ _ _ Hrun').
Defined.


(** ** Outcomes of the coordinator's operations *)

Lemma collect_from_too_long paths (k : nat) (im : list (list string)) :
  (k ≤ length im)%nat → (length im < k + length paths)%nat →
  collect_from k paths im = Panic.
Proof.
  revert k im. induction paths as [|p paths IH]; intros k im Hk Hlen; simpl in *; [lia|].
  unfold collect_body. destruct (im !! k) as [old|] eqn:Hold; [|done]. simpl.
  apply lookup_lt_Some in Hold.
  apply IH; rewrite length_insert; lia.
Qed.



(** X10: the Map-to-Reduce transition can block for ever.  With the mutex
    held, [processTaskResult] blocks exactly when it handles a Map report
    that fits the matrix, every record is Completed, and the channel has
    not room for one Reduce task per bucket on top of what it still
    holds. *)
Theorem processTaskResult_blocks_iff (task : Task) (m : Master) :
  master_wf m →
  (processTaskResult task m = Blocked ↔
   TaskState task = Map ∧
   (length (InterMediates task) ≤ Z.to_nat (NReduce m))%nat ∧
   map_Forall (λ _ r, TaskStatus r = Completed) (TaskMeta m) ∧
   0 < NReduce m ∧
   QueueCap m < Z.of_nat (length (TaskQueue m)) + NReduce m).
Proof.
  intros (H0 & Hlen & Hq). unfold processTaskResult.
  destruct (TaskState task) eqn:Htag.
  - destruct (decide (length (InterMediates task) ≤ Z.to_nat (NReduce m))%nat) as [Hle|Hgt].
    + destruct (collect_from_lookup (InterMediates task) 0 (MasterInterMediates m))
        as (im & Him & _); [lia|].
      rewrite Him. simpl. pose proof (collect_from_length _ _ _ _ Him) as Hl.
      unfold allTaskDone. simpl. case_bool_decide as Hall.
      * rewrite createReduceTask_spec. simpl. rewrite Hl, Hlen. case_bool_decide as Hroom.
        -- simpl. split; [done|]. intros (_ & _ & _ & Hpos & Hfull).
           destruct Hroom as [Hz|Hr]; lia.
        -- split; [|done]. intros _. repeat (split; [done|]).
           split; [|]; destruct (decide (0 < NReduce m)); try lia;
             exfalso; apply Hroom; left; lia.
      * split; [done|]. intros (_ & _ & Hall' & _). done.
    + rewrite collect_from_too_long by lia. simpl. split; [done|]. intros (_ & ? & _). lia.
  - split; [destruct (allTaskDone m); done|intros [? _]; done].
  - split; [done|intros [? _]; done].
  - split; [done|intros [? _]; done].
Qed.

Lemma processTaskResult_blocks_iff_witness :
  ∃ c, (c0 ←o start ["a"; "b"] 2; run c0 full_channel_schedule) = Ok c ∧
       goroutines c = [mkTask 1 "b" "" Map 2 ["/d/mr-1-0"; "/d/mr-1-1"]] ∧
       exec c (EvProcessTaskResult 0) = Blocked.
Proof.
  destruct (c0 ←o start ["a"; "b"] 2; run c0 full_channel_schedule)
    as [c| | |] eqn:Hrun; [|vm_compute in Hrun; discriminate Hrun ..].
  pose proof Hrun as Hc. vm_compute in Hc. injection Hc as Hc.
  pose proof (reachable_wf c (run_reachable _ _ _ _ Hrun)) as Hwf.
  assert (goroutines c = [mkTask 1 "b" "" Map 2 ["/d/mr-1-0"; "/d/mr-1-1"]]) as Hg
    by (rewrite <- Hc; reflexivity).
  exists c. split; [reflexivity|]. split; [exact Hg|].
  simpl. rewrite Hg. simpl.
  assert (allTaskDone (master c) = true) as Hall
    by (rewrite <- Hc; vm_compute; reflexivity).
  apply bool_decide_eq_true in Hall.
  rewrite (proj2 (processTaskResult_blocks_iff _ (master c) Hwf)); [done|].
  split; [done|]. split; [rewrite <- Hc; simpl; lia|]. split; [exact Hall|].
  rewrite <- Hc. simpl. lia.
Defined.

(** X11: the Map tasks are handed out in the order of the input files.
    After [k] calls of [AssignTask] on a fresh job ([k] at most the number
    of files), the tasks of the first [k] files are out, in this order,
    each record InProgress with the time of its call, the remaining tasks
    are queued in file order, and the remaining records are still Idle. *)
Theorem map_tasks_handed_out_in_order (files : list string) (nReduce : Z) (nows : list Z) :
  0 ≤ nReduce → (length nows ≤ length files)%nat →
  ∃ c,
    (c0 ←o start files nReduce; run c0 (EvAssignTask <$> nows)) = Ok c ∧
    Phase (master c) = Map ∧
    TaskQueue (master c) = drop (length nows) (imap (map_task nReduce) files) ∧
    ∀ (i : nat) file, files !! i = Some file →
      TaskMeta (master c) !! Z.of_nat i =
        Some (match nows !! i with
              | Some now => mkMasterTask InProgress now (map_task nReduce i file)
              | None => record_of (map_task nReduce i file)
              end).
Proof.
  intros HR. induction nows as [|now nows IH] using rev_ind; intros Hlen.
  - pose proof (MakeMaster_spec files nReduce) as Hm.
    rewrite bool_decide_false in Hm by lia.
    eexists. unfold start. rewrite Hm. simpl. split; [done|]. split; [done|].
    split; [done|]. intros i file Hfile.
    destruct (created_task_set map_task (λ _ _ _, eq_refl) nReduce files) as (_ & _ & Hl).
    simpl. rewrite Hl, length_imap.
    rewrite bool_decide_true by (apply lookup_lt_Some in Hfile; lia).
    rewrite Nat2Z.id, list_lookup_imap, Hfile. done.
  - rewrite length_app in Hlen. simpl in Hlen.
    destruct IH as (c & Hrun & Hphase & Hq & Hrec); [lia|].
    destruct (lookup_lt_is_Some_2 files (length nows) ltac:(lia)) as [file Hfile].
    assert (imap (map_task nReduce) files !! length nows
              = Some (map_task nReduce (length nows) file)) as Htask
      by (rewrite list_lookup_imap, Hfile; done).
    pose proof (Hrec _ _ Hfile) as Hr. rewrite lookup_ge_None_2 in Hr by lia.
    rewrite (drop_S _ _ _ Htask) in Hq.
    eexists. split; [|split; [|split]].
    + rewrite fmap_app. simpl.
      apply obind_Ok in Hrun as (c0 & Hstart & Hrun). rewrite Hstart. simpl.
      unfold run in *. rewrite ofold_snoc, Hrun. simpl.
      unfold AssignTask. rewrite Hq. simpl. rewrite Hr. simpl. reflexivity.
    + simpl. exact Hphase.
    + simpl. rewrite length_app. simpl. f_equal. lia.
    + intros i file' Hfile'. simpl.
      destruct (decide (i = length nows)) as [->|Hne].
      * rewrite lookup_insert_eq. rewrite lookup_app_r by lia.
        rewrite Nat.sub_diag. simpl.
        assert (file' = file) as -> by congruence. reflexivity.
      * rewrite lookup_insert_ne by lia. rewrite (Hrec _ _ Hfile').
        destruct (decide (i < length nows)%nat).
        -- rewrite lookup_app_l by lia. done.
        -- rewrite !lookup_ge_None_2 by (rewrite ?length_app; simpl; lia). done.
Qed.

Lemma map_tasks_handed_out_in_order_witness :
  ∃ c, (c0 ←o start ["a"; "b"; "c"] 2; run c0 [EvAssignTask 5; EvAssignTask 7]) = Ok c ∧
       TaskQueue (master c) = [map_task 2 2 "c"] ∧
       TaskMeta (master c) !! 1 = Some (mkMasterTask InProgress 7 (map_task 2 1 "b")) ∧
       TaskMeta (master c) !! 2 = Some (record_of (map_task 2 2 "c")).
Proof.
  destruct (map_tasks_handed_out_in_order ["a"; "b"; "c"] 2 [5; 7])
    as (c & Hrun & _ & Hq & Hrec); [lia|simpl; lia|].
  exists c. split; [exact Hrun|]. split; [exact Hq|].
  split; [exact (Hrec 1%nat "b" eq_refl)|exact (Hrec 2%nat "c" eq_refl)].
Defined.

(** X12: one round of the timeout sweep that visits every record, in a
    phase other than Exit, resets exactly the records that are InProgress
    and were handed out more than ten seconds ago: each of them becomes
    Idle and its task is queued again, while every other record (Idle,
    Completed, or InProgress for at most ten seconds) is left as it is.
    The queue only grows at its end.  In the Exit phase the round changes
    nothing. *)
Theorem sweep_round (now : Z) (order : list Z) (m m' : Master) :
  visits_all order m →
  catchTimeOut now order m = Ok m' →
  (Phase m = Exit → m' = m) ∧
  (Phase m ≠ Exit →
   (∃ pushed, TaskQueue m' = TaskQueue m ++ pushed) ∧
   ∀ id,
     TaskMeta m' !! id =
       (λ r, if bool_decide (TaskStatus r = InProgress ∧ 10 * Second < now - StartTime r)
             then set_TaskStatus Idle r else r) <$> TaskMeta m !! id ∧
     ∀ r, TaskMeta m !! id = Some r →
          TaskStatus r = InProgress → 10 * Second < now - StartTime r →
          TaskPtr r ∈ TaskQueue m').
Proof.
  intros [_ Hdom] Hs. split.
  - intros Hexit. unfold catchTimeOut in Hs. rewrite bool_decide_true in Hs by done.
    congruence.
  - intros Hphase. pose proof Hs as Hs'. unfold catchTimeOut in Hs'.
    rewrite bool_decide_false in Hs' by done.
    destruct (sweep_records _ _ _ _ Hs') as (pushed & Hq & Hrec).
    split; [eauto|]. intros id. specialize (Hrec id).
    destruct (TaskMeta m !! id) as [r|] eqn:Hr; simpl.
    + assert (id ∈ order) as Hin.
      { apply (elem_of_list_to_set (C := gset Z)). rewrite Hdom.
        apply elem_of_dom. eauto. }
      case_bool_decide as Hexp.
      * destruct Hexp as [Hst Hage].
        destruct (sweep_reclaims _ _ _ _ _ _ Hs Hphase Hin Hr Hst Hage) as [Hnew Hpush].
        split; [done|]. intros ? [= <-] _ _. done.
      * split.
        -- destruct Hrec as [Hrec|(? & ? & _)]; [done|]. exfalso. apply Hexp. done.
        -- intros ? [= <-] ? ?. exfalso. apply Hexp. done.
    + split; [done|]. intros ? [=].
Qed.

Lemma sweep_round_witness :
  ∃ c m',
    (c0 ←o start ["a"; "b"] 1; run c0 [EvAssignTask 0; EvAssignTask (5 * Second)]) = Ok c ∧
    catchTimeOut (11 * Second) [1; 0] (master c) = Ok m' ∧
    TaskMeta m' !! 0 = Some (record_of (map_task 1 0 "a")) ∧
    TaskMeta m' !! 1 = Some (mkMasterTask InProgress (5 * Second) (map_task 1 1 "b")) ∧
    map_task 1 0 "a" ∈ TaskQueue m'.
Proof.
  destruct (c0 ←o start ["a"; "b"] 1; run c0 [EvAssignTask 0; EvAssignTask (5 * Second)])
    as [c| | |] eqn:Hrun; [|vm_compute in Hrun; discriminate Hrun ..].
  pose proof Hrun as Hc. vm_compute in Hc. injection Hc as Hc.
  destruct (catchTimeOut (11 * Second) [1; 0] (master c)) as [m'| | |] eqn:Hs;
    [|rewrite <- Hc in Hs; vm_compute in Hs; discriminate Hs ..].
  assert (visits_all [1; 0] (master c)) as Hv.
  { rewrite <- Hc. apply (bool_decide_unpack _). vm_compute. exact I. }
  assert (Phase (master c) ≠ Exit) as Hphase by (rewrite <- Hc; discriminate).
  destruct (sweep_round _ _ _ _ Hv Hs) as [_ Hround].
  destruct (Hround Hphase) as [_ Hrec].
  exists c, m'. split; [reflexivity|]. split; [exact Hs|].
  assert (TaskMeta (master c) !! 0 = Some (mkMasterTask InProgress 0 (map_task 1 0 "a")))
    as H0 by (rewrite <- Hc; vm_compute; reflexivity).
  assert (TaskMeta (master c) !! 1
          = Some (mkMasterTask InProgress (5 * Second) (map_task 1 1 "b")))
    as H1 by (rewrite <- Hc; vm_compute; reflexivity).
  split; [|split].
  - rewrite (proj1 (Hrec 0)), H0. reflexivity.
  - rewrite (proj1 (Hrec 1)), H1. reflexivity.
  - apply (proj2 (Hrec 0) _ H0); [reflexivity|vm_compute; reflexivity].
Defined.


(** ** The Map worker: outcomes, frame and re-execution *)

Lemma mjoin_insert_snoc {A : Type} (l : list (list A)) (i : nat) (old : list A) (x : A) :
  l !! i = Some old → mjoin (<[i := old ++ [x]]> l) ≡ₚ x :: mjoin l.
Proof.
  revert i. induction l as [|a l IH]; intros [|i] Hi; simpl in *; try done.
  - injection Hi as Hi. subst a. rewrite <- app_assoc. simpl.
    symmetry. apply Permutation_middle.
  - rewrite (IH _ Hi). symmetry. apply Permutation_middle.
Qed.

Lemma mjoin_replicate_nil {A : Type} (n : nat) : mjoin (replicate n (@nil A)) = [].
Proof. induction n as [|n IH]; simpl; [done|exact IH]. Qed.

Lemma partition_loop_Permutation R kvs buffer buffer' :
  ofold (partition_body R) buffer kvs = Ok buffer' →
  mjoin buffer' ≡ₚ mjoin buffer ++ kvs.
Proof.
  revert buffer. induction kvs as [|kv kvs IH]; intros buffer; simpl.
  - intros [= <-]. rewrite app_nil_r. done.
  - intros (buffer1 & (HR & Hpos & old & Hold & ->)%partition_body_Ok & Hrest)%obind_Ok.
    rewrite (IH _ Hrest), (mjoin_insert_snoc _ _ _ _ Hold). simpl.
    apply Permutation_middle.
Qed.

(** X13: the partitioning loop of the Map worker loses and invents
    nothing: the buckets together hold exactly the pairs the user's map
    function returned (as a multiset); every bucket keeps its pairs in the
    order they were emitted, and holds only pairs whose key hashes to its
    number. *)
Theorem partition_preserves_pairs (R : Z) (kvs : list KeyValue) (buffer : list (list KeyValue)) :
  partition R kvs = Ok buffer →
  mjoin buffer ≡ₚ kvs ∧
  ∀ (b : nat) bs, buffer !! b = Some bs →
    bs `sublist_of` kvs ∧
    Forall (λ kv, Z.rem (ihash (Key kv)) R = Z.of_nat b) bs.
Proof.
  intros Hpart. split.
  - unfold partition in Hpart. apply partition_loop_Permutation in Hpart.
    rewrite mjoin_replicate_nil in Hpart. exact Hpart.
  - intros b bs Hb. destruct (partition_spec _ _ _ Hpart) as [Hlen Hbuf].
    pose proof (lookup_lt_Some _ _ _ Hb) as Hlt. rewrite Hlen in Hlt.
    rewrite (Hbuf b Hlt) in Hb. injection Hb as <-. unfold bucket. split.
    + apply sublist_filter.
    + apply Forall_forall. intros kv [Hkv _]%list_elem_of_filter. exact Hkv.
Qed.

Lemma partition_preserves_pairs_witness :
  ∃ buffer,
    partition 2 (wc_mapf "in.txt" "b a c a") = Ok buffer ∧
    mjoin buffer ≡ₚ wc_mapf "in.txt" "b a c a" ∧
    buffer !! 0%nat = Some [mkKeyValue "a" "1"; mkKeyValue "c" "1"; mkKeyValue "a" "1"].
Proof.
  destruct (partition 2 (wc_mapf "in.txt" "b a c a")) as [buffer| | |] eqn:Hp;
    [|vm_compute in Hp; discriminate Hp ..].
  exists buffer. split; [reflexivity|].
  split; [exact (proj1 (partition_preserves_pairs _ _ _ Hp))|].
  vm_compute in Hp. injection Hp as <-. reflexivity.
Defined.


Section MapOutcome.

Context (mapf : string → string → list KeyValue).
Context (json_encode : KeyValue → string) (dir : string).




Lemma mapper_frame task w ev w' :
  mapper mapf json_encode dir task w = Ok (ev, w') →
  ∀ p, (∀ b, 0 ≤ b < NReducer task → p ≠ Join dir (intermediate_name (Id task) b)) →
       files w' !! p = files w !! p.
Proof.
  intros (content & buffer & paths & Hin & HR & Hpart & Hwrite & ->)%mapper_Ok p Hp.
  apply partition_spec in Hpart as [Hlen _].
  apply write_buckets_Ok in Hwrite as (_ & _ & _ & Hframe).
  apply Hframe. intros k Hk. rewrite Z.add_0_l. apply Hp. lia.
Qed.

(** X15: a Map task that completes changes no file but its R bucket
    files: every other path (the input files, the bucket files of other
    tasks) has the content it had, and no temporary file is left
    behind.  Every bucket file exists afterwards. *)
Theorem mapper_touches_only_outputs (task : Task) (w w' : World) (ev : Event) :
  mapper mapf json_encode dir task w = Ok (ev, w') →
  (∀ p, (∀ b, 0 ≤ b < NReducer task → p ≠ Join dir (intermediate_name (Id task) b)) →
        files w' !! p = files w !! p) ∧
  (∀ b, 0 ≤ b < NReducer task →
        is_Some (files w' !! Join dir (intermediate_name (Id task) b))) ∧
  (∀ p, files w !! p = None → files w' !! p ≠ None →
        ∃ b, 0 ≤ b < NReducer task ∧ p = Join dir (intermediate_name (Id task) b)).
Proof.
  intros Hrun. split; [exact (mapper_frame _ _ _ _ Hrun)|]. split.
  - apply mapper_files in Hrun as (content & buffer & _ & _ & _ & _ & _ & Hfiles).
    intros b Hb. rewrite (Hfiles b Hb). eauto.
  - intros p Hold Hnew.
    destruct (decide (p ∈ (λ b, Join dir (intermediate_name (Id task) b)) <$>
                          seqZ 0 (NReducer task))) as [Hin|Hout].
    + apply list_elem_of_fmap in Hin as (b & -> & Hb). apply elem_of_seqZ in Hb.
      exists b. split; [lia|done].
    + exfalso. apply Hnew. rewrite (mapper_frame _ _ _ _ Hrun); [exact Hold|].
      intros b Hb ->. apply Hout. apply list_elem_of_fmap. exists b.
      split; [done|]. apply elem_of_seqZ. lia.
Qed.

(** X16: running a Map task again (as after a timeout) is harmless.  If
    the task completed once and its input is not one of its own bucket
    files, a second run on the resulting files that completes sends the
    same report and leaves every file exactly as the first run left
    it. *)
Theorem mapper_rerun_idempotent (task : Task) (w w' w2 w2' : World) (ev ev2 : Event) :
  mapper mapf json_encode dir task w = Ok (ev, w') →
  (∀ b, 0 ≤ b < NReducer task →
        resolve dir (Input task) ≠ Join dir (intermediate_name (Id task) b)) →
  files w2 = files w' →
  mapper mapf json_encode dir task w2 = Ok (ev2, w2') →
  ev2 = ev ∧ files w2' = files w'.
Proof.
  intros Hrun Hne Hsame Hrun2.
  pose proof (mapper_frame _ _ _ _ Hrun) as Hframe.
  pose proof (mapper_frame _ _ _ _ Hrun2) as Hframe2.
  apply mapper_files in Hrun as (content & buffer & Hin & _ & _ & _ & -> & Hfiles).
  apply mapper_files in Hrun2 as (content2 & buffer2 & Hin2 & _ & _ & _ & -> & Hfiles2).
  split; [done|].
  assert (content2 = content) as ->.
  { rewrite Hsame, (Hframe _ Hne), Hin in Hin2. congruence. }
  apply map_eq. intros p.
  destruct (decide (p ∈ (λ b, Join dir (intermediate_name (Id task) b)) <$>
                        seqZ 0 (NReducer task))) as [Hp|Hp].
  - apply list_elem_of_fmap in Hp as (b & -> & Hb). apply elem_of_seqZ in Hb.
    rewrite Hfiles, Hfiles2 by lia. done.
  - rewrite Hframe2, Hsame; [done|].
    intros b Hb ->. apply Hp. apply list_elem_of_fmap. exists b.
    split; [done|]. apply elem_of_seqZ. lia.
Qed.

End MapOutcome.


Lemma mapper_touches_only_outputs_witness :
  ∃ ev w', mapper wc_mapf wc_encode "/d" wc_map_task wc_world = Ok (ev, w') ∧
           files w' !! "/d/in.txt" = Some "b a c a" ∧
           files w' !! "/d/mr-tmp-x1" = None ∧
           is_Some (files w' !! "/d/mr-3-1").
Proof.
  destruct (mapper wc_mapf wc_encode "/d" wc_map_task wc_world)
    as [[ev w']| | |] eqn:Hrun; [|vm_compute in Hrun; discriminate Hrun ..].
  destruct (mapper_touches_only_outputs _ _ _ _ _ _ _ Hrun) as (Hframe & Hout & _).
  exists ev, w'. split; [reflexivity|].
  assert (∀ p, (p =? "/d/mr-3-0")%string = false → (p =? "/d/mr-3-1")%string = false →
               ∀ b, 0 ≤ b < NReducer wc_map_task →
                    p ≠ Join "/d" (intermediate_name (Id wc_map_task) b)) as Hne.
  { intros p H0 H1 b Hb ->. simpl in Hb.
    assert (b = 0 ∨ b = 1) as [->| ->] by lia.
    - vm_compute in H0. discriminate H0.
    - vm_compute in H1. discriminate H1. }
  split; [|split].
  - rewrite Hframe; [reflexivity|]. apply Hne; reflexivity.
  - rewrite Hframe; [reflexivity|]. apply Hne; reflexivity.
  - apply (Hout 1). simpl. lia.
Defined.

Lemma mapper_rerun_idempotent_witness :
  ∃ ev w' ev2 w2',
    mapper wc_mapf wc_encode "/d" wc_map_task wc_world = Ok (ev, w') ∧
    mapper wc_mapf wc_encode "/d" wc_map_task w' = Ok (ev2, w2') ∧
    ev2 = ev ∧ files w2' = files w'.
Proof.
  destruct (mapper wc_mapf wc_encode "/d" wc_map_task wc_world)
    as [[ev w']| | |] eqn:Hrun; [|vm_compute in Hrun; discriminate Hrun ..].
  pose proof Hrun as Hv. vm_compute in Hv. injection Hv as Hev Hw.
  destruct (mapper wc_mapf wc_encode "/d" wc_map_task w')
    as [[ev2 w2']| | |] eqn:Hrun2;
    [|rewrite <- Hw in Hrun2; vm_compute in Hrun2; discriminate Hrun2 ..].
  exists ev, w', ev2, w2'. split; [reflexivity|]. split; [exact Hrun2|].
  apply (mapper_rerun_idempotent wc_mapf wc_encode "/d" wc_map_task wc_world w' w' w2'
           ev ev2 Hrun); [|reflexivity|exact Hrun2].
  intros b Hb Heq. simpl in Hb.
  assert (b = 0 ∨ b = 1) as [->| ->] by lia; vm_compute in Heq; discriminate Heq.
Defined.


(** ** The Reduce worker: grouping, reading, outcomes *)

Lemma same_key_values (k : string) (run : list KeyValue) :
  Forall (λ kv, Key kv = k) run → mkKeyValue k <$> (Value <$> run) = run.
Proof.
  induction 1 as [|[k' v] run Hk _ IH]; simpl; [done|].
  simpl in Hk. subst k'. f_equal. exact IH.
Qed.

Lemma reduce_calls_flatten (n : nat) (l : list KeyValue) :
  (length l ≤ n)%nat →
  mjoin ((λ c, mkKeyValue c.1 <$> c.2) <$> reduce_calls n l) = l.
Proof.
  revert l. induction n as [|n IH]; intros [|kv rest] Hlen; simpl in *; try done; [lia|].
  destruct (same_key_run_spec (Key kv) rest) as (Happ & Hrun & _).
  destruct (same_key_run (Key kv) rest) as [run rest']. simpl in *.
  rewrite IH by (subst rest; rewrite length_app in Hlen; lia).
  change (list_fmap string KeyValue (mkKeyValue (Key kv)) (Value <$> run))
    with (mkKeyValue (Key kv) <$> (Value <$> run)).
  rewrite (same_key_values _ _ Hrun), Happ. destruct kv. done.
Qed.

Lemma reduce_calls_adjacent (n : nat) (l : list KeyValue) (i : nat) c1 c2 :
  reduce_calls n l !! i = Some c1 → reduce_calls n l !! S i = Some c2 → c1.1 ≠ c2.1.
Proof.
  revert l i. induction n as [|n IH]; intros [|kv rest] i; simpl; try done.
  destruct (same_key_run_spec (Key kv) rest) as (_ & _ & Hnext).
  destruct (same_key_run (Key kv) rest) as [run rest']. simpl in *.
  destruct i as [|i]; simpl.
  - intros [= <-]. simpl. destruct n as [|n]; [done|].
    destruct rest' as [|kv' rest'']; [done|]. simpl. intros [= <-]. simpl. congruence.
  - apply IH.
Qed.

(** X17: whatever list it is given (sorted or not), the grouping loop of
    the Reduce worker cuts it into consecutive runs of equal keys: the
    calls of the user's reduce function, written out as pairs again, are
    exactly the list, in order, so every value goes to exactly one call;
    no call has an empty value list; and neighbouring calls have
    different keys. *)
Theorem grouping_loop_partitions_input (l : list KeyValue) :
  mjoin ((λ c, mkKeyValue c.1 <$> c.2) <$> reduce_calls (length l) l) = l ∧
  Forall (λ c : string * list string, c.2 ≠ []) (reduce_calls (length l) l) ∧
  ∀ (i : nat) c1 c2,
    reduce_calls (length l) l !! i = Some c1 →
    reduce_calls (length l) l !! S i = Some c2 → c1.1 ≠ c2.1.
Proof.
  split; [apply reduce_calls_flatten; done|]. split.
  - generalize (length l). intros n. revert l.
    induction n as [|n IH]; intros [|kv rest]; simpl; try constructor; [done|apply IH].
  - intros i c1 c2. apply reduce_calls_adjacent.
Qed.

Section ReduceOutcome.

Context (reducef : string → list string → string).
Context (json_decode : string → list KeyValue).
Context (sort_ByKey : list KeyValue → list KeyValue).
Context (dir : string).

Lemma read_loop_outcome fs paths acc :
  (ofold (readFromLocalFile_body json_decode dir fs) acc paths = Fatal ↔
   ∃ p, p ∈ paths ∧ fs !! resolve dir p = None) ∧
  ofold (readFromLocalFile_body json_decode dir fs) acc paths ≠ Panic ∧
  ofold (readFromLocalFile_body json_decode dir fs) acc paths ≠ Blocked.
Proof.
  revert acc. induction paths as [|p paths IH]; intros acc; simpl.
  - split; [|done]. split; [done|]. intros (p & []%elem_of_nil & _).
  - unfold readFromLocalFile_body at 1 3 5.
    destruct (fs !! resolve dir p) as [data|] eqn:Hp; simpl.
    + destruct (IH (acc ++ json_decode data)) as (Hf & Hnp & Hnb).
      split; [|done]. rewrite Hf. split.
      * intros (q & Hq & Hnone). exists q. split; [apply list_elem_of_further|]; done.
      * intros (q & [->|Hq]%elem_of_cons & Hnone); [congruence|eauto].
    + split; [|done]. split; [|done]. intros _. exists p.
      split; [apply list_elem_of_here|done].
Qed.

Lemma read_loop_Ok fs paths datas acc :
  Forall2 (λ p data, fs !! resolve dir p = Some data) paths datas →
  ofold (readFromLocalFile_body json_decode dir fs) acc paths
    = Ok (acc ++ mjoin (json_decode <$> datas)).
Proof.
  intros Hall. revert acc. induction Hall as [|p data paths datas Hp _ IH]; intros acc; simpl.
  - rewrite app_nil_r. done.
  - unfold readFromLocalFile_body at 1. rewrite Hp. simpl.
    rewrite IH, <- app_assoc. done.
Qed.

(** X18: [readFromLocalFile] stops the worker with [log.Fatal] exactly
    when one of the listed files cannot be opened; otherwise it returns
    the pairs decoded from the files, file after file in the order of
    the list (a path listed twice is read twice).  It never panics. *)
Theorem readFromLocalFile_outcome (paths : list string) (w : World) :
  (readFromLocalFile json_decode dir paths w = Fatal ↔
   ∃ p, p ∈ paths ∧ files w !! resolve dir p = None) ∧
  readFromLocalFile json_decode dir paths w ≠ Panic ∧
  readFromLocalFile json_decode dir paths w ≠ Blocked ∧
  ∀ datas,
    Forall2 (λ p data, files w !! resolve dir p = Some data) paths datas →
    readFromLocalFile json_decode dir paths w = Ok (mjoin (json_decode <$> datas)).
Proof.
  unfold readFromLocalFile.
  destruct (read_loop_outcome (files w) paths []) as (Hf & Hnp & Hnb).
  split; [exact Hf|]. split; [exact Hnp|]. split; [exact Hnb|].
  intros datas Hall. rewrite (read_loop_Ok _ _ _ _ Hall). done.
Qed.


End ReduceOutcome.

Lemma grouping_loop_partitions_input_unsorted :
  reduce_calls 4 [mkKeyValue "a" "1"; mkKeyValue "a" "2"; mkKeyValue "b" "3"; mkKeyValue "a" "4"]
    = [("a", ["1"; "2"]); ("b", ["3"]); ("a", ["4"])].
Proof. reflexivity. Qed.

Lemma readFromLocalFile_outcome_witness :
  readFromLocalFile wc_decode "/d" ["in.txt"; "/d/none"] wc_world = Fatal ∧
  readFromLocalFile wc_decode "/d" ["in.txt"; "/d/in.txt"] wc_world
    = Ok (wc_decode "b a c a" ++ wc_decode "b a c a").
Proof.
  destruct (readFromLocalFile_outcome wc_decode "/d" ["in.txt"; "/d/none"] wc_world)
    as (Hfatal & _).
  destruct (readFromLocalFile_outcome wc_decode "/d" ["in.txt"; "/d/in.txt"] wc_world)
    as (_ & _ & _ & Hok).
  split.
  - apply Hfatal. exists "/d/none". split; [|vm_compute; reflexivity].
    apply list_elem_of_further, list_elem_of_here.
  - rewrite (Hok ["b a c a"; "b a c a"]).
    + vm_compute. reflexivity.
    + repeat constructor.
Defined.


(** X20: [ByKey.Less] is a strict order on keys in which two pairs are
    unordered exactly when their keys are equal: it is irreflexive and
    transitive, never holds in both directions, and when it holds in
    neither direction the keys are the same string.  This is what lets the
    grouping loop find all pairs of a key side by side after sorting. *)
Theorem Less_strict_total_order :
  (∀ a, Less a a = false) ∧
  (∀ a b c, Less a b = true → Less b c = true → Less a c = true) ∧
  (∀ a b, Less a b = true → Less b a = false) ∧
  (∀ a b, Less a b = false ∧ Less b a = false ↔ Key a = Key b).
Proof.
  unfold Less. split; [|split; [|split]].
  - intros a. apply ltb_false_le. reflexivity.
  - intros a b c [Hab Hne]%ltb_true_iff [Hbc Hne']%ltb_true_iff.
    apply ltb_true_iff. split; [etransitivity; eauto|].
    intros Heq. rewrite <- Heq in Hbc. apply Hne. apply (anti_symm String.le); done.
  - intros a b [Hab _]%ltb_true_iff. apply ltb_false_le. exact Hab.
  - intros a b. split.
    + intros [Hab%ltb_false_le Hba%ltb_false_le]. apply (anti_symm String.le); done.
    + intros ->. split; apply ltb_false_le; reflexivity.
Qed.



(** ** The gee router: patterns *)

Lemma Split_nonempty (s : string) : gee.Split s ≠ [].
Proof.
  induction s as [|c s IH]; simpl; [done|].
  case_bool_decide; [done|]. destruct (gee.Split s); done.
Qed.

Lemma Split_app_slash (a b : string) :
  gee.Split (a +:+ String "/" b) = gee.Split a ++ gee.Split b.
Proof.
  induction a as [|c a IH].
  - change (gee.Split (String "/" b) = [EmptyString] ++ gee.Split b). reflexivity.
  - change (gee.Split (String c (a +:+ String "/" b)) = gee.Split (String c a) ++ gee.Split b).
    simpl. case_bool_decide; [rewrite IH; done|].
    rewrite IH. pose proof (Split_nonempty a). destruct (gee.Split a); done.
Qed.

Lemma parsePattern_loop_acc (vs parts : list string) :
  gee.parsePattern_loop vs parts = parts ++ gee.parsePattern_loop vs [].
Proof.
  revert parts. induction vs as [|item vs IH]; intros parts; simpl.
  - rewrite app_nil_r. done.
  - case_bool_decide; [|apply IH].
    destruct (gee.starts_with "*" item); [done|].
    rewrite (IH (parts ++ [item])), (IH [item]), <- app_assoc. done.
Qed.

Lemma parsePattern_loop_app (l1 l2 : list string) :
  gee.parsePattern_loop (l1 ++ l2) [] =
    if existsb (gee.starts_with "*") (gee.parsePattern_loop l1 [])
    then gee.parsePattern_loop l1 []
    else gee.parsePattern_loop l1 [] ++ gee.parsePattern_loop l2 [].
Proof.
  induction l1 as [|item l1 IH]; simpl; [done|].
  case_bool_decide; [|exact IH].
  destruct (gee.starts_with "*" item) eqn:Hstar; simpl.
  - rewrite Hstar. done.
  - rewrite (parsePattern_loop_acc _ [item]), (parsePattern_loop_acc l1 [item]), IH.
    simpl. rewrite Hstar. simpl. destruct (existsb _ _); done.
Qed.

Lemma parsePattern_loop_shape (vs : list string) :
  Forall (λ p, p ≠ EmptyString) (gee.parsePattern_loop vs []) ∧
  ∀ (i : nat) p, gee.parsePattern_loop vs [] !! i = Some p →
                 gee.starts_with "*" p = true →
                 S i = length (gee.parsePattern_loop vs []).
Proof.
  induction vs as [|item vs [IHne IHstar]]; simpl.
  - split; [constructor|]. intros i p Hp. rewrite lookup_nil in Hp. done.
  - case_bool_decide as Hlen; [|done].
    assert (item ≠ EmptyString) as Hne by (intros ->; simpl in Hlen; lia).
    destruct (gee.starts_with "*" item) eqn:Hstar.
    + split; [constructor; done|]. intros [|i] p; simpl; [done|].
      intros Hp. rewrite lookup_nil in Hp. done.
    + rewrite parsePattern_loop_acc. split; [constructor; done|].
      intros [|i] p; simpl.
      * intros [= <-]. congruence.
      * intros Hp Hs. f_equal. eapply IHstar; done.
Qed.

Lemma parsePattern_nonempty (pat : string) :
  Forall (λ p, p ≠ EmptyString) (gee.parsePattern pat).
Proof. unfold gee.parsePattern. apply parsePattern_loop_shape. Qed.

Lemma Split_no_slash (s item : string) :
  item ∈ gee.Split s → "/"%char ∉ list_ascii_of_string item.
Proof.
  revert item. induction s as [|c s IH]; intros item; simpl.
  - intros ->%list_elem_of_singleton. simpl. apply not_elem_of_nil.
  - case_bool_decide as Hc.
    + intros [->|Hin]%elem_of_cons; [simpl; apply not_elem_of_nil|apply IH; done].
    + pose proof (Split_nonempty s) as Hne.
      destruct (gee.Split s) as [|item0 items]; [done|].
      intros [->|Hin]%elem_of_cons.
      * simpl. apply not_elem_of_cons. split; [congruence|].
        apply IH, list_elem_of_here.
      * apply IH, list_elem_of_further, Hin.
Qed.

Lemma parsePattern_loop_subset (vs : list string) (p : string) :
  p ∈ gee.parsePattern_loop vs [] → p ∈ vs.
Proof.
  induction vs as [|item vs IH]; simpl; [done|].
  case_bool_decide; [|intros Hp; apply list_elem_of_further, IH, Hp].
  destruct (gee.starts_with "*" item).
  - intros ->%list_elem_of_singleton. apply list_elem_of_here.
  - rewrite parsePattern_loop_acc.
    intros [->%list_elem_of_singleton|Hp]%elem_of_app; [apply list_elem_of_here|].
    apply list_elem_of_further, IH, Hp.
Qed.

(** X23: the parts [parsePattern] returns are never empty and contain no
    slash, and a part that starts with ['*'] can only be the last one:
    parsing stops there. *)
Theorem parsePattern_parts (pat : string) :
  Forall (λ p, p ≠ EmptyString ∧ "/"%char ∉ list_ascii_of_string p) (gee.parsePattern pat) ∧
  ∀ (i : nat) p, gee.parsePattern pat !! i = Some p →
                 gee.starts_with "*" p = true →
                 S i = length (gee.parsePattern pat).
Proof.
  unfold gee.parsePattern.
  destruct (parsePattern_loop_shape (gee.Split pat)) as [Hne Hstar].
  split; [|exact Hstar].
  rewrite Forall_forall in Hne |- *. intros p Hp. split; [apply Hne, Hp|].
  apply (Split_no_slash pat). apply parsePattern_loop_subset. exact Hp.
Qed.

(** X24: [parsePattern] ignores empty segments: a leading, a trailing or
    a doubled slash does not change the parts.  The parts of [a/b] are the
    parts of [a] followed by the parts of [b], unless [a] already holds a
    part that starts with ['*'], which ends the pattern. *)
Theorem parsePattern_slashes (a b : string) :
  gee.parsePattern ("/" +:+ a) = gee.parsePattern a ∧
  gee.parsePattern (a +:+ "/") = gee.parsePattern a ∧
  gee.parsePattern (a +:+ "//" +:+ b) = gee.parsePattern (a +:+ "/" +:+ b) ∧
  gee.parsePattern (a +:+ "/" +:+ b) =
    if existsb (gee.starts_with "*") (gee.parsePattern a)
    then gee.parsePattern a
    else gee.parsePattern a ++ gee.parsePattern b.
Proof.
  unfold gee.parsePattern.
  assert (∀ x y, gee.parsePattern_loop (gee.Split (x +:+ String "/" y)) [] =
                 if existsb (gee.starts_with "*") (gee.parsePattern_loop (gee.Split x) [])
                 then gee.parsePattern_loop (gee.Split x) []
                 else gee.parsePattern_loop (gee.Split x) [] ++
                      gee.parsePattern_loop (gee.Split y) []) as Happ.
  { intros x y. rewrite Split_app_slash. apply parsePattern_loop_app. }
  split; [reflexivity|]. split; [|split].
  - change (a +:+ "/") with (a +:+ String "/" EmptyString). rewrite Happ. simpl.
    rewrite app_nil_r. destruct (existsb _ _); done.
  - change (a +:+ "//" +:+ b) with (a +:+ String "/" (String "/" b)).
    change (a +:+ "/" +:+ b) with (a +:+ String "/" b).
    rewrite !Happ. done.
  - change (a +:+ "/" +:+ b) with (a +:+ String "/" b). apply Happ.
Qed.


(** ** The gee router: registration and lookup never fail *)

Lemma insert_Ok (pat : string) (parts : list string) (n : gee.Node) :
  Forall (λ p, p ≠ EmptyString) parts → ∃ n', gee.insert pat parts n = Ok n'.
Proof.
  intros Hne. revert n. induction Hne as [|p parts Hp _ IH]; intros n; simpl; [eauto|].
  destruct (gee.matchChild n p) as [[i child]|].
  - destruct (IH child) as [child' ->]. simpl. eauto.
  - destruct p as [|c p]; [done|].
    destruct (IH (gee.mkNode "" (String c p) []
                    (gee.starts_with ":" (String c p) || gee.starts_with "*" (String c p))))
      as [child' ->].
    simpl. eauto.
Qed.

(** Where the patterns in a trie come from after an insertion. *)
Lemma insert_at_depth (pat : string) (parts : list string) (n n1 : gee.Node)
    (d : nat) (x : gee.Node) :
  gee.insert pat parts n = Ok n1 →
  gee.at_depth d x n1 →
  gee.pattern x = EmptyString ∨
  (gee.pattern x = pat ∧ d = length parts) ∨
  (∃ y, gee.at_depth d y n ∧ gee.pattern y = gee.pattern x).
Proof.
  revert n n1 d x. induction parts as [|p rest IH]; intros n n1 d x; simpl.
  - intros [= <-] Hat. inversion Hat as [|d' x' c n' Hc Hbelow]; subst.
    + right. left. done.
    + right. right. exists x. split; [|done]. eapply gee.at_below; [|exact Hbelow].
      exact Hc.
  - assert (∀ cs' child child',
              gee.insert pat rest child = Ok child' →
              (∀ c, c ∈ cs' → c = child' ∨ c ∈ gee.children n) →
              (∀ y d', gee.at_depth d' y child →
                       gee.pattern y = EmptyString ∨
                       ∃ y', gee.at_depth (S d') y' n ∧ gee.pattern y' = gee.pattern y) →
              gee.at_depth d x (gee.set_children cs' n) →
              gee.pattern x = EmptyString ∨
              (gee.pattern x = pat ∧ d = length (p :: rest)) ∨
              (∃ y, gee.at_depth d y n ∧ gee.pattern y = gee.pattern x)) as Hcase.
    { intros cs' child child' Hins Hcs Hchild Hat.
      inversion Hat as [|d' x' c n' Hc Hbelow]; subst.
      - right. right. exists n. split; [constructor|done].
      - simpl in Hc. destruct (Hcs c Hc) as [->|Hold].
        + destruct (IH _ _ _ _ Hins Hbelow) as [He|[[Hp Hd]|(y & Hy & Hpy)]].
          * left. done.
          * right. left. simpl. split; [done|lia].
          * destruct (Hchild y d' Hy) as [He|(y' & Hy' & Hpy')].
            -- left. congruence.
            -- right. right. exists y'. split; [done|congruence].
        + right. right. exists x. split; [|done].
          eapply gee.at_below; [exact Hold|exact Hbelow]. }
    destruct (gee.matchChild n p) as [[i child]|] eqn:Hfind.
    + intros (child' & Hins & [= <-])%obind_Ok.
      apply list_find_Some in Hfind as (Hi & _ & _).
      apply (Hcase _ child child' Hins).
      * intros c Hc. apply list_elem_of_lookup in Hc as [j Hj].
        destruct (decide (j = i)) as [->|Hne].
        -- rewrite list_lookup_insert_eq in Hj by (eapply lookup_lt_Some; eauto).
           left. congruence.
        -- rewrite list_lookup_insert_ne in Hj by done.
           right. eapply list_elem_of_lookup_2. exact Hj.
      * intros y d' Hy. right. exists y. split; [|done].
        eapply gee.at_below; [|exact Hy]. eapply list_elem_of_lookup_2. exact Hi.
    + destruct p as [|c0 p]; [done|].
      intros (child' & Hins & [= <-])%obind_Ok.
      apply (Hcase _ _ child' Hins).
      * intros c [Hc|Hc%list_elem_of_singleton]%elem_of_app; [right; done|left; done].
      * intros y d' Hy. left.
        inversion Hy as [|d'' x' c n' Hc Hbelow]; subst; [done|].
        simpl in Hc. apply elem_of_nil in Hc. done.
Qed.

(** [search] returns a node of the trie that carries a pattern and is at
    most as deep as the path is long. *)
Lemma search_at_depth (parts : list string) (n x : gee.Node) :
  gee.search parts n = Some x →
  ∃ d, gee.at_depth d x n ∧ (d ≤ length parts)%nat ∧ gee.pattern x ≠ EmptyString.
Proof.
  assert (∀ n, gee.found n = Some x →
               ∃ d, gee.at_depth d x n ∧ (d ≤ 0)%nat ∧ gee.pattern x ≠ EmptyString)
    as Hfound.
  { intros n0. unfold gee.found. case_bool_decide as Hp; [done|]. intros [= <-].
    exists 0%nat. split; [constructor|]. split; [lia|done]. }
  revert n. induction parts as [|p rest IH]; intros n; simpl.
  - apply Hfound.
  - destruct (gee.starts_with "*" (gee.part n)).
    + intros Hf. destruct (Hfound _ Hf) as (d & Hd & Hle & Hp).
      exists d. split; [done|]. split; [lia|done].
    + unfold gee.matchChildren.
      assert (∀ cs, (∀ c, c ∈ cs → c ∈ gee.children n) →
                foldr (λ child later,
                         match gee.search rest child with
                         | Some res => Some res
                         | None => later
                         end) None cs = Some x →
                ∃ d, gee.at_depth d x n ∧ (d ≤ S (length rest))%nat ∧
                     gee.pattern x ≠ EmptyString) as Hloop.
      { induction cs as [|c cs IHcs]; intros Hsub; simpl; [done|].
        destruct (gee.search rest c) as [res|] eqn:Hc.
        - intros [= ->]. destruct (IH _ Hc) as (d & Hd & Hle & Hp).
          exists (S d). split; [|split; [lia|done]].
          eapply gee.at_below; [|exact Hd]. apply Hsub, list_elem_of_here.
        - apply IHcs. intros c' Hc'. apply Hsub, list_elem_of_further, Hc'. }
      apply Hloop. intros c [_ Hc]%list_elem_of_filter. exact Hc.
Qed.

Section RouterSafety.

Context {HandleFunc : Type}.

Lemma addRoute_inv method pat (h : HandleFunc) r :
  gee.router_inv r →
  ∃ r', gee.addRoute method pat h r = Ok r' ∧ gee.router_inv r'.
Proof.
  intros Hinv. unfold gee.addRoute.
  set (roots1 := match gee.roots r !! method with
                 | Some _ => gee.roots r
                 | None => <[method := gee.mkNode "" "" [] false]> (gee.roots r)
                 end).
  assert (∃ root, roots1 !! method = Some root ∧
            ∀ d y, gee.at_depth d y root → gee.pattern y ≠ EmptyString →
                   length (gee.parsePattern (gee.pattern y)) = d ∧
                   is_Some (gee.handlers r !! (method +:+ "-" +:+ gee.pattern y)))
    as (root & Hroot & Hold).
  { subst roots1. destruct (gee.roots r !! method) as [root|] eqn:Hm.
    - exists root. split; [done|]. intros d y. apply Hinv. done.
    - eexists. split; [apply lookup_insert_eq|]. intros d y Hy Hp.
      inversion Hy as [|d'' x' c n' Hc Hbelow]; subst; [done|].
      simpl in Hc. apply elem_of_nil in Hc. done. }
  assert (∀ m root0, m ≠ method → roots1 !! m = Some root0 → gee.roots r !! m = Some root0)
    as Hother.
  { subst roots1. intros m root0 Hne. destruct (gee.roots r !! method); [done|].
    rewrite lookup_insert_ne by done. done. }
  rewrite Hroot.
  destruct (insert_Ok pat (gee.parsePattern pat) root) as [root' Hins];
    [apply parsePattern_nonempty|].
  rewrite Hins. simpl. eexists. split; [done|].
  intros m root0 d x. simpl. intros Hm Hx Hp.
  destruct (decide (m = method)) as [->|Hne].
  - rewrite lookup_insert_eq in Hm. injection Hm as <-.
    destruct (insert_at_depth _ _ _ _ _ _ Hins Hx) as [He|[[Hpat Hd]|(y & Hy & Hpy)]].
    + done.
    + rewrite Hpat. split; [done|]. rewrite lookup_insert_eq. eauto.
    + rewrite <- Hpy in *. destruct (Hold d y Hy Hp) as [Hlen Hh].
      split; [done|]. apply lookup_insert_is_Some'. right. done.
  - rewrite lookup_insert_ne in Hm by done.
    destruct (Hinv m root0 d x (Hother _ _ Hne Hm) Hx Hp) as [Hlen Hh].
    split; [done|]. apply lookup_insert_is_Some'. right. done.
Qed.

Lemma getRoute_loop_Ok (parts : list string) (index : nat) (searchParts : list string)
    (params : gmap string string) :
  Forall (λ p, p ≠ EmptyString) parts →
  (index + length parts ≤ length searchParts)%nat →
  ∃ params', gee.getRoute_loop parts index searchParts params = Ok params'.
Proof.
  intros Hne. revert index params.
  induction Hne as [|p parts Hp _ IH]; intros index params Hlen; simpl; [eauto|].
  destruct p as [|c name]; [done|]. simpl in Hlen.
  case_bool_decide.
  - destruct (lookup_lt_is_Some_2 searchParts index ltac:(lia)) as [v ->].
    apply IH. lia.
  - destruct (_ && _).
    + rewrite bool_decide_true by lia. eauto.
    + apply IH. lia.
Qed.

Lemma handle_inv method path (r : gee.router (HandleFunc := HandleFunc)) :
  gee.router_inv r →
  (∃ params key h, gee.handle method path r = Ok (gee.RouteHandler params key (Some h))) ∨
  gee.handle method path r = Ok gee.NotFound.
Proof.
  intros Hinv. unfold gee.handle, gee.getRoute.
  destruct (gee.roots r !! method) as [root|] eqn:Hroot; [|right; done].
  destruct (gee.search (gee.parsePattern path) root) as [n|] eqn:Hs; [|right; done].
  apply search_at_depth in Hs as (d & Hd & Hle & Hp).
  destruct (Hinv _ _ _ _ Hroot Hd Hp) as [Hlen [h Hh]].
  destruct (getRoute_loop_Ok (gee.parsePattern (gee.pattern n)) 0 (gee.parsePattern path) ∅)
    as [params ->]; [apply parsePattern_nonempty|lia|].
  simpl. left. rewrite Hh. eauto.
Qed.

Lemma addRoute_handlers method pat (h : HandleFunc) r r' :
  gee.addRoute method pat h r = Ok r' →
  gee.handlers r' = <[method +:+ "-" +:+ pat := h]> (gee.handlers r).
Proof.
  unfold gee.addRoute.
  destruct (_ !! method) as [root|]; [|done].
  intros (root' & _ & [= <-])%obind_Ok. done.
Qed.

Lemma last_handler_snoc (routes : list (string * string * HandleFunc))
    (route : string * string * HandleFunc) key :
  gee.last_handler (routes ++ [route]) key =
    if decide (route.1.1 +:+ "-" +:+ route.1.2 = key)
    then Some route.2 else gee.last_handler routes key.
Proof. unfold gee.last_handler. rewrite foldl_app. done. Qed.

(** A handler found by [last_handler] was given in a registration under
    that key, and no later registration has that key. *)
Lemma last_handler_registered (routes : list (string * string * HandleFunc)) key h :
  gee.last_handler routes key = Some h →
  ∃ before route after,
    routes = before ++ route :: after ∧
    route.1.1 +:+ "-" +:+ route.1.2 = key ∧ route.2 = h ∧
    Forall (λ later, later.1.1 +:+ "-" +:+ later.1.2 ≠ key) after.
Proof.
  induction routes as [|route routes IH] using rev_ind; [done|].
  rewrite last_handler_snoc. case_decide as Hkey.
  - intros [= <-]. exists routes, route, []. done.
  - intros (before & route0 & after & -> & Hk & Hh & Hafter)%IH.
    exists before, route0, (after ++ [route]). rewrite <- app_assoc. simpl.
    split; [done|]. split; [done|]. split; [done|].
    apply Forall_app. split; [done|]. apply Forall_singleton. done.
Qed.

(** The handler table after registrations alone. *)
Lemma register_handlers (routes : list (string * string * HandleFunc)) r :
  gee.register routes gee.newRouter = Ok r →
  ∀ key, gee.handlers r !! key = gee.last_handler routes key.
Proof.
  unfold gee.register. revert r.
  induction routes as [|route routes IH] using rev_ind; intros r.
  - intros [= <-] key. simpl. apply lookup_empty.
  - rewrite ofold_snoc. intros (r0 & Hr0 & Hadd)%obind_Ok key.
    apply addRoute_handlers in Hadd. rewrite Hadd, last_handler_snoc.
    case_decide as Hkey.
    + rewrite <- Hkey. apply lookup_insert_eq.
    + rewrite lookup_insert_ne by done. apply IH. done.
Qed.

(** X25: registering routes never fails, and on a router built by
    registrations alone, dispatching a request never fails either: no
    index is out of range while the parameters are collected, and for
    every method and path [handle] selects either the 404 handler or the
    entry of the handler table under the key of the matched route.  That
    key is always present in the table, and the entry is the function
    value passed to the last registration under that key (the router
    stores what it is given and checks nothing). *)
Theorem registered_router_is_safe (routes : list (string * string * HandleFunc)) :
  ∃ r, gee.register routes gee.newRouter = Ok r ∧
       ∀ method path,
         (∃ params key h,
            gee.handle method path r = Ok (gee.RouteHandler params key (Some h)) ∧
            gee.handlers r !! key = Some h ∧
            ∃ before route after,
              routes = before ++ route :: after ∧
              route.1.1 +:+ "-" +:+ route.1.2 = key ∧ route.2 = h ∧
              Forall (λ later, later.1.1 +:+ "-" +:+ later.1.2 ≠ key) after) ∨
         gee.handle method path r = Ok gee.NotFound.
Proof.
  assert (∃ r, gee.register routes gee.newRouter = Ok r ∧ gee.router_inv r) as (r & Hr & Hinv).
  { unfold gee.register. induction routes as [|route routes IH] using rev_ind.
    - exists gee.newRouter. split; [done|]. intros m root d x Hm. simpl in Hm.
      rewrite lookup_empty in Hm. done.
    - destruct IH as (r & Hr & Hinv).
      destruct (addRoute_inv route.1.1 route.1.2 route.2 r Hinv) as (r' & Hadd & Hinv').
      exists r'. rewrite ofold_snoc, Hr. simpl. done. }
  exists r. split; [exact Hr|]. intros method path.
  destruct (handle_inv method path r Hinv) as [(params & key & h & Hh)|Hnot];
    [left|right; exact Hnot].
  exists params, key, h. split; [exact Hh|].
  assert (gee.handlers r !! key = Some h) as Hkey.
  { unfold gee.handle in Hh. apply obind_Ok in Hh as (res & _ & Hres).
    destruct res as [[n params']|]; [|discriminate Hres].
    injection Hres as _ <- Hlook. exact Hlook. }
  split; [exact Hkey|].
  apply last_handler_registered. rewrite <- (register_handlers _ _ Hr). exact Hkey.
Qed.

End RouterSafety.


Section RouteOrder.

Context {HandleFunc : Type}.

Lemma parsePattern_nonempty_pattern (pat : string) (p : string) (ps : list string) :
  gee.parsePattern pat = p :: ps → pat ≠ EmptyString.
Proof. intros Hp ->. discriminate Hp. Qed.

(** X26: the order of registration decides between a parameter route and
    a static route at the same position.  If [/:a] is registered first,
    registering [/x] afterwards overwrites the pattern of the parameter
    node, and every one-segment path is dispatched to the handler of
    [/x], with no parameters; if [/x] is registered first, a path other
    than [/x] is dispatched to the handler of [/:a] with the segment
    bound to [a]. *)
Theorem route_order_matters (m pat_param pat_static path a x seg : string)
    (h1 h2 : HandleFunc) :
  gee.parsePattern pat_param = [String ":" a] →
  gee.parsePattern pat_static = [x] →
  gee.starts_with ":" x = false → gee.starts_with "*" x = false →
  gee.parsePattern path = [seg] →
  seg ≠ x →
  (∃ r, gee.register [(m, pat_param, h1); (m, pat_static, h2)] gee.newRouter = Ok r ∧
        gee.handle m path r = Ok (gee.RouteHandler ∅ (m +:+ "-" +:+ pat_static) (Some h2))) ∧
  (∃ r, gee.register [(m, pat_static, h2); (m, pat_param, h1)] gee.newRouter = Ok r ∧
        gee.handle m path r =
          Ok (gee.RouteHandler {[a := seg]} (m +:+ "-" +:+ pat_param) (Some h1))).
Proof.
  intros Hparam Hstatic Hx1 Hx2 Hpath Hseg.
  pose proof (parsePattern_nonempty_pattern _ _ _ Hstatic) as Hne_static.
  pose proof (parsePattern_nonempty_pattern _ _ _ Hparam) as Hne_param.
  assert (x ≠ EmptyString) as Hx.
  { pose proof (parsePattern_nonempty pat_static) as Hall. rewrite Hstatic in Hall.
    apply Forall_cons in Hall as [? _]. done. }
  destruct x as [|cx x']; [done|]. simpl in Hx1, Hx2.
  apply bool_decide_eq_false in Hx1, Hx2.
  split.
  - eexists. split.
    + unfold gee.register, gee.addRoute. simpl.
      rewrite lookup_empty, lookup_insert_eq, Hparam. simpl.
      rewrite !lookup_insert_eq, Hstatic. simpl.
      unfold gee.matchChild, gee.set_children, gee.set_pattern, gee.matches. simpl.
      rewrite decide_True by (apply orb_true_r). simpl. reflexivity.
    + unfold gee.handle, gee.getRoute. simpl. rewrite lookup_insert_eq, Hpath. simpl.
      unfold gee.matchChildren, gee.matches. simpl.
      rewrite filter_cons_True by (simpl; apply orb_true_r). simpl.
      unfold gee.found. simpl. rewrite bool_decide_false by done. simpl.
      rewrite Hstatic. simpl.
      rewrite (bool_decide_false (cx = ":"%char)), (bool_decide_false (cx = "*"%char)) by done.
      simpl. rewrite lookup_insert_eq. reflexivity.
  - eexists. split.
    + unfold gee.register, gee.addRoute. simpl.
      rewrite lookup_empty, lookup_insert_eq, Hstatic. simpl.
      rewrite (bool_decide_false (cx = ":"%char)), (bool_decide_false (cx = "*"%char)) by done.
      simpl.
      rewrite !lookup_insert_eq, Hparam. simpl.
      unfold gee.matchChild, gee.set_children, gee.set_pattern, gee.matches. simpl.
      rewrite decide_False.
      2:{ rewrite orb_false_r. intros Heq. apply bool_decide_eq_true in Heq.
          injection Heq as Hc _. done. }
      simpl. reflexivity.
    + unfold gee.handle, gee.getRoute. simpl. rewrite lookup_insert_eq, Hpath. simpl.
      unfold gee.matchChildren, gee.matches. simpl.
      rewrite filter_cons_False.
      2:{ simpl. rewrite orb_false_r. intros Heq. apply bool_decide_eq_true in Heq. done. }
      rewrite filter_cons_True by (simpl; apply orb_true_r). simpl.
      unfold gee.found. simpl. rewrite bool_decide_false by done. simpl.
      rewrite Hparam. simpl. rewrite lookup_insert_eq, insert_empty. reflexivity.
Qed.

End RouteOrder.

Lemma route_order_matters_witness :
  (∃ r, gee.register [("GET", "/:name", 1%nat); ("GET", "/about", 2%nat)] gee.newRouter = Ok r ∧
        gee.handle "GET" "/bob" r = Ok (gee.RouteHandler ∅ "GET-/about" (Some 2%nat))) ∧
  (∃ r, gee.register [("GET", "/about", 2%nat); ("GET", "/:name", 1%nat)] gee.newRouter = Ok r ∧
        gee.handle "GET" "/bob" r
          = Ok (gee.RouteHandler {["name" := "bob"]} "GET-/:name" (Some 1%nat))).
Proof.
  apply (route_order_matters "GET" "/:name" "/about" "/bob" "name" "about" "bob" 1%nat 2%nat);
    try reflexivity.
  discriminate.
Defined.


(** ** The gee router: static routes *)

Lemma static_inv (n : gee.Node) :
  gee.static n →
  gee.isWild n = false ∧ gee.starts_with "*" (gee.part n) = false ∧
  NoDup (gee.part <$> gee.children n) ∧ Forall gee.static (gee.children n).
Proof. inversion 1. done. Qed.

Lemma static_matches (p : string) (c : gee.Node) :
  gee.static c → gee.matches p c = true ↔ gee.part c = p.
Proof.
  intros (Hw & _)%static_inv. unfold gee.matches. rewrite Hw, orb_false_r.
  apply bool_decide_eq_true.
Qed.

Lemma child_with_part_elem (p : string) (cs : list gee.Node) (c : gee.Node) :
  gee.child_with_part p cs = Some c → c ∈ cs ∧ gee.part c = p.
Proof.
  unfold gee.child_with_part. intros Hh.
  assert (c ∈ filter (λ c, gee.part c = p) cs) as Hin.
  { destruct (filter _ cs); simpl in Hh; [done|]. injection Hh as ->. apply list_elem_of_here. }
  apply list_elem_of_filter in Hin as [? ?]. done.
Qed.

Lemma child_with_part_None (p : string) (cs : list gee.Node) :
  gee.child_with_part p cs = None ↔ p ∉ gee.part <$> cs.
Proof.
  unfold gee.child_with_part. induction cs as [|c cs IH]; simpl.
  - split; [intros _ []%elem_of_nil|done].
  - rewrite filter_cons. destruct (decide (gee.part c = p)) as [<-|Hne]; simpl.
    + split; [done|]. intros Hn. exfalso. apply Hn, list_elem_of_here.
    + rewrite IH, not_elem_of_cons. split; [intros ?; split; done|intros [_ ?]; done].
Qed.

Lemma child_with_part_cons (p : string) (c : gee.Node) (cs : list gee.Node) :
  gee.child_with_part p (c :: cs) =
    if decide (gee.part c = p) then Some c else gee.child_with_part p cs.
Proof.
  unfold gee.child_with_part. rewrite filter_cons.
  destruct (decide (gee.part c = p)); done.
Qed.

Lemma child_with_part_snoc (p : string) (cs : list gee.Node) (c' : gee.Node) :
  gee.child_with_part p (cs ++ [c']) =
    match gee.child_with_part p cs with
    | Some y => Some y
    | None => if decide (gee.part c' = p) then Some c' else None
    end.
Proof.
  induction cs as [|c cs IH]; simpl.
  - rewrite child_with_part_cons. done.
  - rewrite !child_with_part_cons. destruct (decide (gee.part c = p)); done.
Qed.

Lemma child_with_part_insert (q : string) (cs : list gee.Node) (i : nat) (c c' : gee.Node) :
  NoDup (gee.part <$> cs) → cs !! i = Some c → gee.part c' = gee.part c →
  gee.child_with_part q (<[i := c']> cs) =
    if decide (q = gee.part c) then Some c' else gee.child_with_part q cs.
Proof.
  revert i. induction cs as [|y cs IH]; intros [|i] Hnd Hi Hpart; simpl in *; try done.
  - injection Hi as ->. rewrite !child_with_part_cons, Hpart.
    destruct (decide (gee.part c = q)) as [<-|Hne].
    + rewrite decide_True by done. done.
    + rewrite decide_False by done. done.
  - apply NoDup_cons in Hnd as [Hy Hnd].
    rewrite !child_with_part_cons, (IH i Hnd Hi Hpart).
    destruct (decide (gee.part y = q)) as [<-|Hne]; [|done].
    rewrite decide_False; [done|]. intros Heq. apply Hy. rewrite Heq.
    apply list_elem_of_fmap. exists c. split; [done|]. eapply list_elem_of_lookup_2. exact Hi.
Qed.

Lemma matchChild_static (n : gee.Node) (p : string) :
  gee.static n →
  match gee.matchChild n p with
  | Some (i, c) =>
      gee.children n !! i = Some c ∧ gee.part c = p ∧
      gee.child_with_part p (gee.children n) = Some c
  | None => gee.child_with_part p (gee.children n) = None
  end.
Proof.
  intros (_ & _ & Hnd & Hall)%static_inv. unfold gee.matchChild.
  destruct (list_find _ _) as [[i c]|] eqn:Hfind.
  - apply list_find_Some in Hfind as (Hi & Hm & Hleast).
    rewrite Forall_forall in Hall.
    apply static_matches in Hm; [|apply Hall; eapply list_elem_of_lookup_2; exact Hi].
    split; [done|]. split; [done|].
    destruct (gee.child_with_part p (gee.children n)) as [y|] eqn:Hy.
    + apply child_with_part_elem in Hy as [Hin Hpy]. f_equal.
      apply list_elem_of_lookup in Hin as [j Hj].
      assert (j = i) as ->; [|congruence].
      eapply NoDup_lookup; [exact Hnd| |]; rewrite list_lookup_fmap.
      * rewrite Hj. simpl. reflexivity.
      * rewrite Hi. simpl. congruence.
    + apply child_with_part_None in Hy. exfalso. apply Hy.
      apply list_elem_of_fmap. exists c. split; [done|]. eapply list_elem_of_lookup_2. exact Hi.
  - apply list_find_None in Hfind. apply child_with_part_None.
    intros (c & -> & Hc)%list_elem_of_fmap.
    rewrite Forall_forall in Hfind, Hall. apply (Hfind c Hc).
    apply static_matches; [apply Hall; done|done].
Qed.

Lemma insert_part (pat : string) (parts : list string) (n n' : gee.Node) :
  gee.insert pat parts n = Ok n' →
  gee.part n' = gee.part n ∧ gee.isWild n' = gee.isWild n.
Proof.
  destruct parts as [|p rest]; simpl.
  - intros [= <-]. done.
  - destruct (gee.matchChild n p) as [[i c]|].
    + intros (c' & _ & [= <-])%obind_Ok. done.
    + destruct p; [done|]. intros (c' & _ & [= <-])%obind_Ok. done.
Qed.

Lemma pattern_at_leaf (ps : list string) (p : string) (w : bool) :
  gee.pattern_at ps (gee.mkNode "" p [] w) = EmptyString.
Proof. destruct ps; reflexivity. Qed.

(** Inserting a static pattern into a static trie changes the pattern at
    its own parts and nowhere else. *)
Lemma insert_static (pat : string) (parts : list string) (n : gee.Node) :
  gee.static n → Forall gee.static_part parts →
  ∃ n', gee.insert pat parts n = Ok n' ∧ gee.static n' ∧
        ∀ ps, gee.pattern_at ps n' =
                if decide (ps = parts) then pat else gee.pattern_at ps n.
Proof.
  intros Hn Hparts. revert n Hn.
  induction Hparts as [|p rest Hp _ IH]; intros n Hn; simpl.
  - eexists. split; [done|].
    destruct (static_inv _ Hn) as (Hw & Hstar & Hnd & Hall). split.
    + constructor; done.
    + intros [|q qs]; [done|]. rewrite decide_False by done. done.
  - destruct (static_inv _ Hn) as (Hw & Hstar & Hnd & Hall).
    pose proof (matchChild_static n p Hn) as Hmatch.
    destruct (gee.matchChild n p) as [[i c]|].
    + destruct Hmatch as (Hi & Hpc & Hcwp).
      assert (gee.static c) as Hc.
      { rewrite Forall_forall in Hall. apply Hall. eapply list_elem_of_lookup_2. exact Hi. }
      destruct (IH c Hc) as (c' & Hins & Hc' & Hspec). rewrite Hins. simpl.
      destruct (insert_part _ _ _ _ Hins) as [Hpart _].
      eexists. split; [done|]. split.
      * constructor; simpl; [done|done| |].
        -- rewrite list_fmap_insert, list_insert_id; [done|].
           rewrite list_lookup_fmap, Hi, Hpart. done.
        -- apply Forall_insert; done.
      * intros [|q qs]; [rewrite decide_False by done; done|].
        unfold gee.pattern_at. simpl.
        rewrite (child_with_part_insert q _ i c c' Hnd Hi Hpart), Hpc.
        destruct (decide (q = p)) as [->|Hne]; simpl.
        -- rewrite Hcwp. simpl. fold (gee.pattern_at qs c') (gee.pattern_at qs c).
           rewrite Hspec. destruct (decide (qs = rest)) as [->|Hne].
           ++ rewrite decide_True by done. done.
           ++ rewrite decide_False by congruence. done.
        -- rewrite decide_False by congruence. done.
    + destruct Hp as (Hpne & Hcolon & Hstarp).
      destruct p as [|c0 p0]; [done|].
      set (p := String c0 p0) in *.
      change (gee.starts_with ":" p || gee.starts_with "*" p)
        with (gee.starts_with ":" p || gee.starts_with "*" p).
      rewrite Hcolon, Hstarp. simpl.
      assert (gee.static (gee.mkNode "" p [] false)) as Hleaf.
      { constructor; simpl; [done|done|constructor|constructor]. }
      destruct (IH _ Hleaf) as (c' & Hins & Hc' & Hspec). rewrite Hins. simpl.
      destruct (insert_part _ _ _ _ Hins) as [Hpart _]. simpl in Hpart.
      eexists. split; [done|]. split.
      * constructor; simpl; [done|done| |].
        -- rewrite fmap_app. simpl. apply NoDup_app. split; [done|].
           split; [|apply NoDup_singleton].
           intros q Hq Hq'. apply list_elem_of_singleton in Hq'. subst q.
           apply child_with_part_None in Hmatch. apply Hmatch. rewrite <- Hpart. exact Hq.
        -- apply Forall_app. split; [done|]. constructor; [done|constructor].
      * intros [|q qs]; [rewrite decide_False by done; done|].
        unfold gee.pattern_at. simpl.
        rewrite child_with_part_snoc, Hpart.
        destruct (decide (q = p)) as [->|Hne].
        -- rewrite Hmatch. rewrite decide_True by done. simpl.
           fold (gee.pattern_at qs c'). rewrite Hspec, pattern_at_leaf.
           destruct (decide (qs = rest)) as [->|Hne].
           ++ rewrite decide_True by done. done.
           ++ rewrite decide_False by congruence. done.
        -- rewrite (decide_False (P := p = q)) by done.
           rewrite (decide_False (P := q :: qs = p :: rest)) by congruence.
           destruct (gee.child_with_part q (gee.children n)); done.
Qed.

Lemma filter_none {A : Type} (P : A → Prop) `{∀ x, Decision (P x)} (l : list A) :
  Forall (λ x, ¬ P x) l → filter P l = [].
Proof.
  induction 1 as [|x l Hx _ IH]; [done|]. rewrite filter_cons_False by done. exact IH.
Qed.

(** On a static trie, [search] follows the parts of the path. *)
Lemma search_static (parts : list string) (n : gee.Node) :
  gee.static n → gee.search parts n = gee.node_at parts n ≫= gee.found.
Proof.
  revert n. induction parts as [|p rest IH]; intros n Hn; simpl; [done|].
  destruct (static_inv _ Hn) as (_ & -> & Hnd & Hall).
  unfold gee.matchChildren.
  assert (∀ cs, Forall gee.static cs → NoDup (gee.part <$> cs) →
            foldr (λ child later,
                     match gee.search rest child with
                     | Some res => Some res
                     | None => later
                     end) None (filter (λ child, gee.matches p child = true) cs)
            = gee.child_with_part p cs ≫= gee.search rest) as Hloop.
  { induction cs as [|c cs IHcs]; intros Hcs Hndcs; [done|].
    apply Forall_cons in Hcs as [Hc Hcs]. simpl in Hndcs.
    apply NoDup_cons in Hndcs as [Hnotin Hndcs].
    rewrite filter_cons, child_with_part_cons.
    destruct (decide (gee.part c = p)) as [Hpc|Hpc].
    - rewrite decide_True by (apply static_matches; done). simpl.
      assert (filter (λ child, gee.matches p child = true) cs = []) as ->.
      { apply filter_none. rewrite Forall_forall in Hcs |- *.
        intros y Hy Hm. apply static_matches in Hm; [|apply Hcs; done].
        apply Hnotin. rewrite Hpc, <- Hm. apply list_elem_of_fmap. eauto. }
      simpl. destruct (gee.search rest c); done.
    - rewrite decide_False by (rewrite static_matches by done; done).
      apply IHcs; done. }
  rewrite (Hloop _ Hall Hnd).
  destruct (gee.child_with_part p (gee.children n)) as [c|] eqn:Hc; simpl; [|done].
  apply IH. rewrite Forall_forall in Hall. apply Hall.
  apply child_with_part_elem in Hc as [? _]. done.
Qed.


Section StaticRoutes.

Context {HandleFunc : Type}.

Implicit Types routes : list (string * string * HandleFunc).

Lemma last_pattern_snoc routes (route : string * string * HandleFunc) method parts :
  gee.last_pattern (routes ++ [route]) method parts =
    if decide (route.1.1 = method ∧ gee.parsePattern route.1.2 = parts)
    then route.1.2 else gee.last_pattern routes method parts.
Proof. unfold gee.last_pattern. rewrite foldl_app. done. Qed.

Lemma last_pattern_registered routes method parts :
  gee.last_pattern routes method parts = EmptyString ∨
  ∃ route, route ∈ routes ∧ route.1.2 = gee.last_pattern routes method parts ∧
           gee.parsePattern route.1.2 = parts.
Proof.
  induction routes as [|route routes IH] using rev_ind; [left; done|].
  rewrite last_pattern_snoc. case_decide as Hd.
  - right. exists route. split; [apply elem_of_app; right; apply list_elem_of_here|].
    destruct Hd. done.
  - destruct IH as [?|(route' & Hin & ? & ?)]; [left; done|right].
    exists route'. split; [apply elem_of_app; left; done|done].
Qed.

Lemma register_static routes :
  Forall (λ route, Forall gee.static_part (gee.parsePattern route.1.2)) routes →
  ∃ r, gee.register routes gee.newRouter = Ok r ∧ gee.static_router_inv routes r.
Proof.
  unfold gee.register. induction routes as [|[[m0 pat0] h0] routes IH] using rev_ind.
  - intros _. exists gee.newRouter. split; [done|]. split.
    + intros method. simpl. rewrite lookup_empty. done.
    + intros key. simpl. rewrite lookup_empty. done.
  - intros [Hroutes Hlast]%Forall_app. apply Forall_cons in Hlast as [Hstatic _].
    simpl in Hstatic.
    destruct (IH Hroutes) as (r & Hr & Hroots & Hhandlers). clear IH.
    rewrite ofold_snoc, Hr. simpl. unfold gee.addRoute.
    set (roots1 := match gee.roots r !! m0 with
                   | Some _ => gee.roots r
                   | None => <[m0 := gee.mkNode "" "" [] false]> (gee.roots r)
                   end).
    assert (∃ root, roots1 !! m0 = Some root ∧ gee.static root ∧
              ∀ ps, gee.pattern_at ps root = gee.last_pattern routes m0 ps)
      as (root & Hroot & Hsroot & Hproot).
    { subst roots1. specialize (Hroots m0).
      destruct (gee.roots r !! m0) as [root|] eqn:Hm.
      - exists root. done.
      - eexists. split; [apply lookup_insert_eq|]. split.
        + constructor; simpl; [done|done|constructor|constructor].
        + intros ps. rewrite pattern_at_leaf, Hroots. done. }
    assert (∀ m, m ≠ m0 → roots1 !! m = gee.roots r !! m) as Hother.
    { subst roots1. intros m Hne. destruct (gee.roots r !! m0); [done|].
      rewrite lookup_insert_ne by done. done. }
    rewrite Hroot.
    destruct (insert_static pat0 (gee.parsePattern pat0) root Hsroot Hstatic)
      as (root' & Hins & Hsroot' & Hproot').
    rewrite Hins. simpl. eexists. split; [done|]. split.
    + intros method. simpl. destruct (decide (method = m0)) as [->|Hne].
      * rewrite lookup_insert_eq. split; [done|]. intros ps.
        rewrite Hproot', last_pattern_snoc, Hproot. simpl.
        destruct (decide (ps = gee.parsePattern pat0)) as [->|Hps].
        -- rewrite decide_True by done. done.
        -- rewrite decide_False; [done|]. intros [_ ?]. done.
      * rewrite lookup_insert_ne, Hother by done. specialize (Hroots method).
        destruct (gee.roots r !! method) as [root0|].
        -- destruct Hroots as [Hs Hp]. split; [done|]. intros ps.
           rewrite last_pattern_snoc, decide_False; [apply Hp|]. simpl. intros [? _]. done.
        -- intros ps. rewrite last_pattern_snoc, decide_False; [apply Hroots|].
           simpl. intros [? _]. done.
    + intros key. simpl. rewrite last_handler_snoc. simpl.
      destruct (decide (m0 +:+ "-" +:+ pat0 = key)) as [<-|Hne].
      * rewrite lookup_insert_eq. done.
      * rewrite lookup_insert_ne by done. apply Hhandlers.
Qed.

Lemma getRoute_loop_static (parts : list string) (index : nat) (searchParts : list string)
    (params : gmap string string) :
  Forall gee.static_part parts →
  gee.getRoute_loop parts index searchParts params = Ok params.
Proof.
  intros Hparts. revert index.
  induction Hparts as [|p parts (Hne & Hcolon & Hstar) _ IH]; intros index; simpl; [done|].
  destruct p as [|c name]; [done|]. simpl in Hcolon, Hstar.
  rewrite Hcolon, Hstar. simpl. apply IH.
Qed.

(** X27: routing with static routes only.  After any sequence of
    registrations whose patterns have no parameter or wildcard part, a
    request is dispatched by the parts of its path: to the route
    registered last among those of its method whose pattern has exactly
    these parts, with no parameters and with the handler stored last
    under that route's key; and to the 404 handler if there is no such
    route, or if that route's pattern is the empty string. *)
Theorem static_routes_dispatch routes :
  Forall (λ route, Forall gee.static_part (gee.parsePattern route.1.2)) routes →
  ∃ r, gee.register routes gee.newRouter = Ok r ∧
       ∀ method path,
         gee.handle method path r =
           Ok (let pat := gee.last_pattern routes method (gee.parsePattern path) in
               if decide (pat = EmptyString) then gee.NotFound
               else gee.RouteHandler ∅ (method +:+ "-" +:+ pat)
                      (gee.last_handler routes (method +:+ "-" +:+ pat))).
Proof.
  intros Hstatic. destruct (register_static routes Hstatic) as (r & Hr & Hroots & Hhandlers).
  exists r. split; [exact Hr|]. intros method path. simpl.
  unfold gee.handle, gee.getRoute. specialize (Hroots method).
  destruct (gee.roots r !! method) as [root|].
  - destruct Hroots as [Hs Hp]. rewrite (search_static _ _ Hs).
    specialize (Hp (gee.parsePattern path)). unfold gee.pattern_at in Hp.
    destruct (gee.node_at (gee.parsePattern path) root) as [x|]; simpl in *.
    + unfold gee.found. rewrite <- Hp.
      destruct (decide (gee.pattern x = EmptyString)) as [He|Hne].
      * rewrite bool_decide_true by done. done.
      * rewrite bool_decide_false by done. simpl.
        rewrite getRoute_loop_static; [simpl; rewrite Hhandlers; done|].
        destruct (last_pattern_registered routes method (gee.parsePattern path))
          as [He|(route & Hin & Hpat & _)]; [congruence|].
        rewrite Hp, <- Hpat. rewrite Forall_forall in Hstatic. apply Hstatic. done.
    + rewrite <- Hp. done.
  - simpl. rewrite Hroots. done.
Qed.

End StaticRoutes.

Lemma static_routes_dispatch_witness :
  ∃ r, gee.register [("GET", "/a", 1%nat); ("GET", "/a/b", 2%nat); ("GET", "a/", 3%nat)]
         gee.newRouter = Ok r ∧
       gee.handle "GET" "/a" r = Ok (gee.RouteHandler ∅ "GET-a/" (Some 3%nat)) ∧
       gee.handle "GET" "//a/b/" r = Ok (gee.RouteHandler ∅ "GET-/a/b" (Some 2%nat)) ∧
       gee.handle "GET" "/b" r = Ok gee.NotFound.
Proof.
  destruct (static_routes_dispatch
              [("GET", "/a", 1%nat); ("GET", "/a/b", 2%nat); ("GET", "a/", 3%nat)])
    as (r & Hr & Hhandle).
  - repeat constructor; discriminate.
  - exists r. split; [exact Hr|]. rewrite !Hhandle. repeat split; reflexivity.
Defined.


(** ** The channel during the Map phase *)

Lemma ofold_total {A B : Type} (P : A → Prop) (f : A → B → outcome A) :
  (∀ a b, P a → ∃ a', f a b = Ok a' ∧ P a') →
  ∀ l a, P a → ∃ a', ofold f a l = Ok a' ∧ P a'.
Proof.
  intros Hstep l. induction l as [|b l IH]; intros a Ha; simpl; [eauto|].
  destruct (Hstep a b Ha) as (a1 & -> & Ha1). simpl. apply IH. exact Ha1.
Qed.

Lemma map_task_lookup_Id (n : Z) (files : list string) (k : nat) (t : Task) :
  imap (map_task n) files !! k = Some t → Id t = Z.of_nat k.
Proof.
  rewrite list_lookup_imap. destruct (files !! k); [|done]. intros [= <-]. done.
Qed.

Lemma map_task_elem_Id (n : Z) (files : list string) (t : Task) :
  t ∈ imap (map_task n) files → 0 ≤ Id t < Z.of_nat (length files).
Proof.
  intros [k Hk]%list_elem_of_lookup. rewrite (map_task_lookup_Id _ _ _ _ Hk).
  apply lookup_lt_Some in Hk. rewrite length_imap in Hk. lia.
Qed.

(** One visit of the sweep, in the Map phase, on a channel with room for
    every Map task. *)
Lemma catchTimeOut_body_Map (now : Z) (n : Z) (files : list string) (m : Master) (id : Z) :
  let P := λ m1 : Master,
    queue_fresh m1 ∧
    record_tasks (imap (map_task n) files) (TaskMeta m1) ∧
    (∀ t, t ∈ TaskQueue m1 → t ∈ imap (map_task n) files) ∧
    Z.of_nat (length files) ≤ QueueCap m1 in
  P m → ∃ m', catchTimeOut_body now m id = Ok m' ∧ P m'.
Proof.
  intros P ([Hnd Hst] & Hrec & Hq & Hcap). unfold catchTimeOut_body.
  destruct (TaskMeta m !! id) as [r|] eqn:Hr; [|eexists; split; [done|]; done].
  destruct (bool_decide (TaskStatus r = InProgress)) eqn:Hs; simpl;
    [|eexists; split; [done|]; done].
  destruct (bool_decide (10 * Second < now - StartTime r)); simpl;
    [|eexists; split; [done|]; done].
  apply bool_decide_eq_true in Hs.
  destruct (record_tasks_elem _ _ _ _ Hrec Hr) as [Hrange Hptr].
  pose proof (map_task_lookup_Id _ _ _ _ Hptr) as Hid. rewrite Z2Nat.id in Hid by lia.
  assert (id ∉ Id <$> TaskQueue m) as Hnotin.
  { intros (t & -> & Ht)%list_elem_of_fmap. exact (Hst t r Ht Hr Hs). }
  assert (Z.of_nat (length (TaskQueue m)) < Z.of_nat (length files)) as Hroom.
  { assert (id :: (Id <$> TaskQueue m) ⊆+ seqZ 0 (Z.of_nat (length files))) as Hsub.
    { apply NoDup_submseteq; [constructor; done|].
      intros x [->|(t & -> & Ht)%list_elem_of_fmap]%elem_of_cons; apply elem_of_seqZ.
      - rewrite length_imap in Hrange. lia.
      - pose proof (map_task_elem_Id _ _ _ (Hq t Ht)). lia. }
    apply submseteq_length in Hsub. simpl in Hsub.
    rewrite length_fmap, length_seqZ in Hsub. lia. }
  unfold send. rewrite bool_decide_true by lia. simpl.
  eexists. split; [done|]. unfold P, queue_fresh. simpl. split; [split|split; [|split]].
  - rewrite fmap_app. simpl. apply NoDup_app. split; [done|]. split.
    + intros x Hx Hx'. apply list_elem_of_singleton in Hx'. subst x. rewrite Hid in Hx. done.
    + apply NoDup_singleton.
  - intros t r' Ht Hr'. destruct (decide (Id t = id)) as [Heq|Hne].
    + rewrite Heq, lookup_insert_eq in Hr'. injection Hr' as <-. simpl. done.
    + rewrite lookup_insert_ne in Hr' by done.
      apply elem_of_app in Ht as [Ht|Ht%list_elem_of_singleton]; [eauto|].
      subst t. done.
  - eapply record_tasks_insert; [exact Hr|done|exact Hrec].
  - intros t [Ht|Ht%list_elem_of_singleton]%elem_of_app; [auto|]. subst t.
    eapply list_elem_of_lookup_2. exact Hptr.
  - exact Hcap.
Qed.

Lemma reachable_cap c :
  reachable c → Z.of_nat (length (InputFiles (master c))) ≤ QueueCap (master c).
Proof.
  induction 1 as [files n m Hm|c e c' _ IH He] using reachable_ind.
  - rewrite MakeMaster_spec in Hm. case_bool_decide; [done|]. injection Hm as <-. simpl.
    apply max_ge_r.
  - destruct (exec_frame _ _ _ He) as (-> & _ & ->). exact IH.
Qed.

Lemma exec_map_queue_invariant c e c' :
  reachable c → map_queue_invariant c → exec c e = Ok c' → map_queue_invariant c'.
Proof.
  intros Hreach Hinv He Hmap'.
  pose proof (exec_phase_Map _ _ _ He Hmap') as Hmap.
  destruct (Hinv Hmap) as [Hnd Hst].
  destruct (reachable_job_invariant _ Hreach) as (tasks & Hphase & Hrec & Hjob).
  destruct (Hjob Hmap) as [Hq Hgo].
  unfold phase_tasks in Hphase. rewrite bool_decide_true in Hphase by done. subst tasks.
  destruct e as [now|task|i|now order]; simpl in He.
  - apply obind_Ok in He as ([m' t] & Ha & [= <-]). simpl in *.
    unfold AssignTask in Ha. destruct (TaskQueue (master c)) as [|t0 q] eqn:Hqueue.
    { assert (m' = master c) as -> by (case_bool_decide; injection Ha as <- _; done).
      unfold queue_fresh. rewrite Hqueue. done. }
    destruct (TaskMeta (master c) !! Id t0) as [r|] eqn:Hr; [|done].
    injection Ha as <- <-. unfold queue_fresh. simpl in *.
    apply NoDup_cons in Hnd as [Hnotin Hnd]. split; [exact Hnd|].
    intros t r' Ht Hr'. rewrite lookup_insert_ne in Hr'.
    + eapply Hst; [apply list_elem_of_further; exact Ht|exact Hr'].
    + intros Heq. apply Hnotin. rewrite Heq. apply list_elem_of_fmap. eauto.
  - apply obind_Ok in He as ([m' g] & Ht & [= <-]). simpl in *.
    unfold TaskCompleted in Ht. case_bool_decide as Htag.
    { injection Ht as <- <-. done. }
    destruct (TaskMeta (master c) !! Id task) as [r|] eqn:Hr; [|done].
    case_bool_decide; injection Ht as <- <-; [done|].
    unfold queue_fresh. simpl. split; [exact Hnd|].
    intros t r' Hin Hr'. destruct (decide (Id t = Id task)) as [Heq|Hne].
    + rewrite Heq, lookup_insert_eq in Hr'. injection Hr' as <-. done.
    + rewrite lookup_insert_ne in Hr' by done. eauto.
  - destruct (goroutines c !! i) as [task|] eqn:Hg.
    2:{ injection He as <-. done. }
    apply obind_Ok in He as (m' & Hp & [= <-]). simpl in *.
    unfold processTaskResult in Hp. destruct (TaskState task) eqn:Htag.
    + apply obind_Ok in Hp as (im & Him & Hrest).
      destruct (allTaskDone _).
      * apply obind_Ok in Hrest as (m2 & Hm2 & [= <-]). simpl in Hmap'. done.
      * injection Hrest as <-. done.
    + specialize (Hgo task (list_elem_of_lookup_2 _ _ _ Hg)). congruence.
    + injection Hp as <-. done.
    + injection Hp as <-. done.
  - case_bool_decide; [|injection He as <-; done].
    apply obind_Ok in He as (m' & Hs & [= <-]). simpl in *.
    unfold catchTimeOut in Hs. rewrite bool_decide_false in Hs by congruence.
    destruct (ofold_total _ _ (catchTimeOut_body_Map now (NReduce (master c))
                                 (InputFiles (master c))) order (master c))
      as (m'' & Hm'' & Hfresh & _).
    { split; [done|]. split; [done|]. split; [done|]. apply reachable_cap. done. }
    cbv beta in Hm''. rewrite Hs in Hm''. injection Hm'' as <-. exact Hfresh.
Qed.

Lemma reachable_map_queue_invariant c : reachable c → map_queue_invariant c.
Proof.
  induction 1 as [files n m Hm|c e c' Hreach IH He] using reachable_ind.
  - rewrite MakeMaster_spec in Hm. case_bool_decide; [done|]. injection Hm as <-.
    intros _. unfold queue_fresh. simpl. split.
    + destruct (created_task_set map_task (λ _ _ _, eq_refl) n files) as (-> & _ & _).
      apply NoDup_seqZ.
    + intros t r Ht Hr.
      destruct (created_task_set map_task (λ _ _ _, eq_refl) n files) as (_ & _ & Hl).
      rewrite Hl in Hr. case_bool_decide; [|done].
      destruct (imap _ _ !! _); [|done]. injection Hr as <-. done.
  - eapply exec_map_queue_invariant; eauto.
Qed.

(** X28: as long as the phase is Map, the timeout sweep cannot block or
    crash the coordinator.  In every state a job can reach before the
    Reduce tasks are created, a round of the sweep (in any visiting order)
    runs to its end: the channel never holds a task twice nor a task that
    is out with a worker, so there is room for every task it puts
    back. *)
Theorem sweep_completes_in_Map_phase (c : Config) (now : Z) (order : list Z) :
  reachable c → Phase (master c) = Map →
  ∃ m', catchTimeOut now order (master c) = Ok m' ∧
        Phase m' = Map ∧ queue_fresh m' ∧
        (length (TaskQueue m') ≤ length (InputFiles (master c)))%nat.
Proof.
  intros Hreach Hmap.
  destruct (reachable_job_invariant _ Hreach) as (tasks & Hphase & Hrec & Hjob).
  destruct (Hjob Hmap) as [Hq _].
  unfold phase_tasks in Hphase. rewrite bool_decide_true in Hphase by done. subst tasks.
  unfold catchTimeOut. rewrite bool_decide_false by congruence.
  destruct (ofold_total
              (λ m1, (queue_fresh m1 ∧
                      record_tasks (imap (map_task (NReduce (master c)))
                                         (InputFiles (master c))) (TaskMeta m1) ∧
                      (∀ t, t ∈ TaskQueue m1 →
                            t ∈ imap (map_task (NReduce (master c))) (InputFiles (master c))) ∧
                      Z.of_nat (length (InputFiles (master c))) ≤ QueueCap m1) ∧
                     Phase m1 = Map)
              (catchTimeOut_body now)) with (l := order) (a := master c)
    as (m' & Hm' & (Hfresh & _ & Hq' & _) & Hphase').
  - intros m1 id [HP Hph].
    destruct (catchTimeOut_body_Map now _ _ m1 id HP) as (m2 & Hb & HP2).
    exists m2. split; [exact Hb|]. split; [exact HP2|].
    apply catchTimeOut_body_frame in Hb. destruct Hb as (_ & -> & _). exact Hph.
  - split; [|exact Hmap]. split; [|split; [done|split; [done|apply reachable_cap; done]]].
    apply (reachable_map_queue_invariant _ Hreach Hmap).
  - exists m'. split; [exact Hm'|]. split; [exact Hphase'|]. split; [exact Hfresh|].
    destruct Hfresh as [Hnd _].
    assert (Id <$> TaskQueue m' ⊆+ seqZ 0 (Z.of_nat (length (InputFiles (master c)))))
      as Hsub.
    { apply NoDup_submseteq; [done|].
      intros x (t & -> & Ht)%list_elem_of_fmap. apply elem_of_seqZ.
      pose proof (map_task_elem_Id _ _ _ (Hq' t Ht)). lia. }
    apply submseteq_length in Hsub. rewrite length_fmap, length_seqZ in Hsub. lia.
Qed.

Lemma sweep_completes_in_Map_phase_witness :
  ∃ c m',
    (c0 ←o start ["a"; "b"] 1; run c0 [EvAssignTask 0; EvAssignTask 0]) = Ok c ∧
    catchTimeOut (11 * Second) [0; 1] (master c) = Ok m' ∧
    length (TaskQueue m') = 2%nat.
Proof.
  destruct (c0 ←o start ["a"; "b"] 1; run c0 [EvAssignTask 0; EvAssignTask 0])
    as [c| | |] eqn:Hrun; [|vm_compute in Hrun; discriminate Hrun ..].
  pose proof Hrun as Hc. vm_compute in Hc. injection Hc as Hc.
  assert (Phase (master c) = Map) as Hmap by (rewrite <- Hc; reflexivity).
  destruct (sweep_completes_in_Map_phase c (11 * Second) [0; 1]
              (run_reachable _ _ _ _ Hrun) Hmap) as (m' & Hs & _ & _ & _).
  exists c, m'. split; [reflexivity|]. split; [exact Hs|].
  rewrite <- Hc in Hs. vm_compute in Hs. injection Hs as <-. reflexivity.
Defined.


(** ** From a Map task to a Reduce task *)

Lemma values_of_bucket (R b : Z) (k : string) (kvs : list KeyValue) :
  Z.rem (ihash k) R = b → values_of k (bucket R b kvs) = values_of k kvs.
Proof.
  intros Hk. unfold values_of, bucket. f_equal.
  induction kvs as [|kv kvs IH]; [done|].
  rewrite !filter_cons. destruct (decide (Key kv = k)) as [Heq|Hne].
  - rewrite decide_True by (rewrite Heq; exact Hk).
    rewrite filter_cons_True by done. f_equal. exact IH.
  - destruct (decide (Z.rem (ihash (Key kv)) R = b)); [|exact IH].
    rewrite filter_cons_False by done. exact IH.
Qed.

Section MapThenReduce.

Context (mapf : string → string → list KeyValue).
Context (reducef : string → list string → string).
Context (json_encode : KeyValue → string) (json_decode : string → list KeyValue).
Context (sort_ByKey : list KeyValue → list KeyValue).
Context (dir : string).

Hypothesis sort_Permutation : ∀ l, sort_ByKey l ≡ₚ l.
Hypothesis sort_sorted : ∀ l, sorted_ByKey (sort_ByKey l).

(** X29: the two workers compose through the file system.  Let a Map
    task complete, and let a Reduce task then run on the path the Map
    worker reported for bucket [b], where decoding gives back the pairs
    that were encoded into that file.  Then the output file of the
    Reduce task holds one line per key of the Map function's output
    that hashes to bucket [b], in strictly ascending key order, each
    computed by the Reduce function from all the values the Map
    function emitted for that key. *)
Theorem map_then_reduce (task rtask : Task) (b : Z) (w w1 w2 : World) (ev ev' : Event) :
  is_abs dir = true →
  mapper mapf json_encode dir task w = Ok (ev, w1) →
  0 ≤ b < NReducer task →
  (∀ content, files w !! resolve dir (Input task) = Some content →
     let kvs := bucket (NReducer task) b (mapf (Input task) content) in
     json_decode (concat_strings (json_encode <$> kvs)) = kvs) →
  InterMediates rtask = [Join dir (intermediate_name (Id task) b)] →
  reducer reducef json_decode sort_ByKey dir rtask w1 = Ok (ev', w2) →
  ∃ content calls,
    files w !! resolve dir (Input task) = Some content ∧
    files w2 !! Join dir (output_name (Id rtask)) =
      Some (concat_strings (output_line reducef <$> calls)) ∧
    keys_ascending calls.*1 ∧
    (∀ k, k ∈ calls.*1 ↔
          ∃ kv, kv ∈ mapf (Input task) content ∧ Key kv = k ∧
                Z.rem (ihash k) (NReducer task) = b) ∧
    ∀ k vs, (k, vs) ∈ calls → vs ≡ₚ values_of k (mapf (Input task) content).
Proof.
  intros Habs Hmap Hb Hcodec Hpaths Hred.
  apply mapper_files in Hmap as (content & buffer & Hin & _ & _ & _ & _ & Hfiles).
  specialize (Hfiles b Hb). specialize (Hcodec content Hin). simpl in Hcodec.
  unfold reducer, readFromLocalFile in Hred. rewrite Hpaths in Hred.
  apply obind_Ok in Hred as (kva & Hread & ([tmp w'] & Htmp & [= _ <-])%obind_Ok).
  simpl in Hread. unfold readFromLocalFile_body in Hread.
  rewrite (resolve_abs dir (Join dir _)) in Hread by (apply is_abs_Join; exact Habs).
  rewrite Hfiles in Hread. simpl in Hread. injection Hread as <-.
  rewrite Hcodec. rewrite resolve_output_name.
  set (kvs := bucket (NReducer task) b (mapf (Input task) content)).
  destruct (write_rename_spec (output_line reducef) dir
              (Join dir (output_name (Id rtask)))
              (reduce_calls (length (sort_ByKey kvs)) (sort_ByKey kvs)) w1 tmp w' Htmp)
    as (_ & Hout & _).
  destruct (reduce_calls_sorted (length (sort_ByKey kvs)) (sort_ByKey kvs))
    as (Hasc & Hkeys & Hvals); [done|apply sorted_ByKey_key_le, sort_sorted|].
  exists content, (reduce_calls (length (sort_ByKey kvs)) (sort_ByKey kvs)).
  split; [exact Hin|]. split; [rewrite Hout, lookup_insert_eq; done|].
  split; [exact Hasc|].
  assert (∀ k, k ∈ (reduce_calls (length (sort_ByKey kvs)) (sort_ByKey kvs)).*1 ↔
               ∃ kv, kv ∈ mapf (Input task) content ∧ Key kv = k ∧
                     Z.rem (ihash k) (NReducer task) = b) as Hk.
  { intros k. rewrite Hkeys. split.
    - intros (kv & Hkv & <-). rewrite sort_Permutation in Hkv.
      apply list_elem_of_filter in Hkv as [Hslot Hkv]. eauto.
    - intros (kv & Hkv & <- & Hslot). exists kv. split; [|done].
      rewrite sort_Permutation. apply list_elem_of_filter. done. }
  split; [exact Hk|].
  intros k vs Hcall. rewrite (Hvals k vs Hcall).
  assert (k ∈ (reduce_calls (length (sort_ByKey kvs)) (sort_ByKey kvs)).*1) as Hin_k.
  { apply list_elem_of_fmap. exists (k, vs). done. }
  apply Hk in Hin_k as (_ & _ & _ & Hslot).
  unfold values_of at 1. rewrite sort_Permutation.
  fold (values_of k kvs). unfold kvs. rewrite (values_of_bucket _ _ _ _ Hslot). done.
Qed.

End MapThenReduce.

(** The word-count Map task 3, then a Reduce task on its bucket 0. *)
Lemma map_then_reduce_witness :
  ∃ ev w1 ev' w2 calls,
    mapper wc_mapf wc_encode "/d" wc_map_task wc_world = Ok (ev, w1) ∧
    reducer wc_reducef wc_decode wc_sort "/d" (mkTask 0 "" "" Reduce 2 ["/d/mr-3-0"]) w1
      = Ok (ev', w2) ∧
    files w2 !! "/d/mr-out-0" = Some (concat_strings (output_line wc_reducef <$> calls)) ∧
    ∀ k, k ∈ calls.*1 ↔
         ∃ kv, kv ∈ wc_mapf "in.txt" "b a c a" ∧ Key kv = k ∧ Z.rem (ihash k) 2 = 0.
Proof.
  destruct (mapper wc_mapf wc_encode "/d" wc_map_task wc_world)
    as [[ev w1]| | |] eqn:Hmap; [|vm_compute in Hmap; discriminate Hmap ..].
  pose proof Hmap as Hv. vm_compute in Hv. injection Hv as Hev Hw1.
  destruct (reducer wc_reducef wc_decode wc_sort "/d"
              (mkTask 0 "" "" Reduce 2 ["/d/mr-3-0"]) w1)
    as [[ev' w2]| | |] eqn:Hred;
    [|rewrite <- Hw1 in Hred; vm_compute in Hred; discriminate Hred ..].
  destruct (map_then_reduce wc_mapf wc_reducef wc_encode wc_decode wc_sort "/d"
              wc_sort_Permutation wc_sort_sorted wc_map_task
              (mkTask 0 "" "" Reduce 2 ["/d/mr-3-0"]) 0 wc_world w1 w2 ev ev')
    as (content & calls & Hin & Hout & _ & Hkeys & _).
  - reflexivity.
  - exact Hmap.
  - simpl. lia.
  - intros content Hc. vm_compute in Hc. injection Hc as <-. vm_compute. reflexivity.
  - reflexivity.
  - exact Hred.
  - vm_compute in Hin. injection Hin as <-.
    exists ev, w1, ev', w2, calls. split; [reflexivity|]. split; [exact Hred|].
    split; [exact Hout|exact Hkeys].
Defined.


(** ** A job served by one worker at a time *)











